(** * TexTweet: the iMessage-to-X pipeline

    A shallow embedding of the TypeScript sources
      - [src/message-cache.ts]     (module [MessageCache]),
      - [src/message-processor.ts] (module [MessageProcessor]),
      - [src/twitter-client.ts]    (module [TwitterClient]),
      - [src/imessage-monitor.ts]  (module [IMessageMonitor]),
      - [src/index.ts]             (module [Daemon]),
    and the properties of the dedup ledger, of message normalisation and of
    the poll loop that hold (or fail) on them. *)

From Stdlib Require Import ZArith String Ascii.
From stdpp Require Import gmap list sorting pretty.

Open Scope Z_scope.

(** ** JavaScript values used by the program *)

(** A JavaScript string is a sequence of UTF-16 code units; [length],
    [substring] and [trim] all work on code units. *)
Abbreviation jsstring := (list N).

(** An ASCII literal of the source as a JavaScript string. *)
Definition lit (s : string) : jsstring :=
  N_of_ascii <$> list_ascii_of_string s.

(** Truthiness of a string: only the empty string is falsy. *)
Definition truthy (s : jsstring) : bool :=
  match s with [] => false | _ :: _ => true end.

(** Truthiness of a possibly-null string ([null] and [''] are falsy). *)
Definition truthy_opt (s : option jsstring) : bool :=
  match s with Some s => truthy s | None => false end.

(** [a || b] on possibly-null strings. *)
Definition or_else (a b : option jsstring) : option jsstring :=
  if truthy_opt a then a else b.

(** WhiteSpace and LineTerminator code units, as stripped by
    [String.prototype.trim]. *)
Definition isWhiteSpace (c : N) : bool :=
  ((9 <=? c) && (c <=? 13) || (c =? 32) || (c =? 160) || (c =? 5760)
   || (8192 <=? c) && (c <=? 8202) || (c =? 8232) || (c =? 8233)
   || (c =? 8239) || (c =? 8287) || (c =? 12288) || (c =? 65279))%N.

Fixpoint trimStart (s : jsstring) : jsstring :=
  match s with
  | [] => []
  | c :: s' => if isWhiteSpace c then trimStart s' else s
  end.

Definition trimEnd (s : jsstring) : jsstring := rev (trimStart (rev s)).

Definition trim (s : jsstring) : jsstring := trimEnd (trimStart s).

(** The numbers the program handles are results of [parseInt] and
    arithmetic on them: an integer, NaN or an infinity. *)
Inductive number : Type :=
  | Num (z : Z)
  | NaN
  | PosInfinity
  | NegInfinity.

#[global] Instance number_eq_dec : EqDecision number.
Proof. solve_decision. Defined.

Definition number_code (n : number) : Z + nat :=
  match n with
  | Num z => inl z
  | NaN => inr 0%nat
  | PosInfinity => inr 1%nat
  | NegInfinity => inr 2%nat
  end.

Definition number_decode (c : Z + nat) : number :=
  match c with
  | inl z => Num z
  | inr 0%nat => NaN
  | inr 1%nat => PosInfinity
  | inr _ => NegInfinity
  end.

#[global] Instance number_countable : Countable number.
Proof.
  apply (inj_countable' number_code number_decode).
  intros []; reflexivity.
  Defined.

(** [len > n] for a string length [len]; any comparison with NaN is false. *)
Definition length_gt (len : Z) (n : number) : bool :=
  match n with
  | Num z => z <? len
  | NaN => false
  | PosInfinity => false
  | NegInfinity => true
  end.

(** [len <= n]. *)
Definition length_le (len : Z) (n : number) : bool :=
  match n with
  | Num z => len <=? z
  | NaN => false
  | PosInfinity => true
  | NegInfinity => false
  end.

(** [n - 1]. *)
Definition number_pred (n : number) : number :=
  match n with Num z => Num (z - 1) | other => other end.

(** [n * 2]. *)
Definition number_double (n : number) : number :=
  match n with Num z => Num (z * 2) | other => other end.

(** An index argument of [substring], clamped to [0 .. len]: NaN and
    negative values become 0, values beyond the end become [len]. *)
Definition clamp_index (len : nat) (n : number) : nat :=
  match n with
  | Num z => Nat.min (Z.to_nat z) len
  | NaN => 0%nat
  | PosInfinity => len
  | NegInfinity => 0%nat
  end.

(** [s.substring(0, end)]. *)
Definition substring0 (s : jsstring) (end_ : number) : jsstring :=
  take (clamp_index (length s) end_) s.

(** [Number.prototype.toString] on an integer below 10^21 (every SQLite
    ROWID is): the decimal digits, with a minus sign when negative. *)
Definition Number_toString (z : Z) : jsstring := lit (pretty z).

(** ASCII lower-casing. [String.prototype.toLowerCase] agrees with it on
    every string whose result is compared with the ASCII MIME types below:
    no character outside A-Z lower-cases to one of their letters. *)
Definition toLowerCase (s : jsstring) : jsstring :=
  (fun c => if (65 <=? c) && (c <=? 90) then c + 32 else c)%N <$> s.

(** What the host provides and the sources only call. *)
Class Host : Type := {
  (* parseInt(s, 10); its value on long digit strings is
     implementation-defined, so nothing is assumed about it *)
  parseInt : jsstring -> number;
  (* os.homedir(), as String.prototype.replace splices it in *)
  homedir : jsstring;
}.

(** A decimal [parseInt], exact on the short ids used in examples: skip
    white space, read a sign, then digits up to the first other character;
    no digit at all gives NaN. *)
Fixpoint parse_digits (acc : option Z) (s : jsstring) : option Z :=
  match s with
  | [] => acc
  | c :: s' =>
      if (48 <=? c)%N && (c <=? 57)%N
      then parse_digits (Some (default 0 acc * 10 + (Z.of_N c - 48))) s'
      else acc
  end.

Definition parseInt_decimal (s : jsstring) : number :=
  let s := trimStart s in
  let '(negative, digits) :=
    match s with
    | 45%N :: r => (true, r)
    | 43%N :: r => (false, r)
    | _ => (false, s)
    end in
  match parse_digits None digits with
  | Some z => Num (if negative then - z else z)
  | None => NaN
  end.

Definition example_host : Host :=
  {| parseInt := parseInt_decimal; homedir := lit "/Users/me" |}.

(** ** message-cache.ts *)

Module MessageCache.

(** The JSON document [save] writes. [JSON.stringify] writes a number that
    is not finite as [null]; [None] in a list is that [null]. A field that
    is absent from a file found on disk is [None]. *)
Record cache_file : Type := CacheFile {
  processed : option (list (option number));
  failed : option (list (option number));
  lastUpdated : jsstring;
}.

(** What is stored under [cacheFile]. *)
Inductive disk : Type :=
  | NoFile
  | Unparsable
  | Stored (data : cache_file).

(** What the environment does during one [save]: the clock it reads, and
    whether [writeFileSync] returns or throws (leaving some file behind). *)
Inductive write_outcome : Type :=
  | Written
  | WriteFailed (left_behind : disk).

Record save_env : Type := SaveEnv {
  now : jsstring;
  outcome : write_outcome;
}.

(** An instance: the two sets, and the content of its cache file. The sets
    are [Set<number>]; after a [load] they hold whatever the file listed,
    [null] included. *)
Record t : Type := Cache {
  processedIds : gset (option number);
  failedIds : gset (option number);
  cacheFile : disk;
}.

(** [JSON.stringify] on a set element. *)
Definition toJSON (x : option number) : option number :=
  match x with
  | Some (Num z) => Some (Num z)
  | _ => None
  end.

(** [load]: a missing file leaves the sets as they are, an unparsable one
    resets them. *)
Definition load (c : t) : t :=
  match cacheFile c with
  | Stored data =>
      {| processedIds := list_to_set (default [] (processed data));
         failedIds := list_to_set (default [] (failed data));
         cacheFile := cacheFile c |}
  | NoFile => c
  | Unparsable =>
      {| processedIds := ∅; failedIds := ∅; cacheFile := cacheFile c |}
  end.

(** The constructor, on the file it finds. *)
Definition new (d : disk) : t :=
  load {| processedIds := ∅; failedIds := ∅; cacheFile := d |}.

(** [save]: an exception of [writeFileSync] is caught and logged. The
    arrays are written in some order of the elements; [load] makes sets of
    them again. *)
Definition save (env : save_env) (c : t) : t :=
  let data :=
    {| processed := Some (toJSON <$> elements (processedIds c));
       failed := Some (toJSON <$> elements (failedIds c));
       lastUpdated := now env |} in
  {| processedIds := processedIds c;
     failedIds := failedIds c;
     cacheFile := match outcome env with
                  | Written => Stored data
                  | WriteFailed d => d
                  end |}.

Section Methods.
Context `{Host}.

Definition markProcessed (env : save_env) (messageId : jsstring) (c : t) : t :=
  let id := Some (parseInt messageId) in
  save env
    {| processedIds := processedIds c ∪ {[id]};
       failedIds := failedIds c ∖ {[id]};
       cacheFile := cacheFile c |}.

Definition markFailed (env : save_env) (messageId : jsstring) (c : t) : t :=
  let id := Some (parseInt messageId) in
  save env
    {| processedIds := processedIds c ∪ {[id]};
       failedIds := failedIds c ∪ {[id]};
       cacheFile := cacheFile c |}.

Definition isProcessed (c : t) (messageId : jsstring) : bool :=
  let id := Some (parseInt messageId) in
  bool_decide (id ∈ processedIds c) || bool_decide (id ∈ failedIds c).

Definition isFailed (c : t) (messageId : jsstring) : bool :=
  let id := Some (parseInt messageId) in
  bool_decide (id ∈ failedIds c).

Definition getProcessedCount (c : t) : nat := size (processedIds c).

Definition getFailedCount (c : t) : nat := size (failedIds c).

Definition clear (env : save_env) (c : t) : t :=
  save env {| processedIds := ∅; failedIds := ∅; cacheFile := cacheFile c |}.

(** A call of one of the two marking methods. *)
Inductive mark : Type :=
  | MarkProcessed (env : save_env) (messageId : jsstring)
  | MarkFailed (env : save_env) (messageId : jsstring).

Definition apply_mark (c : t) (m : mark) : t :=
  match m with
  | MarkProcessed env i => markProcessed env i c
  | MarkFailed env i => markFailed env i c
  end.

(** The cache after a sequence of marking calls, oldest first. *)
Definition after_marks (c : t) (ms : list mark) : t :=
  fold_left apply_mark ms c.

End Methods.

End MessageCache.

(** ** config.ts *)

Module Config.

(** The fields the pipeline reads. Both numbers come out of [parseInt] on an
    environment variable. *)
Record t : Type := Make {
  imessage_contact : jsstring;
  polling_interval : number;
  tweet_maxLength : number;
}.

End Config.

(** ** message-processor.ts *)

Module IMessageData.

Record attachment : Type := Attachment {
  filename : option jsstring;
  mime_type : option jsstring;
  transfer_name : option jsstring;
}.

Record t : Type := Make {
  id : jsstring;
  text : option jsstring;
  handle_id : jsstring;
  date : Z;
  is_from_me : bool;
  attachments : option (list attachment);
}.

End IMessageData.

Module ProcessedMessage.

Record t : Type := Make {
  text : jsstring;
  mediaPaths : list jsstring;
  originalText : jsstring;
  wasTruncated : bool;
}.

End ProcessedMessage.

(** The lines [MessageProcessor] writes to the console. *)
Inductive console : Type :=
  | MessageTruncated (from to : nat)
  | FoundImageAttachment (path mime : jsstring)
  | SkippingUnsupportedAttachment (mime : jsstring)
  | WarningTooManyImages (found : nat)
  | SkippingEmptyMessage
  | OnlyMedia.

Module MessageProcessor.

(** The string literal appended on truncation. In the source file it is the
    three characters U+00E2 U+20AC U+00A6. *)
Definition truncationMarker : jsstring := [226; 8364; 166]%N.

Definition supportedImageTypes : list jsstring :=
  lit <$> ["image/jpeg"; "image/jpg"; "image/png"; "image/gif";
           "image/webp"; "image/heic"; "image/heif"]%string.

(** [Array.prototype.includes] on strings. *)
Definition includes (l : list jsstring) (x : jsstring) : bool :=
  bool_decide (x ∈ l).

Section Methods.
Context `{Host} (config : Config.t).

(** [if (path.startsWith('~')) path = path.replace('~', homedir())]: the
    first occurrence of the tilde is the leading one. *)
Definition expandHome (path : jsstring) : jsstring :=
  match path with
  | 126%N :: rest => homedir ++ rest
  | _ => path
  end.

(** One turn of the loop over [message.attachments]: the array being filled
    and the console so far. *)
Definition extractMediaPaths_step
    (acc : list jsstring * list console) (a : IMessageData.attachment)
    : list jsstring * list console :=
  let '(mediaPaths, out) := acc in
  if truthy_opt (IMessageData.mime_type a)
     && includes supportedImageTypes
          (toLowerCase (default [] (IMessageData.mime_type a)))
  then
    match or_else (IMessageData.filename a) (IMessageData.transfer_name a) with
    | Some path =>
        if truthy path
        then
          let path := expandHome path in
          (mediaPaths ++ [path],
           out ++ [FoundImageAttachment path (default [] (IMessageData.mime_type a))])
        else acc
    | None => acc
    end
  else if truthy_opt (IMessageData.mime_type a)
  then (mediaPaths,
        out ++ [SkippingUnsupportedAttachment (default [] (IMessageData.mime_type a))])
  else acc.

Definition extractMediaPaths (message : IMessageData.t)
    : list jsstring * list console :=
  match IMessageData.attachments message with
  | None => ([], [])
  | Some [] => ([], [])
  | Some atts => fold_left extractMediaPaths_step atts ([], [])
  end.

Definition processMessage (message : IMessageData.t)
    : ProcessedMessage.t * list console :=
  let text := match IMessageData.text message with
              | Some s => trim s
              | None => []
              end in
  let originalText := text in
  let '(text, wasTruncated, out1) :=
    if length_gt (Z.of_nat (length text)) (Config.tweet_maxLength config)
    then
      let text' :=
        substring0 text (number_pred (Config.tweet_maxLength config))
        ++ truncationMarker in
      (text', true, [MessageTruncated (length originalText) (length text')])
    else (text, false, []) in
  let '(mediaPaths, out2) := extractMediaPaths message in
  let '(mediaPaths, out3) :=
    if (4 <? length mediaPaths)%nat
    then (take 4 mediaPaths, [WarningTooManyImages (length mediaPaths)])
    else (mediaPaths, []) in
  ({| ProcessedMessage.text := text;
      ProcessedMessage.mediaPaths := mediaPaths;
      ProcessedMessage.originalText := originalText;
      ProcessedMessage.wasTruncated := wasTruncated |},
   out1 ++ out2 ++ out3).

Definition validateMessage (message : ProcessedMessage.t)
    : bool * list console :=
  if negb (truthy (ProcessedMessage.text message))
     && (length (ProcessedMessage.mediaPaths message) =? 0)%nat
  then (false, [SkippingEmptyMessage])
  else if negb (truthy (ProcessedMessage.text message))
          && (0 <? length (ProcessedMessage.mediaPaths message))%nat
  then (true, [OnlyMedia])
  else (true, []).

End Methods.

End MessageProcessor.

(** ** The outside world *)

(** A thrown [Error]. *)
Inductive error : Type := Error (message : string).

Module MessageRow.

(** The columns the message query selects. *)
Record t : Type := Make {
  ROWID : Z;
  guid : jsstring;
  text : option jsstring;
  handle_id : Z;
  date : Z;
  is_from_me : Z;
}.

(** The order of [ORDER BY m.date DESC]: a row is followed by no newer
    one. *)
Definition by_date_desc (a b : t) : Prop := date b <= date a.

(** Of any two rows of the list, the newer one comes first. *)
Definition newer_first (l : list t) : Prop :=
  forall (m n : nat) (a b : t),
    l !! m = Some a -> l !! n = Some b -> date b < date a -> (m < n)%nat.

End MessageRow.

Module AttachmentRow.

(** The columns the attachment query selects. *)
Record t : Type := Make {
  filename : option jsstring;
  mime_type : option jsstring;
  transfer_name : option jsstring;
}.

End AttachmentRow.

Module TweetPayload.

Record t : Type := Make {
  text : jsstring;
  media_ids : option (list jsstring);
}.

End TweetPayload.

(** The collaborators the pipeline calls and the sources do not define: the
    SQLite database, the image converter's file and codec work, the X API
    and the file system under the cache file. Each call reads and changes a
    world; one that can throw returns the error on the left. No law is
    assumed of any of them. *)
Class External (World : Type) : Type := {
  (* the prepared message query, run for a handle id: newest first, at most 10 *)
  db_messages : Z -> World -> World * (error + list MessageRow.t);
  (* the prepared attachment query, run for a message ROWID *)
  db_attachments : Z -> World -> World * (error + list AttachmentRow.t);
  (* imageConverter.processImage(mediaPath) *)
  imageConverter_processImage : jsstring -> World -> World * (error + jsstring);
  (* twitterClient.uploadMedia(filePath) *)
  twitterClient_uploadMedia : jsstring -> World -> World * (error + jsstring);
  (* rwClient.v2.tweet(payload), giving tweet.data.id *)
  v2_tweet : TweetPayload.t -> World -> World * (error + jsstring);
  (* the clock and writeFileSync, for one save of the cache *)
  save_environment : World -> World * MessageCache.save_env;
}.

(** What a run does that can be observed: the console lines of the message
    processor, every call of a collaborator with its result, the ledger
    calls, the sleeps and the exit. An event of the loop over the batch
    starts with the id of the record being processed. *)
Inductive event : Type :=
  | Console (line : console)
  | ProcessImage (record mediaPath : jsstring) (result : error + jsstring)
  | UploadMedia (record uploadPath : jsstring) (result : error + jsstring)
  | FailedToUpload (record mediaPath : jsstring)
  | NoMediaNoText (record : jsstring)
  | PostTweet (record text : jsstring) (mediaIds : option (list jsstring))
              (result : error + jsstring)
  | MarkAsProcessed (messageId : jsstring)
  | MarkAsFailed (messageId : jsstring)
  | ErrorProcessingMessage (record : jsstring)
  | ErrorInMainLoop (consecutiveErrors : Z)
  | Sleep (ms : number)
  | ProcessExit (code : Z).

(** The record an event belongs to. *)
Definition record_of (ev : event) : option jsstring :=
  match ev with
  | ProcessImage r _ _ | UploadMedia r _ _ | FailedToUpload r _
  | NoMediaNoText r | PostTweet r _ _ _ | MarkAsProcessed r | MarkAsFailed r
  | ErrorProcessingMessage r => Some r
  | Console _ | ErrorInMainLoop _ | Sleep _ | ProcessExit _ => None
  end.

(** A call of the Publisher Adapter ([uploadMedia] or [postTweet]) made while
    processing record [r]. *)
Definition publisher_call (r : jsstring) (ev : event) : bool :=
  match ev with
  | UploadMedia r' _ _ | PostTweet r' _ _ _ => bool_decide (r' = r)
  | _ => false
  end.

(** ** Execution: state, exceptions, exit *)

Section Exec.
Context {World : Type}.

(** The mutable state of the process: the world, the monitor's fields
    ([cache], [db], [targetHandleId]) and the two variables of [main]. *)
Record state : Type := State {
  world : World;
  cache : MessageCache.t;
  db : bool;
  targetHandleId : option Z;
  isShuttingDown : bool;
  consecutiveErrors : Z;
}.

Definition set_world (w : World) (st : state) : state :=
  {| world := w; cache := cache st; db := db st;
     targetHandleId := targetHandleId st;
     isShuttingDown := isShuttingDown st;
     consecutiveErrors := consecutiveErrors st |}.

Definition set_cache (c : MessageCache.t) (st : state) : state :=
  {| world := world st; cache := c; db := db st;
     targetHandleId := targetHandleId st;
     isShuttingDown := isShuttingDown st;
     consecutiveErrors := consecutiveErrors st |}.

Definition set_db (b : bool) (st : state) : state :=
  {| world := world st; cache := cache st; db := b;
     targetHandleId := targetHandleId st;
     isShuttingDown := isShuttingDown st;
     consecutiveErrors := consecutiveErrors st |}.

Definition set_isShuttingDown (b : bool) (st : state) : state :=
  {| world := world st; cache := cache st; db := db st;
     targetHandleId := targetHandleId st;
     isShuttingDown := b;
     consecutiveErrors := consecutiveErrors st |}.

Definition set_consecutiveErrors (n : Z) (st : state) : state :=
  {| world := world st; cache := cache st; db := db st;
     targetHandleId := targetHandleId st;
     isShuttingDown := isShuttingDown st;
     consecutiveErrors := n |}.

(** How a piece of code ends: it returns, throws, or the process exits. *)
Inductive outcome (A : Type) : Type :=
  | Ok (a : A)
  | Throw (e : error)
  | Exit (code : Z).

Record run (A : Type) : Type := Run {
  out : outcome A;
  final : state;
  log : list event;
}.

Definition M (A : Type) : Type := state -> run A.

Definition ret {A} (a : A) : M A := fun st => Run A (Ok A a) st [].

Definition bind {A B} (m : M A) (f : A -> M B) : M B := fun st =>
  let r := m st in
  match out A r with
  | Ok _ a =>
      let r' := f a (final A r) in
      Run B (out B r') (final B r') (log A r ++ log B r')
  | Throw _ e => Run B (Throw B e) (final A r) (log A r)
  | Exit _ c => Run B (Exit B c) (final A r) (log A r)
  end.

(** [process.exit(code)]: nothing after it runs, and no [catch] sees it. *)
Definition process_exit {A} (code : Z) : M A := fun st =>
  Run A (Exit A code) st [ProcessExit code].

(** [try { m } catch (error) { h error }]. *)
Definition try_catch {A} (m : M A) (h : error -> M A) : M A := fun st =>
  let r := m st in
  match out A r with
  | Throw _ e =>
      let r' := h e (final A r) in
      Run A (out A r') (final A r') (log A r ++ log A r')
  | _ => r
  end.

Definition emit (ev : event) : M unit := fun st => Run unit (Ok unit tt) st [ev].

Definition get : M state := fun st => Run state (Ok state st) st [].

Definition modify (f : state -> state) : M unit := fun st =>
  Run unit (Ok unit tt) (f st) [].

(** A call of a collaborator, logged by [ev] with its result. *)
Definition call {A} (op : World -> World * (error + A))
    (ev : error + A -> list event) : M A := fun st =>
  let '(w, r) := op (world st) in
  Run A (match r with inl e => Throw A e | inr a => Ok A a end)
      (set_world w st) (ev r).

(** A run, seen from a point where [l] was already logged. *)
Definition prepend {A} (l : list event) (r : run A) : run A :=
  Run A (out A r) (final A r) (l ++ log A r).

(** [for (const x of l) body], with the array or counter the body updates
    passed along. *)
Fixpoint for_of {A S} (l : list A) (body : S -> A -> M S) (s : S) : M S :=
  match l with
  | [] => ret s
  | x :: l' => bind (body s x) (for_of l' body)
  end.

End Exec.

Arguments state : clear implicits.
Arguments run : clear implicits.
Arguments M : clear implicits.
Arguments Ok {A}.
Arguments Throw {A}.
Arguments Exit {A}.
Arguments Run {World A}.
Arguments out {World A}.
Arguments final {World A}.
Arguments log {World A}.
Arguments prepend {World A}.

Notation "'let*' x ':=' m 'in' k" := (bind m (fun x => k))
  (at level 10, x name, m at level 100, k at level 200).

(** ** twitter-client.ts *)

Module TwitterClient.

Section Methods.
Context {World : Type} `{External World}.

(** [uploadMedia]: reading the file and the v1 upload are the collaborator's;
    a failure of either is rethrown. *)
Definition uploadMedia (filePath : jsstring)
    : World -> World * (error + jsstring) :=
  twitterClient_uploadMedia filePath.

(** [postTweet]: an empty text is sent as one space, media are attached
    only when there are some; a failure of the API is rethrown. *)
Definition postTweet (text : jsstring) (mediaIds : option (list jsstring))
    : World -> World * (error + jsstring) := fun w =>
  let tweetPayload :=
    {| TweetPayload.text := if truthy text then text else lit " ";
       TweetPayload.media_ids :=
         match mediaIds with
         | Some ids => if (0 <? length ids)%nat then Some ids else None
         | None => None
         end |} in
  let '(w', r) := v2_tweet tweetPayload w in
  (w', match r with
       | inl (Error message) =>
           inl (Error ("Tweet posting failed: " ++ message))
       | inr tweetId => inr tweetId
       end).

End Methods.

End TwitterClient.

(** ** imessage-monitor.ts *)

Module IMessageMonitor.

Section Methods.
Context `{Host} {World : Type} `{External World}.

Definition getMessageAttachments (messageRowId : Z)
    : M World (list IMessageData.attachment) :=
  let* st := get in
  if negb (db st) then ret []
  else
    try_catch
      (let* attachments :=
         call (db_attachments messageRowId) (fun _ => []) in
       ret ((fun a =>
               {| IMessageData.filename := AttachmentRow.filename a;
                  IMessageData.mime_type := AttachmentRow.mime_type a;
                  IMessageData.transfer_name := AttachmentRow.transfer_name a |})
            <$> attachments))
      (fun _ => ret []).

Definition isProcessed (messageId : jsstring) : M World bool :=
  let* st := get in ret (MessageCache.isProcessed (cache st) messageId).

(** One turn of the loop over the fetched rows; [newMessages] is the array
    being filled. *)
Definition getNewMessages_step (newMessages : list IMessageData.t)
    (msg : MessageRow.t) : M World (list IMessageData.t) :=
  let msgId := Number_toString (MessageRow.ROWID msg) in
  let* processed := isProcessed msgId in
  if negb processed
  then
    let* attachments := getMessageAttachments (MessageRow.ROWID msg) in
    ret (newMessages ++
         [{| IMessageData.id := msgId;
             IMessageData.text := Some (default [] (MessageRow.text msg));
             IMessageData.handle_id := Number_toString (MessageRow.handle_id msg);
             IMessageData.date := MessageRow.date msg;
             IMessageData.is_from_me := (MessageRow.is_from_me msg =? 1);
             IMessageData.attachments := Some attachments |}])
  else ret newMessages.

Definition getNewMessages : M World (list IMessageData.t) :=
  let* st := get in
  match db st, targetHandleId st with
  | true, Some handle =>
      try_catch
        (let* messages := call (db_messages handle) (fun _ => []) in
         for_of messages getNewMessages_step [])
        (fun _ => ret [])
  | _, _ => ret []
  end.

Definition markAsProcessed (messageId : jsstring) : M World unit := fun st =>
  let '(w, env) := save_environment (world st) in
  Run (Ok tt)
      (set_cache (MessageCache.markProcessed env messageId (cache st))
         (set_world w st))
      [MarkAsProcessed messageId].

Definition markAsFailed (messageId : jsstring) : M World unit := fun st =>
  let '(w, env) := save_environment (world st) in
  Run (Ok tt)
      (set_cache (MessageCache.markFailed env messageId (cache st))
         (set_world w st))
      [MarkAsFailed messageId].

Definition close : M World unit :=
  let* st := get in
  if db st then modify (set_db false) else ret tt.

End Methods.

End IMessageMonitor.

(** ** index.ts *)

Module Daemon.

Definition MAX_CONSECUTIVE_ERRORS : Z := 5.

Section Main.
Context `{Host} {World : Type} `{External World} (config : Config.t).

Definition sleep (ms : number) : M World unit := emit (Sleep ms).

Definition shutdown : M World unit :=
  let* st := get in
  if isShuttingDown st then ret tt
  else
    let* _ := modify (set_isShuttingDown true) in
    let* _ := IMessageMonitor.close in
    process_exit 0.

(** One turn of the loop over [processedMessage.mediaPaths]; [mediaIds] is
    the array being filled. *)
Definition upload_step (record : jsstring) (mediaIds : list jsstring)
    (mediaPath : jsstring) : M World (list jsstring) :=
  try_catch
    (let* uploadPath :=
       call (imageConverter_processImage mediaPath)
            (fun r => [ProcessImage record mediaPath r]) in
     let* mediaId :=
       call (TwitterClient.uploadMedia uploadPath)
            (fun r => [UploadMedia record uploadPath r]) in
     ret (mediaIds ++ [mediaId]))
    (fun _ =>
       let* _ := emit (FailedToUpload record mediaPath) in
       ret mediaIds).

(** The body of the loop over [newMessages]. Each [continue] of the source
    is the end of a branch here. *)
Definition process_record (rawMessage : IMessageData.t) : M World unit :=
  let record := IMessageData.id rawMessage in
  try_catch
    (let '(processedMessage, out1) :=
       MessageProcessor.processMessage config rawMessage in
     let '(valid, out2) := MessageProcessor.validateMessage processedMessage in
     let* _ := for_of (out1 ++ out2) (fun _ line => emit (Console line)) tt in
     if negb valid
     then IMessageMonitor.markAsProcessed record
     else
       let text := ProcessedMessage.text processedMessage in
       let mediaPaths := ProcessedMessage.mediaPaths processedMessage in
       let* mediaIds :=
         if (0 <? length mediaPaths)%nat
         then for_of mediaPaths (upload_step record) []
         else ret [] in
       if (0 <? length mediaPaths)%nat
          && (length mediaIds =? 0)%nat && negb (truthy text)
       then
         let* _ := emit (NoMediaNoText record) in
         IMessageMonitor.markAsProcessed record
       else
         let mediaArg :=
           if (0 <? length mediaIds)%nat then Some mediaIds else None in
         let* tweetId :=
           call (TwitterClient.postTweet text mediaArg)
                (fun r => [PostTweet record text mediaArg r]) in
         let* _ := IMessageMonitor.markAsProcessed record in
         modify (set_consecutiveErrors 0))
    (fun _ =>
       let* _ := emit (ErrorProcessingMessage record) in
       IMessageMonitor.markAsFailed record).

(** The [catch] block of the loop body: count the error, shut down at the
    fifth in a row, otherwise sleep twice the interval. *)
Definition on_cycle_error (_ : error) : M World unit :=
  let* _ := modify (fun st =>
              set_consecutiveErrors (consecutiveErrors st + 1) st) in
  let* st := get in
  let* _ := emit (ErrorInMainLoop (consecutiveErrors st)) in
  let* _ :=
    if MAX_CONSECUTIVE_ERRORS <=? consecutiveErrors st
    then shutdown
    else ret tt in
  sleep (number_double (Config.polling_interval config)).

(** The body of [while (!isShuttingDown)]: one poll cycle. *)
Definition cycle : M World unit :=
  try_catch
    (let* newMessages := IMessageMonitor.getNewMessages in
     let* _ := for_of newMessages (fun _ => process_record) tt in
     sleep (Config.polling_interval config))
    on_cycle_error.

(** The polling loop, for at most [cycles] turns. *)
Fixpoint main_loop (cycles : nat) : M World unit :=
  match cycles with
  | O => ret tt
  | S n =>
      let* st := get in
      if isShuttingDown st then ret tt
      else let* _ := cycle in main_loop n
  end.

End Main.

End Daemon.

(** ** Views of a message and of a log, used to state the properties *)

Section Views.
Context `{Host}.
Import MessageProcessor.

(** The trimmed text of a message: [message.text?.trim() || '']. *)
Definition trimmedText (message : IMessageData.t) : jsstring :=
  match IMessageData.text message with
  | Some s => trim s
  | None => []
  end.

(** Whether an attachment has one of the supported image MIME types. *)
Definition isSupportedImage (a : IMessageData.attachment) : bool :=
  truthy_opt (IMessageData.mime_type a)
  && includes supportedImageTypes
       (toLowerCase (default [] (IMessageData.mime_type a))).

(** The resolved path of an attachment that is a supported image and has a
    file name (or else a transfer name). *)
Definition imagePath (a : IMessageData.attachment) : option jsstring :=
  if isSupportedImage a
  then
    match or_else (IMessageData.filename a) (IMessageData.transfer_name a) with
    | Some path => if truthy path then Some (expandHome path) else None
    | None => None
    end
  else None.

(** The media paths as C6 words them: the resolved path of every attachment,
    in source order, cut to the first four. *)
Definition claimed_mediaPaths (message : IMessageData.t) : list jsstring :=
  take 4
    (omap (fun a =>
             expandHome <$> or_else (IMessageData.filename a)
                                    (IMessageData.transfer_name a))
          (default [] (IMessageData.attachments message))).

(** The media ids returned by the uploads that succeeded, in call order. *)
Definition uploaded_ids (l : list event) : list jsstring :=
  omap (fun ev => match ev with
                  | UploadMedia _ _ (inr mediaId) => Some mediaId
                  | _ => None
                  end) l.

(** The media paths handed to the image converter, in call order. *)
Definition converted_paths (l : list event) : list jsstring :=
  omap (fun ev => match ev with
                  | ProcessImage _ mediaPath _ => Some mediaPath
                  | _ => None
                  end) l.

(** The upload paths handed to [uploadMedia], in call order. *)
Definition upload_calls (l : list event) : list jsstring :=
  omap (fun ev => match ev with
                  | UploadMedia _ uploadPath _ => Some uploadPath
                  | _ => None
                  end) l.

(** The media paths whose conversion or upload failed, as logged. *)
Definition failed_attachments (l : list event) : list jsstring :=
  omap (fun ev => match ev with
                  | FailedToUpload _ mediaPath => Some mediaPath
                  | _ => None
                  end) l.

(** The post calls: record, text, media ids and result, in call order. *)
Definition post_calls (l : list event)
    : list (jsstring * jsstring * option (list jsstring) * (error + jsstring)) :=
  omap (fun ev => match ev with
                  | PostTweet r text mediaIds res => Some (r, text, mediaIds, res)
                  | _ => None
                  end) l.

(** The records a post was attempted for, in call order. *)
Definition posted_records (l : list event) : list jsstring :=
  omap (fun ev => match ev with
                  | PostTweet r _ _ _ => Some r
                  | _ => None
                  end) l.

(** The ids the ledger was told to resolve, in call order. *)
Definition resolutions (l : list event) : list jsstring :=
  omap (fun ev => match ev with
                  | MarkAsProcessed i | MarkAsFailed i => Some i
                  | _ => None
                  end) l.

(** The sleeps, in order. *)
Definition sleeps (l : list event) : list number :=
  omap (fun ev => match ev with Sleep ms => Some ms | _ => None end) l.

(** The exits and main-loop errors: what the failure guard of [main] emits. *)
Definition guard_events (l : list event) : list event :=
  omap (fun ev => match ev with
                  | ProcessExit _ | ErrorInMainLoop _ => Some ev
                  | _ => None
                  end) l.

End Views.

Section StateViews.
Context `{Host} {World : Type}.

(** What no step of the pipeline undoes: resolved ids stay resolved, the
    database handle and the shutdown flag are untouched, and the error
    counter is left alone or reset. *)
Definition keeps (st st' : state World) : Prop :=
  (forall i, MessageCache.isProcessed (cache st) i = true ->
             MessageCache.isProcessed (cache st') i = true)
  /\ db st' = db st
  /\ targetHandleId st' = targetHandleId st
  /\ isShuttingDown st' = isShuttingDown st
  /\ (consecutiveErrors st' = consecutiveErrors st
      \/ consecutiveErrors st' = 0).

(** A step that touches the world only. *)
Definition same_but_world (st st' : state World) : Prop :=
  cache st' = cache st
  /\ db st' = db st
  /\ targetHandleId st' = targetHandleId st
  /\ isShuttingDown st' = isShuttingDown st
  /\ consecutiveErrors st' = consecutiveErrors st.

End StateViews.

(** ** A scripted world, for running the pipeline on concrete inputs *)

Module Scripted.

(** The database answers every message query with [table] (or throws when
    [db_down]); [unreadable] lists the media paths the converter rejects,
    [rejected] the upload paths the API rejects; [tweets_fail] makes every
    post fail. The cache file is always written. *)
Record script : Type := Script {
  db_down : bool;
  table : list MessageRow.t;
  attachment_table : list (Z * list AttachmentRow.t);
  unreadable : list jsstring;
  rejected : list jsstring;
  tweets_fail : bool;
}.

Definition written : MessageCache.save_env :=
  {| MessageCache.now := lit "2024-02-03T18:30:00.000Z";
     MessageCache.outcome := MessageCache.Written |}.

Definition attachments_for (rowid : Z) (w : script) : list AttachmentRow.t :=
  default [] (snd <$> find (fun e => bool_decide (fst e = rowid))
                           (attachment_table w)).

#[global] Instance external : External script := {|
  db_messages _ w :=
    (w, if db_down w then inl (Error "SQLITE_BUSY") else inr (table w));
  db_attachments rowid w := (w, inr (attachments_for rowid w));
  imageConverter_processImage p w :=
    (w, if bool_decide (p ∈ unreadable w)
        then inl (Error "Image file not found") else inr p);
  twitterClient_uploadMedia p w :=
    (w, if bool_decide (p ∈ rejected w)
        then inl (Error "Media upload failed") else inr (lit "media:" ++ p));
  v2_tweet _ w :=
    (w, if tweets_fail w then inl (Error "503") else inr (lit "1001"));
  save_environment w := (w, written);
|}.

Definition config : Config.t :=
  {| Config.imessage_contact := lit "+15550100";
     Config.polling_interval := Num 3000;
     Config.tweet_maxLength := Num 10 |}.

(** The state [main] enters its loop in, on an empty cache. *)
Definition start (w : script) : state script :=
  {| world := w;
     cache := MessageCache.new MessageCache.NoFile;
     db := true;
     targetHandleId := Some 1;
     isShuttingDown := false;
     consecutiveErrors := 0 |}.

Definition quiet : script :=
  {| db_down := false; table := []; attachment_table := [];
     unreadable := []; rejected := []; tweets_fail := false |}.

Definition row (rowid date : Z) (text : string) : MessageRow.t :=
  {| MessageRow.ROWID := rowid; MessageRow.guid := lit "guid";
     MessageRow.text := Some (lit text); MessageRow.handle_id := 1;
     MessageRow.date := date; MessageRow.is_from_me := 1 |}.

Definition message (id : string) (text : string)
    (atts : list IMessageData.attachment) : IMessageData.t :=
  {| IMessageData.id := lit id; IMessageData.text := Some (lit text);
     IMessageData.handle_id := lit "1"; IMessageData.date := 0;
     IMessageData.is_from_me := true; IMessageData.attachments := Some atts |}.

Definition attachment (mime name : string) : IMessageData.attachment :=
  {| IMessageData.filename := Some (lit name);
     IMessageData.mime_type := Some (lit mime);
     IMessageData.transfer_name := None |}.

(** Two messages in the database, the newer one first as the query orders
    them. *)
Definition two_rows : script :=
  {| db_down := false;
     table := [row 2 200 "newer"; row 1 100 "older"];
     attachment_table := [];
     unreadable := []; rejected := []; tweets_fail := false |}.

(** The same, entered with message 1 already resolved. *)
Definition one_resolved : state script :=
  {| world := two_rows;
     cache := @MessageCache.markFailed example_host written (lit "1")
                (MessageCache.new MessageCache.NoFile);
     db := true;
     targetHandleId := Some 1;
     isShuttingDown := false;
     consecutiveErrors := 0 |}.

(** A database whose every query throws. *)
Definition broken : script :=
  {| db_down := true; table := []; attachment_table := [];
     unreadable := []; rejected := []; tweets_fail := false |}.

(** An API that refuses every post. *)
Definition refusing : script :=
  {| db_down := false; table := []; attachment_table := [];
     unreadable := []; rejected := []; tweets_fail := true |}.

(** An API that rejects the upload of [b.png]. *)
Definition rejecting_b : script :=
  {| db_down := false; table := []; attachment_table := [];
     unreadable := []; rejected := [lit "b.png"]; tweets_fail := false |}.

Definition three_images : IMessageData.t :=
  message "7" "look"
    [attachment "image/png" "a.png"; attachment "image/png" "b.png";
     attachment "image/png" "c.png"].

Definition six_images : IMessageData.t :=
  message "8" "album"
    [attachment "image/png" "1.png"; attachment "image/png" "2.png";
     attachment "image/png" "3.png"; attachment "image/png" "4.png";
     attachment "image/png" "5.png"; attachment "image/png" "6.png"].

Definition six_videos : IMessageData.t :=
  message "9" "clips"
    [attachment "video/quicktime" "1.mov"; attachment "video/quicktime" "2.mov";
     attachment "video/quicktime" "3.mov"; attachment "video/quicktime" "4.mov";
     attachment "video/quicktime" "5.mov"; attachment "video/quicktime" "6.mov"].

End Scripted.

(** ** Further views of the ledger *)

Section LedgerViews.
Context `{Host}.

(** The key a marking call stores its id under. *)
Definition mark_key (m : MessageCache.mark) : option number :=
  match m with
  | MessageCache.MarkProcessed _ i | MessageCache.MarkFailed _ i =>
      Some (parseInt i)
  end.

Definition mark_fails (m : MessageCache.mark) : bool :=
  match m with
  | MessageCache.MarkProcessed _ _ => false
  | MessageCache.MarkFailed _ _ => true
  end.

(** Whether the last marking call for key [k] in [ms] (oldest first) was a
    [markFailed]; [None] when there was no call for [k]. *)
Definition last_outcome (k : option number) (ms : list MessageCache.mark)
    : option bool :=
  fold_left
    (fun acc m => if decide (mark_key m = k) then Some (mark_fails m) else acc)
    ms None.

End LedgerViews.

(** An ASCII capital letter: what [toLowerCase] changes. *)
Definition isUpperCase (c : N) : bool := ((65 <=? c) && (c <=? 90))%N.

(** ** twitter-client.ts: the MIME type of an upload *)

Module TwitterMedia.

(** [s.split(sep)] for a one-character separator: never empty. *)
Fixpoint split_on (sep : N) (s : jsstring) : list jsstring :=
  match s with
  | [] => [[]]
  | c :: s' =>
      if (c =? sep)%N then [] :: split_on sep s'
      else match split_on sep s' with
           | segment :: rest => (c :: segment) :: rest
           | [] => [[c]]
           end
  end.

(** The own properties of the [mimeTypes] object literal. *)
Definition mimeTypes : list (jsstring * jsstring) :=
  [(lit "jpg", lit "image/jpeg"); (lit "jpeg", lit "image/jpeg");
   (lit "png", lit "image/png"); (lit "gif", lit "image/gif");
   (lit "webp", lit "image/webp")].

(** The property names an object literal inherits from [Object.prototype];
    reading one of them gives a function or an object, not a string. *)
Definition inherited_names : list jsstring :=
  lit <$> ["constructor"; "__defineGetter__"; "__defineSetter__";
           "hasOwnProperty"; "__lookupGetter__"; "__lookupSetter__";
           "isPrototypeOf"; "propertyIsEnumerable"; "toString"; "valueOf";
           "__proto__"; "toLocaleString"]%string.

(** What [getMimeType] hands to the upload: a string, or the inherited
    value it found under the extension. *)
Inductive mime_value : Type :=
  | MimeString (s : jsstring)
  | InheritedValue (name : jsstring).

(** [mimeTypes[key]], through the prototype chain. *)
Definition mimeTypes_get (key : jsstring) : option mime_value :=
  match snd <$> find (fun e => bool_decide (fst e = key)) mimeTypes with
  | Some s => Some (MimeString s)
  | None =>
      if bool_decide (key ∈ inherited_names)
      then Some (InheritedValue key) else None
  end.

Definition getMimeType (filePath : jsstring) : mime_value :=
  let ext := last (split_on 46 (toLowerCase filePath)) in
  default (MimeString (lit "image/jpeg")) (mimeTypes_get (default [] ext)).

End TwitterMedia.

(** ** image-converter.ts *)

(** An [Error] as this module throws and catches it. Its message is a
    JavaScript string: the messages built here interpolate paths. *)
Inductive js_error : Type := JsError (message : jsstring).

(** What the converter calls: [path.extname], [path.basename] with a
    suffix, [path.join] of two parts, its temp directory, the file system
    and the HEIC decoder. Reading leaves the file system as it is. *)
Class ImageHost (Files : Type) : Type := {
  extname : jsstring -> jsstring;
  basename : jsstring -> jsstring -> jsstring;
  join : jsstring -> jsstring -> jsstring;
  tempDir : jsstring;
  existsSync : jsstring -> Files -> bool;
  readFileSync : jsstring -> Files -> js_error + list N;
  heic_convert : list N -> js_error + list N;
  writeFileSync : jsstring -> list N -> Files -> Files * (js_error + unit);
}.

Module ImageConverter.

Section Methods.
Context `{Host} {Files : Type} `{ImageHost Files}.

Definition expandPath (filePath : jsstring) : jsstring :=
  match filePath with
  | 126%N :: rest => homedir ++ rest
  | _ => filePath
  end.

Definition needsConversion (filePath : jsstring) : bool :=
  let ext := toLowerCase (extname filePath) in
  bool_decide (ext = lit ".heic") || bool_decide (ext = lit ".heif").

(** [convertToJpeg]: whatever fails inside is rethrown with a prefix. *)
Definition convertToJpeg (heicPath : jsstring) (fs : Files)
    : Files * (js_error + jsstring) :=
  let rethrow (e : js_error) : js_error :=
    match e with
    | JsError message => JsError (lit "HEIC conversion failed: " ++ message)
    end in
  let expandedPath := expandPath heicPath in
  match readFileSync expandedPath fs with
  | inl e => (fs, inl (rethrow e))
  | inr inputBuffer =>
      match heic_convert inputBuffer with
      | inl e => (fs, inl (rethrow e))
      | inr outputBuffer =>
          let fileName := basename heicPath (extname heicPath) in
          let outputPath := join tempDir (fileName ++ lit ".jpg") in
          let '(fs', written) := writeFileSync outputPath outputBuffer fs in
          match written with
          | inl e => (fs', inl (rethrow e))
          | inr _ => (fs', inr outputPath)
          end
      end
  end.

Definition processImage (imagePath : jsstring) (fs : Files)
    : Files * (js_error + jsstring) :=
  let expandedPath := expandPath imagePath in
  if negb (existsSync expandedPath fs)
  then (fs, inl (JsError (lit "Image file not found: " ++ expandedPath)))
  else if needsConversion imagePath
  then convertToJpeg imagePath fs
  else (fs, inr expandedPath).

End Methods.

End ImageConverter.

(** ** A scripted file system, for running the converter *)

Module ScriptedFiles.

(** The files, as pairs of a path and its bytes. *)
Definition files : Type := list (jsstring * list N).

Definition read (path : jsstring) (fs : files) : option (list N) :=
  snd <$> find (fun e => bool_decide (fst e = path)) fs.

(** The last component of a slash-separated path. *)
Definition component (path : jsstring) : jsstring :=
  default [] (last (TwitterMedia.split_on 47 path)).

(** [path.extname] on the plain file names of the examples: the last dot
    of the last component and what follows it. *)
Definition extension (path : jsstring) : jsstring :=
  match TwitterMedia.split_on 46 (component path) with
  | [] | [_] => []
  | segments => 46%N :: default [] (last segments)
  end.

(** [path.basename(path, ext)] on the same. *)
Definition base (path ext : jsstring) : jsstring :=
  let name := component path in
  if bool_decide (drop (length name - length ext) name = ext)
  then take (length name - length ext) name
  else name.

#[global] Instance host : ImageHost files := {|
  extname := extension;
  basename := base;
  join dir name := dir ++ lit "/" ++ name;
  tempDir := lit "/app/.temp-images";
  existsSync path fs := bool_decide (is_Some (read path fs));
  readFileSync path fs :=
    match read path fs with
    | Some bytes => inr bytes
    | None => inl (JsError (lit "ENOENT: no such file or directory"))
    end;
  heic_convert bytes :=
    match bytes with
    | [] => inl (JsError (lit "input buffer is not a HEIC image"))
    | _ => inr (255%N :: 216%N :: bytes)
    end;
  writeFileSync path bytes fs := ((path, bytes) :: fs, inr tt);
|}.

Definition one_heic : files := [(lit "/Users/me/Pictures/a.HEIC", [1; 2; 3]%N)].

End ScriptedFiles.

(** ** The ledger calls of a log *)

(** The id of a marking call. *)
Definition mark_id (m : MessageCache.mark) : jsstring :=
  match m with
  | MessageCache.MarkProcessed _ i | MessageCache.MarkFailed _ i => i
  end.

(** The ledger calls in a log, in order: whether the call was
    [markAsFailed], and the id. *)
Definition ledger_events (l : list event) : list (bool * jsstring) :=
  omap (fun ev => match ev with
                  | MarkAsProcessed i => Some (false, i)
                  | MarkAsFailed i => Some (true, i)
                  | _ => None
                  end) l.

Section Replay.
Context `{Host} {World : Type}.

(** The cache of [st'] is the cache of [st] after the marking calls that
    [l] logs, in the order of the log. *)
Definition replays (st st' : state World) (l : list event) : Prop :=
  exists ms,
    cache st' = MessageCache.after_marks (cache st) ms
    /\ (fun m => (mark_fails m, mark_id m)) <$> ms = ledger_events l.

(** Every run of [m] changes the cache by its logged marking calls only. *)
Definition Replays {A} (m : M World A) : Prop :=
  forall st, replays st (final (m st)) (log (m st)).

End Replay.

(** ** What holds of every logged event *)

Section Always.
Context {World : Type}.

(** Every event that a run of [m] logs satisfies [P]. *)
Definition Always (P : event -> Prop) {A} (m : M World A) : Prop :=
  forall st, Forall P (log (m st)).

End Always.

(** A post carries a non-empty text or at least one media id. *)
Definition post_has_content (ev : event) : bool :=
  match ev with
  | PostTweet _ text mediaIds _ =>
      truthy text
      || match mediaIds with Some (_ :: _) => true | _ => false end
  | _ => true
  end.

(** ** The log summary of a message *)

Module MessageSummary.

(** [Array.prototype.join]. *)
Definition join (sep : jsstring) (parts : list jsstring) : jsstring :=
  match parts with
  | [] => []
  | part :: parts => part ++ concat ((fun p => sep ++ p) <$> parts)
  end.

(** [formatMessageSummary]; 34 is the double quote. *)
Definition formatMessageSummary (message : ProcessedMessage.t) : jsstring :=
  let text := ProcessedMessage.text message in
  let mediaPaths := ProcessedMessage.mediaPaths message in
  let parts := [] in
  let parts :=
    if truthy text
    then
      let preview :=
        if (50 <? length text)%nat then take 50 text ++ lit "..." else text in
      parts ++ [lit "Text: " ++ [34%N] ++ preview ++ [34%N]]
    else parts in
  let parts :=
    if (0 <? length mediaPaths)%nat
    then parts ++ [lit (pretty (length mediaPaths)) ++ lit " image(s)"]
    else parts in
  let parts :=
    if ProcessedMessage.wasTruncated message
    then parts ++ [lit "(truncated)"]
    else parts in
  join (lit ", ") parts.

End MessageSummary.

(** ** config.ts *)

Module ConfigLoader.

Record twitter : Type := Twitter {
  apiKey : jsstring;
  apiSecret : jsstring;
  accessToken : jsstring;
  accessSecret : jsstring;
}.

(** The whole [Config]: the credentials, and the fields the pipeline
    reads. *)
Record t : Type := Make {
  credentials : twitter;
  settings : Config.t;
}.

(** [process.env], after [dotenv.config]. *)
Definition environment : Type := gmap string jsstring.

(** What [loadConfig] ends in: the configuration, and whether the warning
    about the polling interval was printed; or the error that its [catch]
    block reports before [process.exit(1)]. *)
Inductive loaded : Type :=
  | Loaded (config : t) (warned : bool)
  | ConfigurationError (e : error).

(** The variables [loadConfig] requires, in the order it reads them. *)
Definition required : list string :=
  ["TWITTER_API_KEY"; "TWITTER_API_SECRET"; "TWITTER_ACCESS_TOKEN";
   "TWITTER_ACCESS_SECRET"; "IMESSAGE_CONTACT"]%string.

(** The variable is set, and not to the empty string. *)
Definition is_set (env : environment) (key : string) : bool :=
  match env !! key with
  | Some (_ :: _) => true
  | Some [] | None => false
  end.

Section Load.
Context `{Host} (env : environment).

Definition getRequiredEnv (key : string) : error + jsstring :=
  match env !! key with
  | Some (c :: value) => inr (c :: value)
  | Some [] | None =>
      inl (Error ("Missing required environment variable: " ++ key))
  end.

Definition getOptionalEnv (key : string) (defaultValue : jsstring)
    : jsstring :=
  match env !! key with
  | Some (c :: value) => c :: value
  | Some [] | None => defaultValue
  end.

Definition loadConfig : loaded :=
  match getRequiredEnv "TWITTER_API_KEY" with
  | inl e => ConfigurationError e
  | inr key =>
  match getRequiredEnv "TWITTER_API_SECRET" with
  | inl e => ConfigurationError e
  | inr secret =>
  match getRequiredEnv "TWITTER_ACCESS_TOKEN" with
  | inl e => ConfigurationError e
  | inr token =>
  match getRequiredEnv "TWITTER_ACCESS_SECRET" with
  | inl e => ConfigurationError e
  | inr tokenSecret =>
  match getRequiredEnv "IMESSAGE_CONTACT" with
  | inl e => ConfigurationError e
  | inr contact =>
      let interval := parseInt (getOptionalEnv "POLL_INTERVAL" (lit "3000")) in
      let maxLength :=
        parseInt (getOptionalEnv "MAX_TWEET_LENGTH" (lit "280")) in
      let twitter :=
        {| apiKey := key; apiSecret := secret;
           accessToken := token; accessSecret := tokenSecret |} in
      if length_gt 1000 interval
      then Loaded {| credentials := twitter;
                     settings := {| Config.imessage_contact := contact;
                                    Config.polling_interval := Num 1000;
                                    Config.tweet_maxLength := maxLength |} |}
                  true
      else Loaded {| credentials := twitter;
                     settings := {| Config.imessage_contact := contact;
                                    Config.polling_interval := interval;
                                    Config.tweet_maxLength := maxLength |} |}
                  false
  end end end end end.

End Load.

End ConfigLoader.

(** ** The timer behind [sleep] *)

(** The delay of [setTimeout(resolve, ms)] in milliseconds, as Node sets
    it: a delay that is NaN, below 1 or above 2^31 - 1 is replaced
    by 1. *)
Definition setTimeout_delay (ms : number) : Z :=
  match ms with
  | Num z => if (1 <=? z) && (z <=? 2147483647) then z else 1
  | NaN | PosInfinity | NegInfinity => 1
  end.

(** ** Start-up *)

Module HandleRow.

Record t : Type := Make {
  ROWID : Z;
  id : jsstring;
  service : jsstring;
}.

End HandleRow.

(** What start-up calls and the sources do not define: the cache file as
    [MessageCache.load] finds it, the creation of the converter's temp
    directory when it is missing, [v2.me] of the platform, and the
    Messages database: whether its file exists, opening it, and the two
    queries on the [handle] table. *)
Class Startup (World : Type) : Type := {
  cache_file : World -> MessageCache.disk;
  ensure_tempDir : World -> World * (error + unit);
  v2_me : World -> World * (error + jsstring);
  existsSync_dbPath : World -> bool;
  open_database : World -> World * (error + unit);
  db_handle : jsstring -> World -> World * (error + option HandleRow.t);
  db_handles : World -> World * (error + list (jsstring * jsstring));
}.

Section Startup.
Context `{Host} {World : Type} `{External World} `{Startup World}.

Definition set_targetHandleId (h : option Z) (st : state World)
    : state World :=
  {| world := world st; cache := cache st; db := db st;
     targetHandleId := h;
     isShuttingDown := isShuttingDown st;
     consecutiveErrors := consecutiveErrors st |}.

(** [TwitterClient.verifyCredentials]. *)
Definition verifyCredentials : M World bool :=
  try_catch
    (let* username := call v2_me (fun _ => []) in ret true)
    (fun _ => ret false).

(** [IMessageMonitor.initialize]. When the contact is not found, the
    other handles are listed before it returns. *)
Definition initialize (config : Config.t) : M World bool :=
  try_catch
    (let* st := get in
     if negb (existsSync_dbPath (world st)) then ret false
     else
       let* _ := call open_database (fun _ => []) in
       let* _ := modify (set_db true) in
       let* handle :=
         call (db_handle (Config.imessage_contact config)) (fun _ => []) in
       match handle with
       | None =>
           let* allHandles := call db_handles (fun _ => []) in
           ret false
       | Some handle =>
           let* _ := modify (set_targetHandleId (Some (HandleRow.ROWID handle))) in
           ret true
       end)
    (fun _ => ret false).

(** The fields as the constructors of the four components and the
    declarations of [main] set them; the cache is loaded from its file. *)
Definition construct (st : state World) : state World :=
  {| world := world st;
     cache := MessageCache.new (cache_file (world st));
     db := false;
     targetHandleId := None;
     isShuttingDown := false;
     consecutiveErrors := 0 |}.

(** [main], with the polling loop cut after [cycles] turns, and the
    handler that the last line of the file attaches to it. *)
Definition main (env : ConfigLoader.environment) (cycles : nat)
    : M World unit :=
  try_catch
    (match ConfigLoader.loadConfig env with
     | ConfigLoader.ConfigurationError _ => process_exit 1
     | ConfigLoader.Loaded loaded _ =>
         let config := ConfigLoader.settings loaded in
         let* _ := modify construct in
         let* _ := call ensure_tempDir (fun _ => []) in
         let* isAuthenticated := verifyCredentials in
         if negb isAuthenticated then process_exit 1
         else
           let* isInitialized := initialize config in
           if negb isInitialized then process_exit 1
           else Daemon.main_loop config cycles
     end)
    (fun _ => process_exit 1).

End Startup.

(** ** A database that always answers the same *)

Module Steady.

(** The world is a single point: every message query returns the two rows
    of [Scripted.two_rows], no message has attachments, every upload and
    every post succeeds, and the cache file is always written. *)
#[global] Instance external : External unit := {|
  db_messages _ w := (w, inr (Scripted.table Scripted.two_rows));
  db_attachments _ w := (w, inr []);
  imageConverter_processImage p w := (w, inr p);
  twitterClient_uploadMedia p w := (w, inr (lit "media:" ++ p));
  v2_tweet _ w := (w, inr (lit "1001"));
  save_environment w := (w, Scripted.written);
|}.

Definition start : state unit :=
  {| world := tt;
     cache := MessageCache.new MessageCache.NoFile;
     db := true;
     targetHandleId := Some 1;
     isShuttingDown := false;
     consecutiveErrors := 0 |}.

End Steady.

(** ** A start-up to run *)

Module ScriptedStartup.

(** The ledger a previous run left in the cache file: record 1
    resolved. *)
Definition previous : MessageCache.t :=
  @MessageCache.markProcessed example_host Scripted.written (lit "1")
    (MessageCache.new MessageCache.NoFile).

(** The cache file is the one of [previous]; the credentials are
    accepted unless the script's API refuses everything; the Messages
    database exists, opens unless the script's database is down, and
    knows one contact. *)
#[global] Instance startup : Startup Scripted.script := {|
  cache_file _ :=
    MessageCache.cacheFile (MessageCache.save Scripted.written previous);
  ensure_tempDir w := (w, inr tt);
  v2_me w :=
    (w, if Scripted.tweets_fail w then inl (Error "401") else inr (lit "me"));
  existsSync_dbPath _ := true;
  open_database w :=
    (w, if Scripted.db_down w then inl (Error "SQLITE_AUTH") else inr tt);
  db_handle contact w :=
    (w, inr (if bool_decide (contact = lit "+15550100")
             then Some {| HandleRow.ROWID := 1;
                          HandleRow.id := lit "+15550100";
                          HandleRow.service := lit "iMessage" |}
             else None));
  db_handles w := (w, inr [(lit "+15550100", lit "iMessage")]);
|}.

Definition credentials : list (string * jsstring) :=
  [("TWITTER_API_KEY", lit "k"); ("TWITTER_API_SECRET", lit "s");
   ("TWITTER_ACCESS_TOKEN", lit "t");
   ("TWITTER_ACCESS_SECRET", lit "ts")]%string.

(** A complete environment, with a polling interval below the minimum. *)
Definition env : ConfigLoader.environment :=
  list_to_map (credentials
               ++ [("IMESSAGE_CONTACT", lit "+15550100");
                   ("POLL_INTERVAL", lit "250")]%string).

(** A complete environment whose polling interval is not a number. *)
Definition unparsable : ConfigLoader.environment :=
  list_to_map (credentials
               ++ [("IMESSAGE_CONTACT", lit "+15550100");
                   ("POLL_INTERVAL", lit "abc")]%string).

(** The same without the access token and without the contact. *)
Definition incomplete : ConfigLoader.environment :=
  list_to_map [("TWITTER_API_KEY", lit "k"); ("TWITTER_API_SECRET", lit "s");
               ("TWITTER_ACCESS_SECRET", lit "ts")]%string.

(** A configuration naming a contact the database does not know. *)
Definition stranger : Config.t :=
  {| Config.imessage_contact := lit "nobody@example.com";
     Config.polling_interval := Num 3000;
     Config.tweet_maxLength := Num 280 |}.

End ScriptedStartup.

(** * Properties *)

(** ** The dedup ledger *)

Section MessageCacheFacts.
Context `{Host}.
Import MessageCache.

Lemma isProcessed_true c i :
  isProcessed c i = true <->
  Some (parseInt i) ∈ processedIds c \/ Some (parseInt i) ∈ failedIds c.
Proof.
  unfold isProcessed. rewrite orb_true_iff, !bool_decide_eq_true. tauto.
Qed.

Lemma isProcessed_markProcessed env i c :
  isProcessed (markProcessed env i c) i = true.
Proof.
  apply isProcessed_true. left. cbn. by apply elem_of_union_r, elem_of_singleton.
Qed.

Lemma isProcessed_markFailed env i c :
  isProcessed (markFailed env i c) i = true.
Proof.
  apply isProcessed_true. left. cbn. by apply elem_of_union_r, elem_of_singleton.
Qed.

(** Once resolved, always resolved: no marking call unresolves an id. *)
Lemma isProcessed_apply_mark c m i :
  isProcessed c i = true -> isProcessed (apply_mark c m) i = true.
Proof.
  rewrite !isProcessed_true. intros [Hi|Hi]; destruct m as [env j|env j]; cbn.
  - left. by apply elem_of_union_l.
  - left. by apply elem_of_union_l.
  - destruct (decide (Some (parseInt i) = Some (parseInt j))) as [->|Hne].
    + left. by apply elem_of_union_r, elem_of_singleton.
    + right. apply elem_of_difference. by rewrite elem_of_singleton.
  - right. by apply elem_of_union_l.
Qed.

Lemma isProcessed_after_marks ms c i :
  isProcessed c i = true -> isProcessed (after_marks c ms) i = true.
Proof.
  revert c. induction ms as [|m ms IH]; intros c Hi; [exact Hi|].
  cbn. apply IH, isProcessed_apply_mark, Hi.
Qed.

Lemma failed_subseteq_apply_mark c m :
  failedIds c ⊆ processedIds c ->
  failedIds (apply_mark c m) ⊆ processedIds (apply_mark c m).
Proof.
  intros Hc. destruct m as [env j|env j]; cbn; intros x.
  - intros [Hx _]%elem_of_difference. by apply elem_of_union_l, Hc.
  - intros [Hx|Hx]%elem_of_union.
    + by apply elem_of_union_l, Hc.
    + by apply elem_of_union_r.
Qed.

Lemma failed_subseteq_after_marks ms c :
  failedIds c ⊆ processedIds c ->
  failedIds (after_marks c ms) ⊆ processedIds (after_marks c ms).
Proof.
  revert c. induction ms as [|m ms IH]; intros c Hc; [exact Hc|].
  cbn. apply IH, failed_subseteq_apply_mark, Hc.
Qed.

(** Reading back what [save] wrote: a finite number is in a reloaded set
    exactly when it was in the saved one. *)
Lemma elem_of_reloaded (s : gset (option number)) z :
  Some (Num z) ∈ (list_to_set (toJSON <$> elements s) : gset (option number))
  <-> Some (Num z) ∈ s.
Proof.
  rewrite elem_of_list_to_set, list_elem_of_fmap. split.
  - intros (x & Hx & Hin). apply elem_of_elements in Hin.
    destruct x as [[]|]; cbn in Hx; try discriminate. congruence.
  - intros Hin. exists (Some (Num z)). split; [reflexivity|].
    apply elem_of_elements, Hin.
Qed.

(** [null] is in a reloaded set exactly when the saved one held a value
    that JSON cannot write. *)
Lemma reloaded_not_finite (s : gset (option number)) n :
  (forall z, n <> Num z) ->
  Some n ∉ (list_to_set (toJSON <$> elements s) : gset (option number)).
Proof.
  intros Hn. rewrite elem_of_list_to_set, list_elem_of_fmap.
  intros (x & Hx & _). destruct x as [[]|]; cbn in Hx; try discriminate.
  injection Hx as ->. eapply Hn; reflexivity.
Qed.

(** C10. [markFailed] puts the id into both sets and [markProcessed] takes
    it out of the failed set; so, from an empty cache and after any sequence
    of marking calls, the failed set is included in the processed set, an
    id is resolved right after either call on it, and [getProcessedCount]
    counts the failed records too: it is never below [getFailedCount], and
    it is 1 after a single failure and no post at all. *)
Theorem failed_ids_are_counted_as_processed (ms : list mark) :
  let c := after_marks (new NoFile) ms in
  (forall env i,
     Some (parseInt i) ∈ failedIds (markFailed env i c)
     /\ Some (parseInt i) ∈ processedIds (markFailed env i c)
     /\ (Some (parseInt i) ∉ failedIds (markProcessed env i c))
     /\ isProcessed (markFailed env i c) i = true
     /\ isProcessed (markProcessed env i c) i = true)
  /\ failedIds c ⊆ processedIds c
  /\ (getFailedCount c <= getProcessedCount c)%nat
  /\ (forall env i, getProcessedCount (markFailed env i (new NoFile)) = 1%nat).
Proof.
  intros c. split; [|split; [|split]].
  - intros env i. split; [|split; [|split; [|split]]].
    + cbn. by apply elem_of_union_r, elem_of_singleton.
    + cbn. by apply elem_of_union_r, elem_of_singleton.
    + cbn. rewrite elem_of_difference, elem_of_singleton. tauto.
    + apply isProcessed_markFailed.
    + apply isProcessed_markProcessed.
  - by apply failed_subseteq_after_marks.
  - unfold getFailedCount, getProcessedCount.
    by apply subseteq_size, failed_subseteq_after_marks.
  - intros env i. unfold getProcessedCount. cbn.
    rewrite (left_id_L ∅ (∪)). apply size_singleton.
Qed.

(** C9, as amended. The state reached from an empty cache by marking calls,
    once saved, is read back by a fresh instance with the same [isProcessed]
    and [isFailed] answers for every id that [parseInt] reads as a finite
    number. *)
Theorem reload_preserves_numeric_ids
    (ms : list mark) (env : save_env) (i : jsstring) (z : Z) :
  outcome env = Written ->
  parseInt i = Num z ->
  let c := save env (after_marks (new NoFile) ms) in
  isProcessed (new (cacheFile c)) i = isProcessed c i
  /\ isFailed (new (cacheFile c)) i = isFailed c i.
Proof.
  intros Hw Hi c. subst c. unfold new, load, save. cbn. rewrite Hw. cbn.
  unfold isProcessed, isFailed. cbn. rewrite Hi.
  split; [f_equal|]; apply bool_decide_ext, elem_of_reloaded.
Qed.

(** An id that [parseInt] does not read as a finite number is unresolved
    after every reload. *)
Lemma reload_forgets_non_finite_ids (c : t) (env : save_env) (i : jsstring) :
  outcome env = Written ->
  (forall z, parseInt i <> Num z) ->
  isProcessed (new (cacheFile (save env c))) i = false.
Proof.
  intros Hw Hi. unfold new, load, save. cbn. rewrite Hw. cbn.
  unfold isProcessed. cbn. apply orb_false_iff.
  split; apply bool_decide_eq_false, reloaded_not_finite, Hi.
Qed.

End MessageCacheFacts.

(** C9 on the decimal [parseInt]: two ids marked, saved and read back. *)
Lemma reload_preserves_numeric_ids_witness :
  let ms := [MessageCache.MarkProcessed Scripted.written (lit "41");
             MessageCache.MarkFailed Scripted.written (lit "42")] in
  let c := MessageCache.save Scripted.written
             (@MessageCache.after_marks example_host
                (MessageCache.new MessageCache.NoFile) ms) in
  @MessageCache.isProcessed example_host
    (MessageCache.new (MessageCache.cacheFile c)) (lit "42")
  = @MessageCache.isProcessed example_host c (lit "42")
  /\ @MessageCache.isFailed example_host
       (MessageCache.new (MessageCache.cacheFile c)) (lit "42")
     = @MessageCache.isFailed example_host c (lit "42").
Proof.
  intros ms c.
  apply (@reload_preserves_numeric_ids example_host ms Scripted.written
           (lit "42") 42); reflexivity.
Defined.

(** C9 as stated fails: an id that is not a number is resolved before the
    reload and unresolved after it. [parseInt] gives NaN, the set holds NaN,
    [JSON.stringify] writes [null], and the reloaded set holds [null]. *)
Lemma reload_forgets_non_numeric_id :
  let c := @MessageCache.markProcessed example_host Scripted.written
             (lit "abc") (MessageCache.new MessageCache.NoFile) in
  @MessageCache.isProcessed example_host c (lit "abc") = true
  /\ @MessageCache.isProcessed example_host
       (MessageCache.new (MessageCache.cacheFile c)) (lit "abc") = false.
Proof. vm_compute. split; reflexivity. Qed.

(** ** Message normalisation *)

Section MessageProcessorFacts.
Context `{Host} (config : Config.t).
Import MessageProcessor.

Lemma extractMediaPaths_step_fst acc a :
  fst (extractMediaPaths_step acc a)
  = fst acc ++ match imagePath a with Some p => [p] | None => [] end.
Proof.
  destruct acc as [paths out].
  unfold extractMediaPaths_step, imagePath, isSupportedImage.
  cbv beta iota zeta.
  destruct (truthy_opt (IMessageData.mime_type a)
            && includes supportedImageTypes
                 (toLowerCase (default [] (IMessageData.mime_type a)))).
  - destruct (or_else _ _) as [path|]; [destruct (truthy path)|];
      cbn [fst]; rewrite ?app_nil_r; reflexivity.
  - destruct (truthy_opt _); cbn [fst]; rewrite ?app_nil_r; reflexivity.
Qed.

Lemma extractMediaPaths_fold atts acc :
  fst (fold_left extractMediaPaths_step atts acc)
  = fst acc ++ omap imagePath atts.
Proof.
  revert acc. induction atts as [|a atts IH]; intros acc; cbn.
  - by rewrite app_nil_r.
  - rewrite IH, extractMediaPaths_step_fst.
    destruct (imagePath a); cbn; [by rewrite <- app_assoc|by rewrite app_nil_r].
Qed.

(** The loop of [extractMediaPaths] collects, in source order, the resolved
    paths of the supported images. *)
Lemma extractMediaPaths_spec message :
  fst (extractMediaPaths message)
  = omap imagePath (default [] (IMessageData.attachments message)).
Proof.
  unfold extractMediaPaths.
  destruct (IMessageData.attachments message) as [[|a atts]|]; try reflexivity.
  apply (extractMediaPaths_fold (a :: atts) ([], [])).
Qed.

Lemma processMessage_mediaPaths message :
  ProcessedMessage.mediaPaths (fst (processMessage config message))
  = take 4 (omap imagePath (default [] (IMessageData.attachments message))).
Proof.
  unfold processMessage. rewrite <- extractMediaPaths_spec.
  destruct (length_gt _ _); destruct (extractMediaPaths message) as [paths out];
    cbv beta iota zeta; destruct (4 <? length paths)%nat eqn:E;
    cbn [fst ProcessedMessage.mediaPaths]; try reflexivity;
    apply Nat.ltb_ge in E; by rewrite take_ge.
Qed.

Lemma processMessage_warning message :
  let found := omap imagePath (default [] (IMessageData.attachments message)) in
  (4 < length found)%nat ->
  WarningTooManyImages (length found) ∈ snd (processMessage config message).
Proof.
  intros found Hlen. subst found. revert Hlen.
  unfold processMessage. rewrite <- extractMediaPaths_spec.
  destruct (length_gt _ _); destruct (extractMediaPaths message) as [paths out];
    cbv beta iota zeta; cbn [fst]; intros Hlen; apply Nat.ltb_lt in Hlen;
    rewrite Hlen; cbn [snd]; rewrite !elem_of_app; right; right;
    apply list_elem_of_singleton; reflexivity.
Qed.

Lemma processMessage_text message :
  ProcessedMessage.text (fst (processMessage config message))
  = if length_gt (Z.of_nat (length (trimmedText message)))
         (Config.tweet_maxLength config)
    then substring0 (trimmedText message)
           (number_pred (Config.tweet_maxLength config)) ++ truncationMarker
    else trimmedText message.
Proof.
  unfold processMessage, trimmedText.
  destruct (length_gt _ _); destruct (extractMediaPaths message);
    cbv beta iota zeta; destruct (4 <? _)%nat; reflexivity.
Qed.

Lemma processMessage_wasTruncated message :
  ProcessedMessage.wasTruncated (fst (processMessage config message))
  = length_gt (Z.of_nat (length (trimmedText message)))
      (Config.tweet_maxLength config).
Proof.
  unfold processMessage, trimmedText.
  destruct (length_gt _ _); destruct (extractMediaPaths message);
    cbv beta iota zeta; destruct (4 <? _)%nat; reflexivity.
Qed.

(** The half of C5 that holds: a text within the limit is published as
    trimmed, and is not flagged. *)
Lemma short_text_is_kept message :
  length_le (Z.of_nat (length (trimmedText message)))
    (Config.tweet_maxLength config) = true ->
  ProcessedMessage.text (fst (processMessage config message))
    = trimmedText message
  /\ ProcessedMessage.wasTruncated (fst (processMessage config message)) = false.
Proof.
  intros Hle. rewrite processMessage_text, processMessage_wasTruncated.
  destruct (Config.tweet_maxLength config); cbn in *; try discriminate;
    try (split; reflexivity).
  apply Z.leb_le in Hle. destruct (Z.ltb_spec z (Z.of_nat (length (trimmedText message))));
    [lia|split; reflexivity].
Qed.

(** C5, what the code does. A text longer than a limit [m >= 1] is cut to
    its first [m - 1] code units and the three-character marker is appended:
    the published text is flagged as truncated, ends with the marker, and is
    [m + 2] code units long, two more than the limit. *)
Theorem truncated_text_is_two_over_the_limit
    (message : IMessageData.t) (m : Z) :
  Config.tweet_maxLength config = Num m ->
  1 <= m ->
  m < Z.of_nat (length (trimmedText message)) ->
  let p := fst (processMessage config message) in
  ProcessedMessage.wasTruncated p = true
  /\ ProcessedMessage.text p
     = take (Z.to_nat (m - 1)) (trimmedText message) ++ truncationMarker
  /\ Z.of_nat (length (ProcessedMessage.text p)) = m + 2.
Proof.
  intros Hmax Hm Hlen p. subst p.
  rewrite processMessage_text, processMessage_wasTruncated, Hmax. cbn.
  apply Z.ltb_lt in Hlen as Hlt. rewrite Hlt.
  unfold substring0. cbn.
  rewrite (Nat.min_l (Z.to_nat (m - 1))) by lia.
  split; [reflexivity|split; [reflexivity|]].
  rewrite length_app, length_take. cbn. lia.
Qed.

End MessageProcessorFacts.

(** C5 at [maxLength = 10] and a text of 15 characters: 12 code units are
    published. *)
Lemma truncated_text_is_two_over_the_limit_witness :
  let message := Scripted.message "7" "abcdefghijklmno" [] in
  let p := fst (@MessageProcessor.processMessage example_host
                  Scripted.config message) in
  ProcessedMessage.wasTruncated p = true
  /\ ProcessedMessage.text p
     = take (Z.to_nat (10 - 1)) (trimmedText message)
       ++ MessageProcessor.truncationMarker
  /\ Z.of_nat (length (ProcessedMessage.text p)) = 10 + 2.
Proof.
  intros message p.
  apply (@truncated_text_is_two_over_the_limit example_host Scripted.config
           message 10); [reflexivity|lia|vm_compute; reflexivity].
Defined.

(** ** The poll loop *)

Section ViewFacts.

Lemma uploaded_ids_app l1 l2 :
  uploaded_ids (l1 ++ l2) = uploaded_ids l1 ++ uploaded_ids l2.
Proof. apply omap_app. Qed.

Lemma converted_paths_app l1 l2 :
  converted_paths (l1 ++ l2) = converted_paths l1 ++ converted_paths l2.
Proof. apply omap_app. Qed.

Lemma upload_calls_app l1 l2 :
  upload_calls (l1 ++ l2) = upload_calls l1 ++ upload_calls l2.
Proof. apply omap_app. Qed.

Lemma failed_attachments_app l1 l2 :
  failed_attachments (l1 ++ l2)
  = failed_attachments l1 ++ failed_attachments l2.
Proof. apply omap_app. Qed.

Lemma post_calls_app l1 l2 :
  post_calls (l1 ++ l2) = post_calls l1 ++ post_calls l2.
Proof. apply omap_app. Qed.

Lemma posted_records_app l1 l2 :
  posted_records (l1 ++ l2) = posted_records l1 ++ posted_records l2.
Proof. apply omap_app. Qed.

Lemma resolutions_app l1 l2 :
  resolutions (l1 ++ l2) = resolutions l1 ++ resolutions l2.
Proof. apply omap_app. Qed.

Lemma sleeps_app l1 l2 : sleeps (l1 ++ l2) = sleeps l1 ++ sleeps l2.
Proof. apply omap_app. Qed.

Lemma guard_events_app l1 l2 :
  guard_events (l1 ++ l2) = guard_events l1 ++ guard_events l2.
Proof. apply omap_app. Qed.

(** The console lines of the message processor are none of the above. *)
Lemma views_of_console (lines : list console) :
  uploaded_ids (Console <$> lines) = []
  /\ converted_paths (Console <$> lines) = []
  /\ upload_calls (Console <$> lines) = []
  /\ failed_attachments (Console <$> lines) = []
  /\ post_calls (Console <$> lines) = []
  /\ posted_records (Console <$> lines) = []
  /\ resolutions (Console <$> lines) = []
  /\ sleeps (Console <$> lines) = []
  /\ guard_events (Console <$> lines) = [].
Proof.
  induction lines; cbn; [|destruct IHlines as (?&?&?&?&?&?&?&?&?)]; auto 10.
Qed.

End ViewFacts.

Create Rewrite HintDb views.

#[local] Hint Rewrite uploaded_ids_app converted_paths_app upload_calls_app
  failed_attachments_app post_calls_app posted_records_app resolutions_app
  sleeps_app
  guard_events_app : views.

(** Name the parts of a run whose properties are already in the context. *)
Ltac name_run m o s l :=
  destruct m as [o s l]; cbn [out final log] in *.

Section ExecFacts.
Context {World : Type}.

Lemma bind_Ok {A B} (m : M World A) (f : A -> M World B) st a :
  out (m st) = Ok a ->
  bind m f st
  = Run (out (f a (final (m st)))) (final (f a (final (m st))))
        (log (m st) ++ log (f a (final (m st)))).
Proof. intros Hm. unfold bind. rewrite Hm. reflexivity. Qed.

Lemma try_catch_Ok {A} (m : M World A) h st a :
  out (m st) = Ok a -> try_catch m h st = m st.
Proof. intros Hm. unfold try_catch. rewrite Hm. reflexivity. Qed.

Lemma prepend_nil {A} (r : run World A) : prepend [] r = r.
Proof. destruct r. reflexivity. Qed.

Lemma prepend_prepend {A} l1 l2 (r : run World A) :
  prepend l1 (prepend l2 r) = prepend (l1 ++ l2) r.
Proof. unfold prepend. cbn. by rewrite app_assoc. Qed.

Lemma bind_prepend {A B} (m : M World A) (f : A -> M World B) st a :
  out (m st) = Ok a ->
  bind m f st = prepend (log (m st)) (f a (final (m st))).
Proof. intros Hm. unfold bind. rewrite Hm. reflexivity. Qed.

(** A [try] block whose first statement returns: the rest of the block runs
    under the same handler. *)
Lemma try_catch_bind_Ok {A B} (m : M World A) (f : A -> M World B) h st a :
  out (m st) = Ok a ->
  try_catch (bind m f) h st
  = prepend (log (m st)) (try_catch (f a) h (final (m st))).
Proof.
  intros Hm. unfold try_catch, bind, prepend. rewrite Hm. cbn.
  destruct (f a (final (m st))) as [[b|e|c] st' l]; cbn; try reflexivity.
  by rewrite app_assoc.
Qed.

(** A [try] block whose first statement throws: the handler runs next. *)
Lemma try_catch_bind_Throw {A B} (m : M World A) (f : A -> M World B) h st e :
  out (m st) = Throw e ->
  try_catch (bind m f) h st = prepend (log (m st)) (h e (final (m st))).
Proof.
  intros Hm. unfold try_catch, bind, prepend. rewrite Hm. reflexivity.
Qed.

Lemma call_inl {A} (op : World -> World * (error + A)) ev st w e :
  op (world st) = (w, inl e) ->
  call op ev st = Run (Throw e) (set_world w st) (ev (inl e)).
Proof. intros Hop. unfold call. rewrite Hop. reflexivity. Qed.

Lemma call_inr {A} (op : World -> World * (error + A)) ev st w a :
  op (world st) = (w, inr a) ->
  call op ev st = Run (Ok a) (set_world w st) (ev (inr a)).
Proof. intros Hop. unfold call. rewrite Hop. reflexivity. Qed.

Lemma console_loop (lines : list console) (st : state World) :
  for_of lines (fun _ line => emit (Console line)) tt st
  = Run (Ok tt) st (Console <$> lines).
Proof.
  induction lines as [|line lines IH]; [reflexivity|].
  cbn. unfold bind. cbn. rewrite IH. reflexivity.
Qed.

End ExecFacts.

Section KeepsFacts.
Context `{Host} {World : Type}.

Lemma keeps_refl (st : state World) : keeps st st.
Proof. unfold keeps. repeat split; auto. Qed.

Lemma keeps_trans (st1 st2 st3 : state World) :
  keeps st1 st2 -> keeps st2 st3 -> keeps st1 st3.
Proof.
  unfold keeps. intros (Hc & -> & -> & -> & He) (Hc' & -> & -> & -> & He').
  repeat split; auto. destruct He as [<-|He], He' as [He'|He']; auto.
  rewrite He', He. auto.
Qed.

Lemma same_but_world_keeps (st st' : state World) :
  same_but_world st st' -> keeps st st'.
Proof.
  unfold same_but_world, keeps. intros (-> & -> & -> & -> & ->).
  repeat split; auto.
Qed.

Lemma same_but_world_refl (st : state World) : same_but_world st st.
Proof. unfold same_but_world. repeat split; auto. Qed.

Lemma same_but_world_trans (st1 st2 st3 : state World) :
  same_but_world st1 st2 -> same_but_world st2 st3 -> same_but_world st1 st3.
Proof.
  unfold same_but_world.
  intros (-> & -> & -> & -> & ->) (-> & -> & -> & -> & ->).
  repeat split; auto.
Qed.

Lemma same_but_world_set_world w (st : state World) :
  same_but_world st (set_world w st).
Proof. unfold same_but_world. repeat split; auto. Qed.

End KeepsFacts.

Section DaemonFacts.
Context `{Host} {World : Type} `{External World} (config : Config.t).
Import Daemon.

(** *** The ledger calls of the monitor *)

Lemma markAsProcessed_run i (st : state World) :
  let r := IMessageMonitor.markAsProcessed i st in
  out r = Ok tt /\ log r = [MarkAsProcessed i]
  /\ MessageCache.isProcessed (cache (final r)) i = true
  /\ keeps st (final r)
  /\ consecutiveErrors (final r) = consecutiveErrors st.
Proof.
  unfold IMessageMonitor.markAsProcessed.
  destruct (save_environment (world st)) as [w env]. cbn.
  repeat split; auto using isProcessed_markProcessed.
  intros j. apply (isProcessed_apply_mark _ (MessageCache.MarkProcessed env i)).
Qed.

Lemma markAsFailed_run i (st : state World) :
  let r := IMessageMonitor.markAsFailed i st in
  out r = Ok tt /\ log r = [MarkAsFailed i]
  /\ MessageCache.isProcessed (cache (final r)) i = true
  /\ keeps st (final r)
  /\ consecutiveErrors (final r) = consecutiveErrors st.
Proof.
  unfold IMessageMonitor.markAsFailed.
  destruct (save_environment (world st)) as [w env]. cbn.
  repeat split; auto using isProcessed_markFailed.
  intros j. apply (isProcessed_apply_mark _ (MessageCache.MarkFailed env i)).
Qed.

(** *** The upload loop *)

(** One attachment: whatever the converter and the API do, the step
    returns, with the media id appended exactly when both succeeded. *)
Lemma upload_step_run record mediaIds mediaPath (st : state World) :
  let r := upload_step record mediaIds mediaPath st in
  same_but_world st (final r)
  /\ out r = Ok (mediaIds ++ uploaded_ids (log r))
  /\ converted_paths (log r) = [mediaPath]
  /\ Forall (fun ev => record_of ev = Some record) (log r)
  /\ post_calls (log r) = [] /\ resolutions (log r) = []
  /\ sleeps (log r) = [] /\ guard_events (log r) = []
  /\ (length (uploaded_ids (log r)) + length (failed_attachments (log r))
      = 1)%nat
  /\ (length (upload_calls (log r)) <= 1)%nat.
Proof.
  unfold upload_step, try_catch, bind, call, TwitterClient.uploadMedia, emit,
    ret. cbn.
  destruct (imageConverter_processImage mediaPath (world st)) as [w1 [e|up]];
    cbn.
  - rewrite app_nil_r.
    repeat split; auto using same_but_world_set_world; repeat constructor.
  - destruct (twitterClient_uploadMedia up w1) as [w2 [e|mediaId]]; cbn.
    + rewrite app_nil_r. repeat split; auto; repeat constructor.
    + repeat split; auto; repeat constructor.
Qed.

Lemma upload_loop_run record mediaPaths mediaIds (st : state World) :
  let r := for_of mediaPaths (upload_step record) mediaIds st in
  same_but_world st (final r)
  /\ out r = Ok (mediaIds ++ uploaded_ids (log r))
  /\ converted_paths (log r) = mediaPaths
  /\ Forall (fun ev => record_of ev = Some record) (log r)
  /\ post_calls (log r) = [] /\ resolutions (log r) = []
  /\ sleeps (log r) = [] /\ guard_events (log r) = []
  /\ (length (uploaded_ids (log r)) + length (failed_attachments (log r))
      = length mediaPaths)%nat
  /\ (length (upload_calls (log r)) <= length mediaPaths)%nat.
Proof.
  revert mediaIds st.
  induction mediaPaths as [|mediaPath mediaPaths IH]; intros mediaIds st.
  - cbn. rewrite app_nil_r.
    repeat split; auto using same_but_world_refl.
  - destruct (upload_step_run record mediaIds mediaPath st)
      as (Hw & Ho & Hc & HF & Hp & Hr & Hs & Hg & Hlen & Hup).
    cbn [for_of]. rewrite (bind_Ok _ _ _ _ Ho).
    name_run (upload_step record mediaIds mediaPath st) o1 st1 l1.
    destruct (IH (mediaIds ++ uploaded_ids l1) st1)
      as (Hw' & Ho' & Hc' & HF' & Hp' & Hr' & Hs' & Hg' & Hlen' & Hup').
    name_run (for_of mediaPaths (upload_step record)
                (mediaIds ++ uploaded_ids l1) st1) o2 st2 l2.
    autorewrite with views. rewrite !length_app.
    rewrite Hc, Hc', Hp, Hp', Hr, Hr', Hs, Hs', Hg, Hg'.
    split; [eauto using same_but_world_trans|].
    split; [rewrite Ho', <- app_assoc; reflexivity|].
    split; [reflexivity|].
    split; [apply Forall_app; auto|].
    repeat split; cbn [length]; lia.
Qed.

(** *** One record *)

Lemma validateMessage_fst p :
  fst (MessageProcessor.validateMessage p)
  = truthy (ProcessedMessage.text p)
    || (0 <? length (ProcessedMessage.mediaPaths p))%nat.
Proof.
  unfold MessageProcessor.validateMessage.
  destruct (truthy (ProcessedMessage.text p));
    destruct (ProcessedMessage.mediaPaths p); reflexivity.
Qed.

Lemma process_record_run rawMessage (st : state World) :
  let record := IMessageData.id rawMessage in
  let p := fst (MessageProcessor.processMessage config rawMessage) in
  let lines :=
    Console <$> (snd (MessageProcessor.processMessage config rawMessage)
                 ++ snd (MessageProcessor.validateMessage p)) in
  let text := ProcessedMessage.text p in
  let mediaPaths := ProcessedMessage.mediaPaths p in
  let u := for_of mediaPaths (upload_step record) [] st in
  let mediaIds := uploaded_ids (log u) in
  let mediaArg := if (0 <? length mediaIds)%nat then Some mediaIds else None in
  let r := process_record config rawMessage st in
  out r = Ok tt
  /\ keeps st (final r)
  /\ MessageCache.isProcessed (cache (final r)) record = true
  /\ ((truthy text = false /\ mediaIds = []
       /\ log r = lines ++ log u
                  ++ (if (0 <? length mediaPaths)%nat
                      then [NoMediaNoText record] else [])
                  ++ [MarkAsProcessed record])
      \/ ((truthy text = true \/ mediaIds <> [])
          /\ exists tweetId,
               log r = lines ++ log u
                       ++ [PostTweet record text mediaArg (inr tweetId);
                           MarkAsProcessed record])
      \/ ((truthy text = true \/ mediaIds <> [])
          /\ exists e,
               log r = lines ++ log u
                       ++ [PostTweet record text mediaArg (inl e);
                           ErrorProcessingMessage record;
                           MarkAsFailed record])).
Proof.
  intros record p lines text mediaPaths u mediaIds mediaArg r.
  subst r. unfold process_record.
  fold record.
  pose proof (validateMessage_fst p) as Hvalid.
  subst lines.
  destruct (MessageProcessor.processMessage config rawMessage) as [p' out1].
  cbn [fst snd] in *. subst p.
  destruct (MessageProcessor.validateMessage p') as [valid out2].
  cbn [fst snd] in *.
  fold text mediaPaths in Hvalid |- *.
  assert (Hu : (if (0 <? length mediaPaths)%nat
                then for_of mediaPaths (upload_step record) []
                else ret []) st = u).
  { subst u. destruct mediaPaths; reflexivity. }
  destruct (upload_loop_run record mediaPaths [] st)
    as (Hw & Ho & Hc & HF & Hp & Hr & Hs & Hg & Hlen & Hup).
  fold u in Hw, Ho, Hc, HF, Hp, Hr, Hs, Hg, Hlen, Hup.
  fold mediaIds in Ho, Hlen. cbn [app] in Ho.
  rewrite (try_catch_bind_Ok _ _ _ st tt) by (by rewrite console_loop).
  rewrite console_loop. cbn [final log].
  destruct valid; cbn [negb].
  - rewrite (try_catch_bind_Ok _ _ _ st mediaIds) by (by rewrite Hu).
    rewrite Hu, prepend_prepend.
    destruct ((0 <? length mediaPaths)%nat && (length mediaIds =? 0)%nat
              && negb (truthy text)) eqn:Hskip.
    + apply andb_true_iff in Hskip as [Hskip Htext].
      apply andb_true_iff in Hskip as [Hmedia Hids].
      apply negb_true_iff in Htext. apply Nat.eqb_eq, nil_length_inv in Hids.
      rewrite (try_catch_bind_Ok _ _ _ (final u) tt) by reflexivity.
      destruct (markAsProcessed_run record (final u))
        as (Ho1 & Hl1 & Hp1 & Hk1 & He1).
      rewrite (try_catch_Ok _ _ _ tt Ho1).
      unfold prepend. cbn [out final log emit]. rewrite Hl1, Hmedia.
      split; [exact Ho1|].
      split; [eapply keeps_trans; [apply same_but_world_keeps, Hw|exact Hk1]|].
      split; [exact Hp1|]. left.
      split; [exact Htext|]. split; [exact Hids|].
      by rewrite <- !app_assoc.
    + assert (Hpost : truthy text = true \/ mediaIds <> []).
      { destruct (truthy text); [by left|right].
        rewrite orb_false_l in Hvalid. rewrite <- Hvalid in Hskip.
        cbn [negb] in Hskip. rewrite andb_true_l, andb_true_r in Hskip.
        apply Nat.eqb_neq in Hskip. intros E. by rewrite E in Hskip. }
      fold mediaArg.
      destruct (TwitterClient.postTweet text mediaArg (world (final u)))
        as [w [e|tweetId]] eqn:Hcall.
      * rewrite (try_catch_bind_Throw _ _ _ (final u) e)
          by (by rewrite (call_inl _ _ _ _ _ Hcall)).
        rewrite (call_inl _ _ _ _ _ Hcall). cbn [out final log].
        rewrite (bind_prepend _ _ _ tt) by reflexivity.
        destruct (markAsFailed_run record (set_world w (final u)))
          as (Ho1 & Hl1 & Hp1 & Hk1 & He1).
        unfold prepend. cbn [out final log emit]. rewrite Hl1.
        split; [exact Ho1|].
        split; [eapply keeps_trans; [apply same_but_world_keeps, Hw|exact Hk1]|].
        split; [exact Hp1|]. right. right.
        split; [exact Hpost|]. exists e. by rewrite <- !app_assoc.
      * rewrite (try_catch_bind_Ok _ _ _ (final u) tweetId)
          by (by rewrite (call_inr _ _ _ _ _ Hcall)).
        rewrite (call_inr _ _ _ _ _ Hcall). cbn [out final log].
        destruct (markAsProcessed_run record (set_world w (final u)))
          as (Ho1 & Hl1 & Hp1 & Hk1 & He1).
        rewrite (try_catch_bind_Ok _ _ _ _ tt Ho1).
        rewrite (try_catch_Ok _ _ _ tt) by reflexivity.
        unfold prepend, modify. cbn [out final log]. rewrite Hl1.
        split; [reflexivity|].
        split.
        { eapply keeps_trans; [apply same_but_world_keeps, Hw|].
          eapply keeps_trans; [exact Hk1|].
          unfold keeps. cbn. repeat split; auto. }
        split; [exact Hp1|]. right. left.
        split; [exact Hpost|]. exists tweetId.
        by rewrite app_nil_r, <- !app_assoc.
  - symmetry in Hvalid. apply orb_false_iff in Hvalid as [Htext Hmedia].
    destruct (markAsProcessed_run record st) as (Ho1 & Hl1 & Hp1 & Hk1 & He1).
    rewrite (try_catch_Ok _ _ _ tt Ho1).
    unfold prepend. cbn [out final log]. rewrite Hl1, Hmedia.
    assert (Hnil : mediaPaths = []).
    { destruct mediaPaths; [reflexivity|discriminate]. }
    assert (Hlog : log u = []).
    { subst u. by rewrite Hnil. }
    split; [exact Ho1|]. split; [exact Hk1|]. split; [exact Hp1|]. left.
    split; [exact Htext|]. split; [unfold mediaIds; by rewrite Hlog|].
    by rewrite Hlog.
Qed.

(** What one record leaves in the log: events of that record only, exactly
    one resolving call, at most one post, one conversion per media path,
    and nothing of the loop's own. *)
Lemma process_record_views rawMessage (st : state World) :
  let record := IMessageData.id rawMessage in
  let p := fst (MessageProcessor.processMessage config rawMessage) in
  let r := process_record config rawMessage st in
  Forall (fun ev => forall i, record_of ev = Some i -> i = record) (log r)
  /\ resolutions (log r) = [record]
  /\ sublist (posted_records (log r)) [record]
  /\ converted_paths (log r) = ProcessedMessage.mediaPaths p
  /\ (length (upload_calls (log r))
      <= length (ProcessedMessage.mediaPaths p))%nat
  /\ sleeps (log r) = [] /\ guard_events (log r) = [].
Proof.
  intros record p r.
  destruct (process_record_run rawMessage st) as (_ & _ & _ & Hcases).
  destruct (upload_loop_run record (ProcessedMessage.mediaPaths p) [] st)
    as (_ & _ & Hc & HF & Hp & Hr & Hs & Hg & _ & Hup).
  fold record p r in Hcases.
  set (u := for_of (ProcessedMessage.mediaPaths p) (upload_step record) [] st)
    in *.
  set (lines := Console <$> _) in Hcases.
  destruct (views_of_console
              (snd (MessageProcessor.processMessage config rawMessage)
               ++ snd (MessageProcessor.validateMessage p)))
    as (_ & Lc & Lu & _ & _ & Lp & Lr & Ls & Lg).
  fold lines in Lc, Lu, Lp, Lr, Ls, Lg.
  assert (HFl : Forall (fun ev => forall i, record_of ev = Some i -> i = record)
                  lines).
  { subst lines. apply Forall_fmap, Forall_true. intros line i. discriminate. }
  assert (HFu : Forall (fun ev => forall i, record_of ev = Some i -> i = record)
                  (log u)).
  { eapply Forall_impl; [exact HF|]. cbn. intros ev E i Ei. congruence. }
  assert (Hpu : posted_records (log u) = []).
  { clear -HF Hp. induction (log u) as [|ev l IH]; [reflexivity|].
    inversion HF; subst. destruct ev; cbn in *; try discriminate; auto. }
  destruct Hcases as [(_ & _ & ->)|[(_ & t & ->)|(_ & e & ->)]];
    autorewrite with views; rewrite Lc, Lu, Lp, Lr, Ls, Lg, Hc, Hr, Hs, Hg, Hpu;
    rewrite ?length_app; cbn [app length].
  - destruct (0 <? _)%nat; cbn;
      (split; [repeat (apply Forall_app; split); auto;
               repeat constructor; cbn; congruence|]);
      (split; [reflexivity|]); (split; [apply sublist_nil_l|]);
      (split; [by rewrite app_nil_r|]); (split; [lia|]); split; reflexivity.
  - cbn. split; [repeat (apply Forall_app; split); auto;
                 repeat constructor; cbn; congruence|].
    split; [reflexivity|]. split; [reflexivity|].
    split; [by rewrite app_nil_r|]. split; [lia|]. split; reflexivity.
  - cbn. split; [repeat (apply Forall_app; split); auto;
                 repeat constructor; cbn; congruence|].
    split; [reflexivity|]. split; [reflexivity|].
    split; [by rewrite app_nil_r|]. split; [lia|]. split; reflexivity.
Qed.

(** *** The fetch *)

Lemma getMessageAttachments_run rowid (st : state World) :
  let r := IMessageMonitor.getMessageAttachments rowid st in
  same_but_world st (final r) /\ log r = [] /\ exists atts, out r = Ok atts.
Proof.
  unfold IMessageMonitor.getMessageAttachments, bind, get. cbn.
  destruct (db st); cbn.
  - unfold try_catch, bind, call. cbn.
    destruct (db_attachments rowid (world st)) as [w [e|rows]]; cbn;
      eauto using same_but_world_set_world.
  - eauto using same_but_world_refl.
Qed.

(** The id of a fetched row, as the monitor computes it. *)
Lemma getNewMessages_step_run newMessages msg (st : state World) :
  let msgId := Number_toString (MessageRow.ROWID msg) in
  let r := IMessageMonitor.getNewMessages_step newMessages msg st in
  same_but_world st (final r) /\ log r = []
  /\ exists new,
       out r = Ok (newMessages ++ new)
       /\ IMessageData.id <$> new
          = (if MessageCache.isProcessed (cache st) msgId then [] else [msgId]).
Proof.
  intros msgId r. subst r. unfold IMessageMonitor.getNewMessages_step.
  fold msgId. unfold IMessageMonitor.isProcessed.
  rewrite (bind_prepend _ _ st (MessageCache.isProcessed (cache st) msgId))
    by reflexivity.
  cbn [bind get ret out final log]. rewrite prepend_nil.
  destruct (MessageCache.isProcessed (cache st) msgId); cbn [negb].
  - cbn. split; [apply same_but_world_refl|]. split; [reflexivity|].
    exists []. by rewrite app_nil_r.
  - destruct (getMessageAttachments_run (MessageRow.ROWID msg) st)
      as (Hw & Hl & atts & Ho).
    rewrite (bind_prepend _ _ st atts Ho), Hl, prepend_nil. cbn.
    split; [exact Hw|]. split; [reflexivity|]. eexists [_]. split; reflexivity.
Qed.

Lemma getNewMessages_loop_run rows newMessages (st : state World) :
  let r := for_of rows IMessageMonitor.getNewMessages_step newMessages st in
  same_but_world st (final r) /\ log r = []
  /\ exists new,
       out r = Ok (newMessages ++ new)
       /\ IMessageData.id <$> new
          = filter (fun i => MessageCache.isProcessed (cache st) i = false)
              ((fun msg => Number_toString (MessageRow.ROWID msg)) <$> rows).
Proof.
  revert newMessages st.
  induction rows as [|msg rows IH]; intros newMessages st.
  - cbn. split; [apply same_but_world_refl|]. split; [reflexivity|].
    exists []. by rewrite app_nil_r.
  - destruct (getNewMessages_step_run newMessages msg st)
      as (Hw & Hl & new1 & Ho & Hid).
    cbn [for_of]. rewrite (bind_prepend _ _ _ _ Ho), Hl, prepend_nil.
    destruct (IH (newMessages ++ new1)
                (final (IMessageMonitor.getNewMessages_step newMessages msg st)))
      as (Hw' & Hl' & new2 & Ho' & Hid').
    split; [eauto using same_but_world_trans|]. split; [exact Hl'|].
    exists (new1 ++ new2). split; [by rewrite Ho', app_assoc|].
    rewrite fmap_app, Hid, Hid'.
    destruct Hw as (-> & _). cbn [fmap list_fmap].
    rewrite filter_cons.
    destruct (MessageCache.isProcessed (cache st) _) eqn:E;
      destruct (decide _) as [D|D]; try reflexivity; congruence.
Qed.

(** The fetch never throws: an error of the query is caught inside it and
    an empty batch is returned. It logs nothing and changes no field of the
    process; what it returns is the fetched rows that are unresolved, in the
    order of the fetch. *)
Lemma getNewMessages_run (st : state World) :
  let r := IMessageMonitor.getNewMessages st in
  same_but_world st (final r) /\ log r = []
  /\ exists newMessages,
       out r = Ok newMessages
       /\ Forall (fun m => MessageCache.isProcessed (cache st)
                             (IMessageData.id m) = false) newMessages
       /\ (forall handle w e,
             db st = true -> targetHandleId st = Some handle ->
             db_messages handle (world st) = (w, inl e) ->
             newMessages = [])
       /\ (forall handle w rows,
             db st = true -> targetHandleId st = Some handle ->
             db_messages handle (world st) = (w, inr rows) ->
             IMessageData.id <$> newMessages
             = filter (fun i => MessageCache.isProcessed (cache st) i = false)
                 ((fun msg => Number_toString (MessageRow.ROWID msg)) <$> rows)).
Proof.
  intros r. subst r. unfold IMessageMonitor.getNewMessages.
  rewrite (bind_prepend _ _ st st) by reflexivity.
  cbn [get out final log]. rewrite prepend_nil.
  destruct (db st) eqn:Hdb; [destruct (targetHandleId st) as [handle|] eqn:Hh|].
  - destruct (db_messages handle (world st)) as [w [e|rows]] eqn:Hq.
    + rewrite (try_catch_bind_Throw _ _ _ _ e)
        by (by rewrite (call_inl _ _ _ _ _ Hq)).
      rewrite (call_inl _ _ _ _ _ Hq). cbn.
      split; [apply same_but_world_set_world|]. split; [reflexivity|].
      exists []. split; [reflexivity|]. split; [constructor|].
      split; [reflexivity|]. intros ? ? ? _ [= <-]. congruence.
    + rewrite (try_catch_bind_Ok _ _ _ _ rows)
        by (by rewrite (call_inr _ _ _ _ _ Hq)).
      rewrite (call_inr _ _ _ _ _ Hq). cbn [out final log].
      rewrite prepend_nil.
      destruct (getNewMessages_loop_run rows [] (set_world w st))
        as (Hw & Hl & new & Ho & Hid).
      rewrite (try_catch_Ok _ _ _ _ Ho).
      split; [eauto using same_but_world_trans, same_but_world_set_world|].
      split; [exact Hl|]. exists new. cbn [app] in Ho.
      split; [exact Ho|]. cbn [cache set_world] in Hid.
      split.
      * apply Forall_forall. intros m Hm.
        assert (Hin : IMessageData.id m ∈ IMessageData.id <$> new)
          by (by apply list_elem_of_fmap_2).
        rewrite Hid in Hin. by apply list_elem_of_filter in Hin as [? _].
      * split; [intros ? ? ? _ [= <-]; congruence|].
        intros ? ? ? _ [= <-]. rewrite Hq. by intros [= _ <-].
  - cbn. split; [apply same_but_world_refl|]. split; [reflexivity|].
    exists []. split; [reflexivity|]. split; [constructor|].
    split; [reflexivity|]. discriminate.
  - cbn. split; [apply same_but_world_refl|]. split; [reflexivity|].
    exists []. split; [reflexivity|]. split; [constructor|].
    split; [reflexivity|]. discriminate.
Qed.

(** *** A batch, a cycle, the loop *)

Lemma batch_run newMessages (st : state World) :
  let r := for_of newMessages (fun _ => process_record config) tt st in
  out r = Ok tt
  /\ keeps st (final r)
  /\ Forall (fun ev => forall i, record_of ev = Some i ->
                       i ∈ IMessageData.id <$> newMessages) (log r)
  /\ resolutions (log r) = IMessageData.id <$> newMessages
  /\ sublist (posted_records (log r)) (IMessageData.id <$> newMessages)
  /\ sleeps (log r) = [] /\ guard_events (log r) = [].
Proof.
  revert st. induction newMessages as [|m ms IH]; intros st.
  - cbn. repeat split; auto using keeps_refl.
  - destruct (process_record_run m st) as (Ho & Hk & _ & _).
    destruct (process_record_views m st) as (HF & Hr & Hp & _ & _ & Hs & Hg).
    cbn [for_of]. rewrite (bind_prepend _ _ _ _ Ho).
    name_run (process_record config m st) o1 st1 l1.
    destruct (IH st1) as (Ho' & Hk' & HF' & Hr' & Hp' & Hs' & Hg').
    name_run (for_of ms (fun _ => process_record config) tt st1) o2 st2 l2.
    unfold prepend. cbn [out final log fmap list_fmap].
    autorewrite with views. rewrite Hr, Hr', Hs, Hs', Hg, Hg'.
    split; [exact Ho'|]. split; [eauto using keeps_trans|].
    split.
    { apply Forall_app. split.
      - eapply Forall_impl; [exact HF|]. cbn. intros ev E i Ei.
        rewrite (E i Ei). apply list_elem_of_here.
      - eapply Forall_impl; [exact HF'|]. cbn. intros ev E i Ei.
        apply list_elem_of_further, E, Ei. }
    split; [reflexivity|].
    split; [|split; reflexivity].
    change (IMessageData.id m :: (IMessageData.id <$> ms))
      with ([IMessageData.id m] ++ (IMessageData.id <$> ms)).
    by apply sublist_app.
Qed.

(** One cycle always completes its [try] block: it returns after one sleep
    of the configured interval, and the handler of the outer [catch], with
    its counter and its shutdown, never runs. *)
Lemma cycle_run (st : state World) :
  let r := cycle config st in
  out r = Ok tt
  /\ keeps st (final r)
  /\ sleeps (log r) = [Config.polling_interval config]
  /\ guard_events (log r) = []
  /\ Forall (fun ev => forall i, record_of ev = Some i ->
                       MessageCache.isProcessed (cache st) i = false) (log r)
  /\ exists newMessages,
       out (IMessageMonitor.getNewMessages st) = Ok newMessages
       /\ resolutions (log r) = IMessageData.id <$> newMessages
       /\ sublist (posted_records (log r)) (IMessageData.id <$> newMessages).
Proof.
  intros r. subst r. unfold cycle.
  destruct (getNewMessages_run st) as (Hw & Hl & batch & Ho & Hnew & _).
  rewrite (try_catch_bind_Ok _ _ _ _ _ Ho), Hl, prepend_nil.
  name_run (IMessageMonitor.getNewMessages st) o0 st0 l0.
  destruct (batch_run batch st0) as (Ho' & Hk' & HF' & Hr' & Hp' & Hs' & Hg').
  rewrite (try_catch_bind_Ok _ _ _ _ _ Ho').
  rewrite (try_catch_Ok _ _ _ tt) by reflexivity.
  name_run (for_of batch (fun _ => process_record config) tt st0) o1 st1 l1.
  unfold prepend, sleep, emit. cbn [out final log].
  autorewrite with views. rewrite Hr', Hs', Hg'. cbn. rewrite app_nil_r.
  split; [reflexivity|].
  split; [eauto using keeps_trans, same_but_world_keeps|].
  split; [reflexivity|]. split; [reflexivity|].
  split.
  - apply Forall_app. split; [|repeat constructor; discriminate].
    eapply Forall_impl; [exact HF'|]. cbn. intros ev E i Ei.
    apply E, list_elem_of_fmap in Ei as (m & -> & Hm).
    rewrite Forall_forall in Hnew. by apply Hnew.
  - exists batch. rewrite app_nil_r. auto.
Qed.

(** The loop, for any number of cycles and in any world: it never leaves
    through the failure guard, it sleeps the configured interval after
    every cycle, and it touches no id that was resolved when it started. *)
Lemma main_loop_run cycles (st : state World) :
  let r := main_loop config cycles st in
  out r = Ok tt
  /\ keeps st (final r)
  /\ sleeps (log r)
     = (if isShuttingDown st then []
        else replicate cycles (Config.polling_interval config))
  /\ guard_events (log r) = []
  /\ Forall (fun ev => forall i, record_of ev = Some i ->
                       MessageCache.isProcessed (cache st) i = false) (log r).
Proof.
  revert st. induction cycles as [|n IH]; intros st.
  - cbn. destruct (isShuttingDown st); repeat split; auto using keeps_refl.
  - cbn [main_loop]. rewrite (bind_prepend _ _ st st) by reflexivity.
    cbn [get out final log]. rewrite prepend_nil.
    destruct (isShuttingDown st) eqn:Hdown.
    + cbn. repeat split; auto using keeps_refl.
    + destruct (cycle_run st) as (Ho & Hk & Hs & Hg & HF & _).
      rewrite (bind_prepend _ _ _ _ Ho).
      name_run (cycle config st) o1 st1 l1.
      destruct (IH st1) as (Ho' & Hk' & Hs' & Hg' & HF').
      name_run (main_loop config n st1) o2 st2 l2.
      unfold prepend. cbn [out final log].
      autorewrite with views. rewrite Hs, Hs', Hg, Hg'.
      split; [exact Ho'|]. split; [eauto using keeps_trans|].
      split.
      { destruct Hk as (_ & _ & _ & -> & _). rewrite Hdown. reflexivity. }
      split; [reflexivity|].
      apply Forall_app. split; [exact HF|].
      eapply Forall_impl; [exact HF'|]. cbn. intros ev E i Ei.
      destruct (MessageCache.isProcessed (cache st) i) eqn:Hi; [|reflexivity].
      destruct Hk as (Hmono & _). specialize (Hmono i Hi).
      rewrite (E i Ei) in Hmono. discriminate.
Qed.

(** An id that is resolved stays out of every batch and out of the log of
    the loop, from any state the pipeline can move to. *)
Lemma resolved_is_left_alone i (st : state World) cycles :
  MessageCache.isProcessed (cache st) i = true ->
  (exists newMessages,
     out (IMessageMonitor.getNewMessages st) = Ok newMessages
     /\ Forall (fun m => IMessageData.id m <> i) newMessages)
  /\ Forall (fun ev => record_of ev <> Some i) (log (cycle config st))
  /\ Forall (fun ev => record_of ev <> Some i)
       (log (main_loop config cycles st)).
Proof.
  intros Hi. split; [|split].
  - destruct (getNewMessages_run st) as (_ & _ & batch & Ho & Hnew & _).
    exists batch. split; [exact Ho|].
    eapply Forall_impl; [exact Hnew|]. cbn. intros m Hm E.
    rewrite E in Hm. congruence.
  - destruct (cycle_run st) as (_ & _ & _ & _ & HF & _).
    eapply Forall_impl; [exact HF|]. cbn. intros ev E Ei.
    specialize (E i Ei). congruence.
  - destruct (main_loop_run cycles st) as (_ & _ & _ & _ & HF).
    eapply Forall_impl; [exact HF|]. cbn. intros ev E Ei.
    specialize (E i Ei). congruence.
Qed.

Lemma not_of_record_no_publisher_call i (l : list event) :
  Forall (fun ev => record_of ev <> Some i) l ->
  Forall (fun ev => publisher_call i ev = false) l.
Proof.
  intros HF. eapply Forall_impl; [exact HF|]. intros ev Hev.
  destruct ev; cbn in *; try reflexivity;
    apply bool_decide_eq_false; congruence.
Qed.

Lemma elem_of_post_calls r text mediaIds res (l : list event) :
  PostTweet r text mediaIds res ∈ l -> (r, text, mediaIds, res) ∈ post_calls l.
Proof.
  intros Hin. unfold post_calls. apply list_elem_of_omap.
  exists (PostTweet r text mediaIds res). split; [exact Hin|reflexivity].
Qed.

(** C1. An id that is resolved in the ledger is not in the batch that
    [getNewMessages] returns, and neither [uploadMedia] nor [postTweet] is
    called for it, in one poll cycle or in any number of them. *)
Theorem resolved_records_never_reach_the_publisher
    (i : jsstring) (st : state World) (cycles : nat) :
  MessageCache.isProcessed (cache st) i = true ->
  (exists newMessages,
     out (IMessageMonitor.getNewMessages st) = Ok newMessages
     /\ Forall (fun m => IMessageData.id m <> i) newMessages)
  /\ Forall (fun ev => publisher_call i ev = false) (log (cycle config st))
  /\ Forall (fun ev => publisher_call i ev = false)
       (log (main_loop config cycles st)).
Proof.
  intros Hi.
  destruct (resolved_is_left_alone i st cycles Hi) as (Hbatch & Hc & Hl).
  auto using not_of_record_no_publisher_call.
Qed.

(** C2. When the post call of a record throws, the very next things the
    orchestrator does are to report the error and to call [markAsFailed] on
    the record's id, which ends the processing of the record; from then on
    [isProcessed] answers true for the id, so in whatever state the
    pipeline moves to, the record is filtered out of every batch and the
    Publisher is not called for it again. *)
Theorem failed_post_is_never_retried
    (rawMessage : IMessageData.t) (st : state World)
    (text : jsstring) (mediaIds : option (list jsstring)) (e : error) :
  let record := IMessageData.id rawMessage in
  let r := process_record config rawMessage st in
  PostTweet record text mediaIds (inl e) ∈ log r ->
  (exists before,
     log r = before ++ [PostTweet record text mediaIds (inl e);
                        ErrorProcessingMessage record;
                        MarkAsFailed record])
  /\ MessageCache.isProcessed (cache (final r)) record = true
  /\ forall (st' : state World) (cycles : nat),
       keeps (final r) st' ->
       MessageCache.isProcessed (cache st') record = true
       /\ (exists newMessages,
             out (IMessageMonitor.getNewMessages st') = Ok newMessages
             /\ Forall (fun m => IMessageData.id m <> record) newMessages)
       /\ Forall (fun ev => publisher_call record ev = false)
            (log (main_loop config cycles st')).
Proof.
  intros record r Hin.
  destruct (process_record_run rawMessage st) as (_ & _ & Hres & Hcases).
  fold record r in Hres, Hcases.
  destruct (upload_loop_run record
              (ProcessedMessage.mediaPaths
                 (fst (MessageProcessor.processMessage config rawMessage)))
              [] st) as (_ & _ & _ & _ & Hp & _).
  destruct (views_of_console
              (snd (MessageProcessor.processMessage config rawMessage)
               ++ snd (MessageProcessor.validateMessage
                         (fst (MessageProcessor.processMessage config
                                 rawMessage)))))
    as (_ & _ & _ & _ & Lp & _).
  apply elem_of_post_calls in Hin.
  split; [|split; [exact Hres|]].
  - destruct Hcases as [(_ & _ & E)|[(_ & t & E)|(_ & e' & E)]];
      rewrite E in Hin |- *; autorewrite with views in Hin;
      rewrite Lp, Hp in Hin; cbn [app] in Hin.
    + destruct (0 <? _)%nat; cbn in Hin; by apply elem_of_nil in Hin.
    + cbn in Hin. apply list_elem_of_singleton in Hin. discriminate.
    + cbn in Hin. apply list_elem_of_singleton in Hin.
      injection Hin as Ht Hm He. subst text mediaIds e.
      eexists (_ ++ _). by rewrite <- app_assoc.
  - intros st' cycles Hk.
    assert (Hi : MessageCache.isProcessed (cache st') record = true)
      by (by apply Hk).
    destruct (resolved_is_left_alone record st' cycles Hi) as (Hb & _ & Hl).
    auto using not_of_record_no_publisher_call.
Qed.

Lemma filter_fmap_rows {A B} (f : A -> B) (P : B -> Prop)
    `{!forall y, Decision (P y)} (l : list A) :
  filter P (f <$> l) = f <$> filter (fun x => P (f x)) l.
Proof.
  induction l as [|x l IH]; [reflexivity|].
  rewrite fmap_cons, !filter_cons.
  destruct (decide (P (f x))); [rewrite fmap_cons|]; by rewrite IH.
Qed.

Lemma sublist_fmap_inv {A B} (f : A -> B) (l : list B) (k : list A) :
  sublist l (f <$> k) -> exists k', sublist k' k /\ l = f <$> k'.
Proof.
  revert l. induction k as [|x k IH]; intros l Hl.
  - apply sublist_nil_r in Hl as ->. by exists [].
  - cbn in Hl. apply sublist_cons_r in Hl as [Hl | (l' & -> & Hl)].
    + destruct (IH l Hl) as (k' & Hk' & ->).
      exists k'. split; [by apply sublist_cons|reflexivity].
    + destruct (IH l' Hl) as (k' & Hk' & ->).
      exists (x :: k'). split; [by apply sublist_skip|reflexivity].
Qed.

Lemma StronglySorted_sublist {A} (R : relation A) (l k : list A) :
  sublist l k -> StronglySorted R k -> StronglySorted R l.
Proof.
  induction 1 as [|x l k Hlk IH|x l k Hlk IH]; intros Hk.
  - constructor.
  - apply StronglySorted_cons in Hk as [Hx Hk].
    apply StronglySorted_cons. split; [|by apply IH].
    rewrite Forall_forall in Hx |- *. intros y Hy.
    apply Hx. by eapply elem_of_sublist.
  - apply StronglySorted_cons in Hk as [_ Hk]. by apply IH.
Qed.

Lemma by_date_desc_newer_first (l : list MessageRow.t) :
  StronglySorted MessageRow.by_date_desc l -> MessageRow.newer_first l.
Proof.
  induction 1 as [|x l Hl IH Hx]; intros m n a b Ha Hb Hdate.
  { by rewrite lookup_nil in Ha. }
  rewrite Forall_forall in Hx.
  destruct m as [|m], n as [|n]; cbn in Ha, Hb.
  - injection Ha as <-. injection Hb as <-. lia.
  - lia.
  - injection Hb as <-. apply list_elem_of_lookup_2 in Ha.
    specialize (Hx a Ha). unfold MessageRow.by_date_desc in Hx. lia.
  - specialize (IH m n a b Ha Hb Hdate). lia.
Qed.

(** C3, as amended. The records of one fetched batch are processed in the
    order in which the fetch returned them, and the batch is not reversed:
    the ids the ledger resolves during the cycle are, in order, the ids of
    the fetched rows that were unresolved, and the records posted are
    among them in that same order. As the query returns the rows ordered
    by date, newest first, this is newest first: of any two records that
    are processed, and of any two that are posted, the newer one comes
    first. *)
Theorem batch_is_processed_in_fetch_order
    (st : state World) (handle : Z) (w : World) (rows : list MessageRow.t) :
  db st = true ->
  targetHandleId st = Some handle ->
  db_messages handle (world st) = (w, inr rows) ->
  StronglySorted MessageRow.by_date_desc rows ->
  let id := fun msg => Number_toString (MessageRow.ROWID msg) in
  let unresolved :=
    filter (fun i => MessageCache.isProcessed (cache st) i = false)
      (id <$> rows) in
  let r := cycle config st in
  resolutions (log r) = unresolved
  /\ sublist (posted_records (log r)) unresolved
  /\ exists processed posted : list MessageRow.t,
       processed
       = filter (fun msg => MessageCache.isProcessed (cache st) (id msg)
                            = false) rows
       /\ sublist posted processed
       /\ resolutions (log r) = id <$> processed
       /\ posted_records (log r) = id <$> posted
       /\ MessageRow.newer_first processed
       /\ MessageRow.newer_first posted.
Proof.
  intros Hdb Hh Hq Hsorted id unresolved r. subst unresolved.
  destruct (getNewMessages_run st) as (_ & _ & batch & Ho & _ & _ & Hrows).
  destruct (cycle_run st) as (_ & _ & _ & _ & _ & batch' & Ho' & Hr & Hp).
  rewrite Ho in Ho'. injection Ho' as <-.
  fold r in Hr, Hp. rewrite (Hrows handle w rows Hdb Hh Hq) in Hr, Hp.
  fold id in Hr, Hp.
  split; [exact Hr|]. split; [exact Hp|].
  set (processed :=
         filter (fun msg => MessageCache.isProcessed (cache st) (id msg)
                            = false) rows).
  assert (filter (fun i => MessageCache.isProcessed (cache st) i = false)
            (id <$> rows) = id <$> processed) as Hids.
  { exact (filter_fmap_rows id
             (fun i => MessageCache.isProcessed (cache st) i = false) rows). }
  rewrite Hids in Hp, Hr.
  apply sublist_fmap_inv in Hp as (posted & Hposted & Hp).
  assert (StronglySorted MessageRow.by_date_desc processed) as Hprocessed.
  { eapply StronglySorted_sublist; [|exact Hsorted]. apply sublist_filter. }
  exists processed, posted.
  split; [reflexivity|]. split; [exact Hposted|].
  split; [exact Hr|]. split; [exact Hp|].
  split; apply by_date_desc_newer_first; [exact Hprocessed|].
  by eapply StronglySorted_sublist.
Qed.

(** C4, what the code does. Whatever the database does, a query that
    throws on every cycle included, the loop that starts with the counter
    at zero completes every cycle with the counter at zero and the shutdown
    flag down, never enters the handler that counts errors and shuts down,
    and sleeps the plain interval after every cycle. *)
Theorem fetch_failures_never_reach_the_guard
    (st : state World) (cycles : nat) :
  isShuttingDown st = false ->
  consecutiveErrors st = 0 ->
  let r := main_loop config cycles st in
  out r = Ok tt
  /\ isShuttingDown (final r) = false
  /\ consecutiveErrors (final r) = 0
  /\ guard_events (log r) = []
  /\ sleeps (log r) = replicate cycles (Config.polling_interval config).
Proof.
  intros Hdown Herr r.
  destruct (main_loop_run cycles st) as (Ho & Hk & Hs & Hg & _).
  fold r in Ho, Hk, Hs, Hg. rewrite Hdown in Hs.
  destruct Hk as (_ & _ & _ & Hd & He).
  split; [exact Ho|]. split; [congruence|].
  split; [destruct He; congruence|]. split; assumption.
Qed.

(** What the [catch] block of the loop body would do, were it entered:
    below the threshold it counts the error and sleeps twice the interval. *)
Lemma on_cycle_error_counts (st : state World) e :
  consecutiveErrors st + 1 < MAX_CONSECUTIVE_ERRORS ->
  on_cycle_error config e st
  = Run (Ok tt) (set_consecutiveErrors (consecutiveErrors st + 1) st)
        [ErrorInMainLoop (consecutiveErrors st + 1);
         Sleep (number_double (Config.polling_interval config))].
Proof.
  intros Hlt. unfold on_cycle_error, bind, modify, get, emit, sleep. cbn.
  destruct (Z.leb_spec MAX_CONSECUTIVE_ERRORS (consecutiveErrors st + 1));
    [lia|reflexivity].
Qed.

(** At the threshold it shuts the process down. *)
Lemma on_cycle_error_shuts_down (st : state World) e :
  isShuttingDown st = false ->
  MAX_CONSECUTIVE_ERRORS <= consecutiveErrors st + 1 ->
  let r := on_cycle_error config e st in
  out r = Exit 0
  /\ isShuttingDown (final r) = true
  /\ log r = [ErrorInMainLoop (consecutiveErrors st + 1); ProcessExit 0].
Proof.
  intros Hdown Hle. unfold on_cycle_error, bind, modify, get, emit, sleep. cbn.
  destruct (Z.leb_spec MAX_CONSECUTIVE_ERRORS (consecutiveErrors st + 1));
    [|lia].
  unfold shutdown, bind, get, modify, IMessageMonitor.close, process_exit. cbn.
  rewrite Hdown. cbn. destruct (db st); cbn; auto.
Qed.

(** A cycle whose query throws: an empty batch, one plain sleep, and the
    counter untouched. *)
Lemma cycle_on_fetch_failure (st : state World) handle w e :
  db st = true ->
  targetHandleId st = Some handle ->
  db_messages handle (world st) = (w, inl e) ->
  cycle config st
  = Run (Ok tt) (set_world w st) [Sleep (Config.polling_interval config)].
Proof.
  intros Hdb Hh Hq. unfold cycle.
  assert (Hf : IMessageMonitor.getNewMessages st = Run (Ok []) (set_world w st) []).
  { unfold IMessageMonitor.getNewMessages.
    rewrite (bind_prepend _ _ st st) by reflexivity.
    cbn [get out final log]. rewrite prepend_nil, Hdb, Hh.
    rewrite (try_catch_bind_Throw _ _ _ _ e)
      by (by rewrite (call_inl _ _ _ _ _ Hq)).
    by rewrite (call_inl _ _ _ _ _ Hq). }
  rewrite (try_catch_bind_Ok _ _ _ _ []) by (by rewrite Hf).
  rewrite Hf. reflexivity.
Qed.

(** C7. A record whose processed form has no text and no media is not
    valid; processing it calls neither [uploadMedia] nor [postTweet], and
    calls the ledger exactly once, with [markAsProcessed]: after the console
    lines of the message processor, that call is all the record leaves in
    the log. The id is resolved from then on, so the record is not taken up
    again. *)
Theorem empty_record_is_skipped_once
    (rawMessage : IMessageData.t) (st : state World) :
  let record := IMessageData.id rawMessage in
  let p := fst (MessageProcessor.processMessage config rawMessage) in
  let r := process_record config rawMessage st in
  ProcessedMessage.text p = [] ->
  ProcessedMessage.mediaPaths p = [] ->
  fst (MessageProcessor.validateMessage p) = false
  /\ out r = Ok tt
  /\ (exists lines, log r = (Console <$> lines) ++ [MarkAsProcessed record])
  /\ upload_calls (log r) = []
  /\ post_calls (log r) = []
  /\ resolutions (log r) = [record]
  /\ MessageCache.isProcessed (cache (final r)) record = true
  /\ forall (st' : state World) (cycles : nat),
       keeps (final r) st' ->
       Forall (fun ev => publisher_call record ev = false)
         (log (main_loop config cycles st')).
Proof.
  intros record p r Htext Hmedia.
  destruct (process_record_run rawMessage st) as (Ho & _ & Hres & Hcases).
  fold record p r in Ho, Hres, Hcases.
  rewrite Htext, Hmedia in Hcases. cbn in Hcases.
  split; [by rewrite validateMessage_fst, Htext, Hmedia|].
  split; [exact Ho|].
  destruct Hcases as [(_ & _ & E)|[([?|?] & _)|([?|?] & _)]]; try done.
  destruct (views_of_console
              (snd (MessageProcessor.processMessage config rawMessage)
               ++ snd (MessageProcessor.validateMessage p)))
    as (_ & _ & Lu & _ & Lp & _ & Lr & _).
  rewrite E. autorewrite with views. rewrite Lu, Lp, Lr.
  split; [eauto|]. split; [reflexivity|]. split; [reflexivity|].
  split; [reflexivity|]. split; [exact Hres|].
  intros st' cycles Hk.
  assert (Hi : MessageCache.isProcessed (cache st') record = true)
    by (by apply Hk).
  destruct (resolved_is_left_alone record st' cycles Hi) as (_ & _ & Hl).
  auto using not_of_record_no_publisher_call.
Qed.

(** What one record leaves in the log, seen through the upload loop. *)
Lemma process_record_uploads rawMessage (st : state World) :
  let record := IMessageData.id rawMessage in
  let p := fst (MessageProcessor.processMessage config rawMessage) in
  let r := process_record config rawMessage st in
  let mediaIds := uploaded_ids (log r) in
  (length mediaIds + length (failed_attachments (log r))
   = length (ProcessedMessage.mediaPaths p))%nat
  /\ (post_calls (log r) = []
      /\ ProcessedMessage.text p = [] /\ mediaIds = []
      \/ exists res,
           post_calls (log r)
           = [(record, ProcessedMessage.text p,
               if (0 <? length mediaIds)%nat then Some mediaIds else None,
               res)])
  /\ exists before last,
       log r = before ++ [last]
       /\ (last = MarkAsProcessed record \/ last = MarkAsFailed record).
Proof.
  intros record p r mediaIds. subst mediaIds.
  destruct (process_record_run rawMessage st) as (_ & _ & _ & Hcases).
  destruct (upload_loop_run record (ProcessedMessage.mediaPaths p) [] st)
    as (_ & _ & _ & _ & Hp & _ & _ & _ & Hlen & _).
  fold record p r in Hcases.
  set (u := for_of (ProcessedMessage.mediaPaths p) (upload_step record) [] st)
    in *.
  destruct (views_of_console
              (snd (MessageProcessor.processMessage config rawMessage)
               ++ snd (MessageProcessor.validateMessage p)))
    as (Li & _ & _ & Lf & Lp & _).
  set (lines := Console <$> _) in *.
  assert (Hlast : exists before last,
            log r = before ++ [last]
            /\ (last = MarkAsProcessed record \/ last = MarkAsFailed record)).
  { destruct Hcases as [(_ & _ & E)|[(_ & t & E)|(_ & e & E)]]; rewrite E.
    - exists (lines ++ log u
              ++ (if (0 <? length (ProcessedMessage.mediaPaths p))%nat
                  then [NoMediaNoText record] else [])),
             (MarkAsProcessed record).
      split; [by rewrite <- !app_assoc|by left].
    - eexists (lines ++ log u ++ [PostTweet record _ _ (inr t)]),
              (MarkAsProcessed record).
      split; [by rewrite <- !app_assoc|by left].
    - eexists (lines ++ log u
               ++ [PostTweet record _ _ (inl e); ErrorProcessingMessage record]),
              (MarkAsFailed record).
      split; [by rewrite <- !app_assoc|by right]. }
  destruct Hcases as [(Ht & Hids & E)|[(_ & t & E)|(_ & e & E)]];
    rewrite E in Hlast |- *; autorewrite with views; rewrite Li, Lf, Lp, Hp.
  - destruct (0 <? _)%nat; cbn; rewrite !app_nil_r;
      (split; [exact Hlen|]);
      (split; [left; destruct (ProcessedMessage.text p); [auto|discriminate]|]);
      exact Hlast.
  - cbn. rewrite !app_nil_r. split; [exact Hlen|]. split; [eauto|].
    exact Hlast.
  - cbn. rewrite !app_nil_r. split; [exact Hlen|]. split; [eauto|].
    exact Hlast.
Qed.

(** C8. Every media path of a record is handed to the converter, whatever
    happened to the ones before it, and ends either as an uploaded media id
    or as a logged failure; processing the record never throws. A post call
    is made with exactly the uploaded media ids, and is only left out when
    there is neither text nor any uploaded id. With three media paths of
    which one failed, the post is made with two media ids. The last thing
    done for the record is to resolve it, as processed or as failed. *)
Theorem attachment_failures_do_not_abort_the_record
    (rawMessage : IMessageData.t) (st : state World) :
  let record := IMessageData.id rawMessage in
  let p := fst (MessageProcessor.processMessage config rawMessage) in
  let r := process_record config rawMessage st in
  let mediaIds := uploaded_ids (log r) in
  out r = Ok tt
  /\ converted_paths (log r) = ProcessedMessage.mediaPaths p
  /\ (length mediaIds + length (failed_attachments (log r))
      = length (ProcessedMessage.mediaPaths p))%nat
  /\ (post_calls (log r) = []
      /\ ProcessedMessage.text p = [] /\ mediaIds = []
      \/ exists res,
           post_calls (log r)
           = [(record, ProcessedMessage.text p,
               if (0 <? length mediaIds)%nat then Some mediaIds else None,
               res)])
  /\ (length (ProcessedMessage.mediaPaths p) = 3%nat ->
      length (failed_attachments (log r)) = 1%nat ->
      exists res,
        post_calls (log r)
        = [(record, ProcessedMessage.text p, Some mediaIds, res)]
        /\ length mediaIds = 2%nat)
  /\ (exists before last,
        log r = before ++ [last]
        /\ (last = MarkAsProcessed record \/ last = MarkAsFailed record))
  /\ resolutions (log r) = [record]
  /\ MessageCache.isProcessed (cache (final r)) record = true.
Proof.
  intros record p r mediaIds.
  destruct (process_record_run rawMessage st) as (Ho & _ & Hres & _).
  destruct (process_record_views rawMessage st) as (_ & Hr & _ & Hc & _).
  destruct (process_record_uploads rawMessage st) as (Hlen & Hpost & Hlast).
  fold record p r in Ho, Hres, Hr, Hc, Hlen, Hpost, Hlast.
  fold mediaIds in Hlen, Hpost.
  split; [exact Ho|]. split; [exact Hc|]. split; [exact Hlen|].
  split; [exact Hpost|]. split; [|auto].
  intros H3 H1. rewrite H3, H1 in Hlen.
  assert (H2 : length mediaIds = 2%nat) by lia.
  destruct Hpost as [(_ & _ & Hnil)|(res & Hp)].
  - rewrite Hnil in H2. discriminate.
  - exists res. rewrite Hp, H2. auto.
Qed.

(** C6, as amended. The media paths of a record are the resolved paths of
    those of its attachments that have a supported image MIME type and a
    file name (or transfer name), in source order, cut to the first four.
    When more than four were found, the warning is written. Only the media
    paths kept are handed to the converter, and no more uploads are made
    than paths were kept; in particular six image attachments give four
    media paths and at most four uploads. *)
Theorem mediaPaths_are_the_first_four_images
    (rawMessage : IMessageData.t) (st : state World) :
  let found :=
    omap imagePath (default [] (IMessageData.attachments rawMessage)) in
  let p := fst (MessageProcessor.processMessage config rawMessage) in
  let r := process_record config rawMessage st in
  ProcessedMessage.mediaPaths p = take 4 found
  /\ (length (ProcessedMessage.mediaPaths p) <= 4)%nat
  /\ ((4 < length found)%nat ->
      Console (WarningTooManyImages (length found)) ∈ log r)
  /\ converted_paths (log r) = take 4 found
  /\ (length (upload_calls (log r)) <= length (take 4 found))%nat
  /\ (length found = 6%nat ->
      length (ProcessedMessage.mediaPaths p) = 4%nat
      /\ converted_paths (log r) = take 4 found
      /\ (length (upload_calls (log r)) <= 4)%nat).
Proof.
  intros found p r.
  pose proof (processMessage_mediaPaths config rawMessage) as Hm.
  fold found p in Hm.
  destruct (process_record_views rawMessage st) as (_ & _ & _ & Hc & Hup & _).
  fold p r in Hc, Hup. rewrite Hm in Hc, Hup.
  assert (Hle : (length (take 4 found) <= 4)%nat)
    by (rewrite length_take; lia).
  split; [exact Hm|]. split; [by rewrite Hm|].
  split; [|split; [exact Hc|split; [exact Hup|]]].
  - intros Hmany.
    pose proof (processMessage_warning config rawMessage Hmany) as Hwarn.
    fold found in Hwarn.
    destruct (process_record_run rawMessage st) as (_ & _ & _ & Hcases).
    fold r in Hcases.
    assert (Hlines : Console (WarningTooManyImages (length found))
                     ∈ Console <$>
                         (snd (MessageProcessor.processMessage config rawMessage)
                          ++ snd (MessageProcessor.validateMessage p))).
    { apply list_elem_of_fmap_2, elem_of_app. by left. }
    destruct Hcases as [(_ & _ & ->)|[(_ & t & ->)|(_ & e & ->)]];
      apply elem_of_app; by left.
  - intros H6. rewrite Hm, length_take, H6.
    split; [reflexivity|]. split; [exact Hc|]. lia.
Qed.

End DaemonFacts.

(** The failing input of C5 evaluated: nine characters of the text, then
    the three characters of the marker. *)
Example fifteen_characters_at_limit_ten :
  let p := fst (@MessageProcessor.processMessage example_host Scripted.config
                  (Scripted.message "7" "abcdefghijklmno" [])) in
  ProcessedMessage.text p = lit "abcdefghi" ++ [226; 8364; 166]%N
  /\ length (ProcessedMessage.text p) = 12%nat
  /\ ProcessedMessage.wasTruncated p = true.
Proof. vm_compute. repeat split; reflexivity. Qed.

(** ** The properties on the scripted world *)

(** C1 with message 1 resolved and both messages fetched again, over three
    cycles. *)
Lemma resolved_records_never_reach_the_publisher_witness :
  (exists newMessages,
     out (@IMessageMonitor.getNewMessages example_host _ Scripted.external
            Scripted.one_resolved) = Ok newMessages
     /\ Forall (fun m => IMessageData.id m <> lit "1") newMessages)
  /\ Forall (fun ev => publisher_call (lit "1") ev = false)
       (log (@Daemon.cycle example_host _ Scripted.external Scripted.config
               Scripted.one_resolved))
  /\ Forall (fun ev => publisher_call (lit "1") ev = false)
       (log (@Daemon.main_loop example_host _ Scripted.external Scripted.config
               3 Scripted.one_resolved)).
Proof.
  apply (@resolved_records_never_reach_the_publisher example_host _
           Scripted.external Scripted.config (lit "1") Scripted.one_resolved 3).
  vm_compute. reflexivity.
Defined.

(** C2 on a text message that the API refuses. *)
Lemma failed_post_is_never_retried_witness :
  let rawMessage := Scripted.message "7" "hello" [] in
  let r := @Daemon.process_record example_host _ Scripted.external
             Scripted.config rawMessage (Scripted.start Scripted.refusing) in
  log r = [PostTweet (lit "7") (lit "hello") None
             (inl (Error "Tweet posting failed: 503"));
           ErrorProcessingMessage (lit "7");
           MarkAsFailed (lit "7")]
  /\ @MessageCache.isProcessed example_host (cache (final r)) (lit "7") = true
  /\ Forall (fun ev => publisher_call (lit "7") ev = false)
       (log (@Daemon.main_loop example_host _ Scripted.external Scripted.config
               3 (final r))).
Proof.
  intros rawMessage r.
  destruct (@failed_post_is_never_retried example_host _ Scripted.external
              Scripted.config rawMessage (Scripted.start Scripted.refusing)
              (lit "hello") None (Error "Tweet posting failed: 503"))
    as (_ & Hres & Hlater).
  { vm_compute. constructor. }
  split; [vm_compute; reflexivity|]. split; [exact Hres|].
  apply (Hlater (final r) 3%nat), keeps_refl.
Defined.

(** C3 on two fetched messages, both unresolved, the newer one first. *)
Lemma batch_is_processed_in_fetch_order_witness :
  let st := Scripted.start Scripted.two_rows in
  let id := fun msg => Number_toString (MessageRow.ROWID msg) in
  let unresolved :=
    filter (fun i => @MessageCache.isProcessed example_host (cache st) i = false)
      (id <$> Scripted.table Scripted.two_rows) in
  let r := @Daemon.cycle example_host _ Scripted.external Scripted.config st in
  resolutions (log r) = unresolved
  /\ sublist (posted_records (log r)) unresolved
  /\ exists processed posted : list MessageRow.t,
       processed
       = filter (fun msg => @MessageCache.isProcessed example_host (cache st)
                              (id msg) = false)
           (Scripted.table Scripted.two_rows)
       /\ sublist posted processed
       /\ resolutions (log r) = id <$> processed
       /\ posted_records (log r) = id <$> posted
       /\ MessageRow.newer_first processed
       /\ MessageRow.newer_first posted.
Proof.
  intros st id unresolved r.
  apply (@batch_is_processed_in_fetch_order example_host _ Scripted.external
           Scripted.config st 1 Scripted.two_rows
           (Scripted.table Scripted.two_rows)); try reflexivity.
  repeat constructor. unfold MessageRow.by_date_desc. cbn. lia.
Defined.

(** C3 as stated fails: of two unresolved messages fetched in one batch,
    the newer one (ROWID 2, date 200) is posted before the older one
    (ROWID 1, date 100). *)
Lemma newer_record_is_posted_first :
  let st := Scripted.start Scripted.two_rows in
  let r := @Daemon.cycle example_host _ Scripted.external Scripted.config st in
  (MessageRow.ROWID <$> Scripted.table Scripted.two_rows = [2; 1]
   /\ MessageRow.date <$> Scripted.table Scripted.two_rows = [200; 100])
  /\ posted_records (log r) = [Number_toString 2; Number_toString 1].
Proof. vm_compute. repeat split; reflexivity. Qed.

(** C4 on a database that throws at every query: six cycles later the
    counter is still at zero and the loop still runs. *)
Lemma fetch_failures_never_reach_the_guard_witness :
  let r := @Daemon.main_loop example_host _ Scripted.external Scripted.config
             6 (Scripted.start Scripted.broken) in
  out r = Ok tt
  /\ isShuttingDown (final r) = false
  /\ consecutiveErrors (final r) = 0
  /\ guard_events (log r) = []
  /\ sleeps (log r) = replicate 6 (Config.polling_interval Scripted.config).
Proof.
  apply (@fetch_failures_never_reach_the_guard example_host _
           Scripted.external Scripted.config
           (Scripted.start Scripted.broken) 6); reflexivity.
Defined.

(** All that six cycles on the broken database leave in the log is six
    sleeps of the plain interval. *)
Example six_failed_fetches :
  log (@Daemon.main_loop example_host _ Scripted.external Scripted.config
         6 (Scripted.start Scripted.broken))
  = replicate 6 (Sleep (Num 3000)).
Proof. vm_compute. reflexivity. Qed.

(** C6 on six image attachments. *)
Lemma mediaPaths_are_the_first_four_images_witness :
  let rawMessage := Scripted.six_images in
  let found :=
    omap (@imagePath example_host)
      (default [] (IMessageData.attachments rawMessage)) in
  let p := fst (@MessageProcessor.processMessage example_host
                  Scripted.config rawMessage) in
  let r := @Daemon.process_record example_host _ Scripted.external
             Scripted.config rawMessage (Scripted.start Scripted.quiet) in
  Console (WarningTooManyImages (length found)) ∈ log r
  /\ length (ProcessedMessage.mediaPaths p) = 4%nat
  /\ converted_paths (log r) = take 4 found
  /\ (length (upload_calls (log r)) <= 4)%nat.
Proof.
  intros rawMessage found p r.
  destruct (@mediaPaths_are_the_first_four_images example_host _
              Scripted.external Scripted.config rawMessage
              (Scripted.start Scripted.quiet))
    as (_ & _ & Hwarn & _ & _ & Hsix).
  split; [apply Hwarn; vm_compute; lia|apply Hsix; reflexivity].
Defined.

(** C6 as stated fails: a record with six attachments that are videos has
    no media path at all, neither four of them nor the attachments' paths. *)
Lemma six_attachments_no_media_path :
  let rawMessage := Scripted.six_videos in
  let p := fst (@MessageProcessor.processMessage example_host
                  Scripted.config rawMessage) in
  length (default [] (IMessageData.attachments rawMessage)) = 6%nat
  /\ length (ProcessedMessage.mediaPaths p) <> 4%nat
  /\ ProcessedMessage.mediaPaths p <> @claimed_mediaPaths example_host rawMessage.
Proof. vm_compute. repeat split; discriminate. Qed.

(** C7 on a message with an empty text and no attachment. *)
Lemma empty_record_is_skipped_once_witness :
  let rawMessage := Scripted.message "7" "" [] in
  let p := fst (@MessageProcessor.processMessage example_host
                  Scripted.config rawMessage) in
  let r := @Daemon.process_record example_host _ Scripted.external
             Scripted.config rawMessage (Scripted.start Scripted.quiet) in
  fst (MessageProcessor.validateMessage p) = false
  /\ out r = Ok tt
  /\ (exists lines, log r = (Console <$> lines) ++ [MarkAsProcessed (lit "7")])
  /\ upload_calls (log r) = []
  /\ post_calls (log r) = []
  /\ resolutions (log r) = [lit "7"]
  /\ @MessageCache.isProcessed example_host (cache (final r)) (lit "7") = true
  /\ forall (st' : state Scripted.script) (cycles : nat),
       @keeps example_host _ (final r) st' ->
       Forall (fun ev => publisher_call (lit "7") ev = false)
         (log (@Daemon.main_loop example_host _ Scripted.external
                 Scripted.config cycles st')).
Proof.
  intros rawMessage p r.
  apply (@empty_record_is_skipped_once example_host _ Scripted.external
           Scripted.config rawMessage (Scripted.start Scripted.quiet));
    reflexivity.
Defined.

(** C8 on three images of which the second is rejected by the API: the
    post is made with the media ids of the first and the third. *)
Lemma attachment_failures_do_not_abort_the_record_witness :
  let rawMessage := Scripted.three_images in
  let p := fst (@MessageProcessor.processMessage example_host
                  Scripted.config rawMessage) in
  let r := @Daemon.process_record example_host _ Scripted.external
             Scripted.config rawMessage
             (Scripted.start Scripted.rejecting_b) in
  failed_attachments (log r) = [lit "b.png"]
  /\ uploaded_ids (log r) = [lit "media:a.png"; lit "media:c.png"]
  /\ exists res,
       post_calls (log r)
       = [(lit "7", ProcessedMessage.text p, Some (uploaded_ids (log r)), res)]
       /\ length (uploaded_ids (log r)) = 2%nat.
Proof.
  intros rawMessage p r.
  destruct (@attachment_failures_do_not_abort_the_record example_host _
              Scripted.external Scripted.config rawMessage
              (Scripted.start Scripted.rejecting_b))
    as (_ & _ & _ & _ & Hthree & _).
  split; [vm_compute; reflexivity|]. split; [vm_compute; reflexivity|].
  apply Hthree; vm_compute; reflexivity.
Defined.

(** * Further properties *)

(** ** The ledger: counts, reload, clear *)

Section LedgerFacts.
Context `{Host}.
Import MessageCache.

Lemma last_outcome_snoc k ms m :
  last_outcome k (ms ++ [m])
  = if decide (mark_key m = k) then Some (mark_fails m) else last_outcome k ms.
Proof. unfold last_outcome. by rewrite fold_left_app. Qed.

Lemma after_marks_snoc c ms m :
  after_marks c (ms ++ [m]) = apply_mark (after_marks c ms) m.
Proof. unfold after_marks. by rewrite fold_left_app. Qed.

Lemma ledger_sets_by_last_outcome ms k :
  let c := after_marks (new NoFile) ms in
  (k ∈ processedIds c <-> is_Some (last_outcome k ms))
  /\ (k ∈ failedIds c <-> last_outcome k ms = Some true).
Proof.
  induction ms as [|m ms IH] using rev_ind; intros c; subst c.
  - cbn. rewrite !elem_of_empty. split; split; done.
  - rewrite after_marks_snoc, last_outcome_snoc.
    destruct IH as [IHp IHf].
    destruct m as [env j|env j]; cbn [apply_mark markProcessed markFailed save
      processedIds failedIds mark_key mark_fails];
      destruct (decide (Some (parseInt j) = k)) as [<-|Hne].
    + rewrite elem_of_union, elem_of_difference, !elem_of_singleton.
      split; split; eauto; [by intros [_ []]|done].
    + rewrite elem_of_union, elem_of_difference, !elem_of_singleton.
      rewrite IHp, IHf. split; split; try tauto; intros; intuition congruence.
    + rewrite !elem_of_union, !elem_of_singleton. split; split; eauto.
    + rewrite !elem_of_union, !elem_of_singleton.
      rewrite IHp, IHf. split; split; try tauto; intros; intuition congruence.
Qed.

(** X1. From an empty cache, after any sequence of marking calls, an id is
    resolved exactly when some call was made for its key, and it is failed
    exactly when the last call for its key was [markFailed]: a later
    [markProcessed] overwrites a failure and a later [markFailed] overwrites
    a success. *)
Theorem ledger_holds_the_last_outcome (ms : list mark) (i : jsstring) :
  let c := after_marks (new NoFile) ms in
  (isProcessed c i = true <-> is_Some (last_outcome (Some (parseInt i)) ms))
  /\ (isFailed c i = true <-> last_outcome (Some (parseInt i)) ms = Some true).
Proof.
  intros c.
  destruct (ledger_sets_by_last_outcome ms (Some (parseInt i))) as [Hp Hf].
  fold c in Hp, Hf. split.
  - rewrite isProcessed_true, Hp, Hf. split; [|by left].
    intros [?|E]; [done|]. rewrite E. eauto.
  - unfold isFailed. by rewrite bool_decide_eq_true.
Qed.

Lemma processedIds_apply_mark c m :
  processedIds (apply_mark c m) = processedIds c ∪ {[mark_key m]}.
Proof. by destruct m. Qed.

(** X2. [getProcessedCount] never goes down: a marking call adds one to it
    when the key of the id is new, and leaves it alone when the key is
    already in the processed set, whichever of the two calls it is; so it
    is at most the number of marking calls made. *)
Theorem processed_count_grows_by_new_keys (c : t) (m : mark) (ms : list mark) :
  (mark_key m ∈ processedIds c ->
   getProcessedCount (apply_mark c m) = getProcessedCount c)
  /\ (mark_key m ∉ processedIds c ->
      getProcessedCount (apply_mark c m) = S (getProcessedCount c))
  /\ (getProcessedCount (after_marks (new NoFile) ms) <= length ms)%nat.
Proof.
  unfold getProcessedCount. split; [|split].
  - intros Hin. rewrite processedIds_apply_mark. f_equal.
    apply set_eq. intros x. rewrite elem_of_union, elem_of_singleton.
    split; [intros [? | ->]; assumption|by left].
  - intros Hnew. rewrite processedIds_apply_mark, size_union.
    + rewrite size_singleton. lia.
    + intros x Hx Hs. apply elem_of_singleton in Hs. by subst x.
  - induction ms as [|m' ms IH] using rev_ind; [reflexivity|].
    rewrite after_marks_snoc, processedIds_apply_mark, length_app.
    cbn [length]. rewrite size_union_alt.
    assert (size (({[mark_key m']} : gset (option number))
                  ∖ processedIds (after_marks (new NoFile) ms)) <= 1)%nat.
    { rewrite <- (size_singleton (C:=gset (option number)) (mark_key m')).
      apply subseteq_size. intros x [Hx _]%elem_of_difference. exact Hx. }
    lia.
Qed.

Lemma marked_keys_only ms k :
  let c := after_marks (new NoFile) ms in
  k ∈ processedIds c \/ k ∈ failedIds c -> k ∈ mark_key <$> ms.
Proof.
  induction ms as [|m ms IH] using rev_ind; intros c; subst c.
  - cbn. rewrite !elem_of_empty. tauto.
  - rewrite after_marks_snoc, fmap_app, elem_of_app. cbn.
    rewrite list_elem_of_singleton.
    destruct m as [env j|env j]; cbn;
      rewrite ?elem_of_union, ?elem_of_difference, !elem_of_singleton;
      intuition.
Qed.

(** Reading back a saved set whose elements are all finite numbers gives
    the set itself. *)
Lemma reloaded_finite_set (s : gset (option number)) :
  (forall x, x ∈ s -> exists z, x = Some (Num z)) ->
  (list_to_set (toJSON <$> elements s) : gset (option number)) = s.
Proof.
  intros Hfin. apply set_eq. intros x.
  rewrite elem_of_list_to_set, list_elem_of_fmap. split.
  - intros (y & -> & Hy). apply elem_of_elements in Hy.
    destruct (Hfin y Hy) as [z ->]. exact Hy.
  - intros Hx. exists x. split; [|by apply elem_of_elements].
    by destruct (Hfin x Hx) as [z ->].
Qed.

(** X3. When every id that was marked is read by [parseInt] as a finite
    number, a fresh instance that loads the saved file holds exactly the
    two sets of the instance that saved it, and so reports the same counts. *)
Theorem reload_restores_numeric_ledger (ms : list mark) (env : save_env) :
  outcome env = Written ->
  Forall (fun m => exists z, mark_key m = Some (Num z)) ms ->
  let c := save env (after_marks (new NoFile) ms) in
  let c' := new (cacheFile c) in
  processedIds c' = processedIds c
  /\ failedIds c' = failedIds c
  /\ getProcessedCount c' = getProcessedCount c
  /\ getFailedCount c' = getFailedCount c.
Proof.
  intros Hw Hnum c c'.
  assert (Hfin : forall x,
            x ∈ processedIds (after_marks (new NoFile) ms)
            \/ x ∈ failedIds (after_marks (new NoFile) ms) ->
            exists z, x = Some (Num z)).
  { intros x Hx. apply marked_keys_only, list_elem_of_fmap in Hx as (m & -> & Hm).
    rewrite Forall_forall in Hnum. by apply Hnum. }
  assert (Hp : processedIds c' = processedIds c).
  { subst c' c. unfold new, load, save. cbn. rewrite Hw. cbn.
    apply reloaded_finite_set. auto. }
  assert (Hf : failedIds c' = failedIds c).
  { subst c' c. unfold new, load, save. cbn. rewrite Hw. cbn.
    apply reloaded_finite_set. auto. }
  unfold getProcessedCount, getFailedCount. rewrite Hp, Hf. auto.
Qed.

(** X4. [clear] forgets every id, in the instance and, once the file is
    written, in every fresh instance that loads it. *)
Theorem clear_forgets_everything (c : t) (env : save_env) (i : jsstring) :
  outcome env = Written ->
  let c0 := clear env c in
  isProcessed c0 i = false
  /\ getProcessedCount c0 = 0%nat /\ getFailedCount c0 = 0%nat
  /\ isProcessed (new (cacheFile c0)) i = false
  /\ getProcessedCount (new (cacheFile c0)) = 0%nat.
Proof.
  intros Hw c0. subst c0. unfold clear, new, load, save. cbn. rewrite Hw. cbn.
  rewrite elements_empty. cbn.
  unfold isProcessed, getProcessedCount, getFailedCount. cbn.
  rewrite !bool_decide_eq_false_2 by apply not_elem_of_empty.
  rewrite size_empty. auto.
Qed.

End LedgerFacts.

(** X2 on a failure followed by a success of the same id. *)
Lemma processed_count_grows_by_new_keys_witness :
  let c := @MessageCache.markFailed example_host Scripted.written (lit "7")
             (MessageCache.new MessageCache.NoFile) in
  let m := MessageCache.MarkProcessed Scripted.written (lit "7") in
  MessageCache.getProcessedCount (@MessageCache.apply_mark example_host c m)
  = MessageCache.getProcessedCount c.
Proof.
  intros c m.
  apply (@processed_count_grows_by_new_keys example_host c m []).
  apply (bool_decide_unpack _). vm_compute. exact I.
Defined.

(** X3 on two numeric ids. *)
Lemma reload_restores_numeric_ledger_witness :
  let ms := [MessageCache.MarkProcessed Scripted.written (lit "41");
             MessageCache.MarkFailed Scripted.written (lit "42")] in
  let c := MessageCache.save Scripted.written
             (@MessageCache.after_marks example_host
                (MessageCache.new MessageCache.NoFile) ms) in
  let c' := MessageCache.new (MessageCache.cacheFile c) in
  MessageCache.processedIds c' = MessageCache.processedIds c
  /\ MessageCache.failedIds c' = MessageCache.failedIds c
  /\ MessageCache.getProcessedCount c' = MessageCache.getProcessedCount c
  /\ MessageCache.getFailedCount c' = MessageCache.getFailedCount c.
Proof.
  intros ms c c'.
  apply (@reload_restores_numeric_ledger example_host ms Scripted.written);
    [reflexivity|].
  repeat constructor; eexists; vm_compute; reflexivity.
Defined.

(** X4 on a cache that held one id. *)
Lemma clear_forgets_everything_witness :
  let c := @MessageCache.markFailed example_host Scripted.written (lit "7")
             (MessageCache.new MessageCache.NoFile) in
  let c0 := MessageCache.clear Scripted.written c in
  @MessageCache.isProcessed example_host c0 (lit "7") = false
  /\ MessageCache.getProcessedCount c0 = 0%nat
  /\ MessageCache.getFailedCount c0 = 0%nat
  /\ @MessageCache.isProcessed example_host
       (MessageCache.new (MessageCache.cacheFile c0)) (lit "7") = false
  /\ MessageCache.getProcessedCount
       (MessageCache.new (MessageCache.cacheFile c0)) = 0%nat.
Proof.
  intros c c0.
  apply (@clear_forgets_everything example_host c Scripted.written (lit "7")).
  reflexivity.
Defined.

(** ** Message normalisation: trimming and limits *)

Section TrimFacts.

Lemma trimStart_split s :
  exists l, s = l ++ trimStart s /\ Forall (fun c => isWhiteSpace c = true) l.
Proof.
  induction s as [|c s (l & Hs & Hl)]; [by exists []|].
  cbn. destruct (isWhiteSpace c) eqn:Hc.
  - exists (c :: l). split; [by rewrite Hs at 1|by constructor].
  - by exists [].
Qed.

Lemma trimStart_head s c : head (trimStart s) = Some c -> isWhiteSpace c = false.
Proof.
  induction s as [|c' s IH]; [discriminate|].
  cbn. destruct (isWhiteSpace c') eqn:Hc; [exact IH|].
  cbn. by intros [= <-].
Qed.

Lemma trimStart_all s :
  Forall (fun c => isWhiteSpace c = true) s -> trimStart s = [].
Proof. induction 1 as [|c s Hc _ IH]; [reflexivity|]. cbn. by rewrite Hc. Qed.

Lemma last_rev_head (s : jsstring) : last (rev s) = head s.
Proof. destruct s as [|c s]; [reflexivity|]. cbn. apply last_snoc. Qed.

(** [trim] cuts white space off both ends and nothing else. *)
Lemma trim_split s :
  exists l r,
    s = l ++ trim s ++ r
    /\ Forall (fun c => isWhiteSpace c = true) l
    /\ Forall (fun c => isWhiteSpace c = true) r
    /\ (forall c, head (trim s) = Some c -> isWhiteSpace c = false)
    /\ (forall c, last (trim s) = Some c -> isWhiteSpace c = false).
Proof.
  unfold trim, trimEnd.
  destruct (trimStart_split s) as (l & Hs & Hl).
  destruct (trimStart_split (rev (trimStart s))) as (r & Hr & Hrw).
  exists l, (rev r). split; [|split; [exact Hl|split; [|split]]].
  - rewrite <- rev_app_distr, <- Hr, rev_involutive. exact Hs.
  - apply Forall_forall. intros c Hc. rewrite Forall_forall in Hrw.
    apply Hrw. by apply list_elem_of_In, in_rev, list_elem_of_In.
  - intros c Hc. apply (trimStart_head s).
    assert (Ht : trimStart s
                 = rev (trimStart (rev (trimStart s))) ++ rev r)
      by (by rewrite <- rev_app_distr, <- Hr, rev_involutive).
    rewrite Ht. revert Hc.
    generalize (rev (trimStart (rev (trimStart s)))).
    intros [|x u]; [discriminate|done].
  - intros c Hc. apply (trimStart_head (rev (trimStart s))).
    by rewrite <- last_rev_head.
Qed.

Lemma trim_all_white s :
  Forall (fun c => isWhiteSpace c = true) s -> trim s = [].
Proof.
  intros Hs. unfold trim, trimEnd. by rewrite (trimStart_all s Hs).
Qed.

End TrimFacts.

Section ProcessorFacts.
Context `{Host} (config : Config.t).
Import MessageProcessor.

(** X5. The text a message is processed from is its raw text with the
    white space at both ends cut off and nothing else touched: the raw text
    is white space, then [originalText], then white space, and
    [originalText] neither starts nor ends with white space. Unless it is
    longer than the limit, it is the text that is published. *)
Theorem only_surrounding_white_space_is_cut
    (message : IMessageData.t) (raw : jsstring) :
  IMessageData.text message = Some raw ->
  let p := fst (processMessage config message) in
  (exists l r,
     raw = l ++ ProcessedMessage.originalText p ++ r
     /\ Forall (fun c => isWhiteSpace c = true) l
     /\ Forall (fun c => isWhiteSpace c = true) r)
  /\ (forall c, head (ProcessedMessage.originalText p) = Some c ->
                isWhiteSpace c = false)
  /\ (forall c, last (ProcessedMessage.originalText p) = Some c ->
                isWhiteSpace c = false)
  /\ (ProcessedMessage.wasTruncated p = false ->
      ProcessedMessage.text p = ProcessedMessage.originalText p).
Proof.
  intros Hraw p.
  assert (Ho : ProcessedMessage.originalText p = trim raw).
  { subst p. unfold processMessage. rewrite Hraw.
    destruct (length_gt _ _); destruct (extractMediaPaths message);
      cbv beta iota zeta; destruct (4 <? _)%nat; reflexivity. }
  destruct (trim_split raw) as (l & r & Hs & Hl & Hr & Hh & Ht).
  rewrite Ho. split; [eauto|]. split; [exact Hh|]. split; [exact Ht|].
  subst p. rewrite processMessage_wasTruncated, processMessage_text.
  unfold trimmedText. rewrite Hraw. by intros ->.
Qed.

(** X6. A message whose text is nothing but white space and that has no
    image attachment is processed to an empty text and no media path, and
    is not valid for posting, provided the configured limit is not
    negative. *)
Theorem blank_message_is_not_valid
    (message : IMessageData.t) (raw : jsstring) :
  IMessageData.text message = Some raw ->
  Forall (fun c => isWhiteSpace c = true) raw ->
  omap imagePath (default [] (IMessageData.attachments message)) = [] ->
  length_gt 0 (Config.tweet_maxLength config) = false ->
  let p := fst (processMessage config message) in
  ProcessedMessage.text p = []
  /\ ProcessedMessage.mediaPaths p = []
  /\ ProcessedMessage.wasTruncated p = false
  /\ fst (validateMessage p) = false.
Proof.
  intros Hraw Hwhite Hnone Hlimit p.
  assert (Ht : trimmedText message = []).
  { unfold trimmedText. rewrite Hraw. by apply trim_all_white. }
  assert (Htext : ProcessedMessage.text p = []).
  { subst p. rewrite processMessage_text, Ht.
    change (Z.of_nat (length (@nil N))) with 0. by rewrite Hlimit. }
  assert (Hmedia : ProcessedMessage.mediaPaths p = []).
  { subst p. by rewrite processMessage_mediaPaths, Hnone. }
  split; [exact Htext|]. split; [exact Hmedia|].
  split; [subst p; rewrite processMessage_wasTruncated, Ht; exact Hlimit|].
  unfold validateMessage. by rewrite Htext, Hmedia.
Qed.

(** X7. Degenerate limits. A limit that is not a number (an unparsable
    MAX_TWEET_LENGTH) or is infinite never truncates anything; a limit of 1
    or less replaces every text longer than it by the bare marker. *)
Theorem degenerate_limits (message : IMessageData.t) :
  let p := fst (processMessage config message) in
  (Config.tweet_maxLength config = NaN
   \/ Config.tweet_maxLength config = PosInfinity ->
   ProcessedMessage.text p = trimmedText message
   /\ ProcessedMessage.wasTruncated p = false)
  /\ (forall m,
        Config.tweet_maxLength config = Num m ->
        m <= 1 ->
        m < Z.of_nat (length (trimmedText message)) ->
        ProcessedMessage.text p = truncationMarker
        /\ ProcessedMessage.wasTruncated p = true).
Proof.
  intros p. subst p. rewrite processMessage_text, processMessage_wasTruncated.
  split.
  - by intros [-> | ->].
  - intros m -> Hm Hlen. cbn. apply Z.ltb_lt in Hlen. rewrite Hlen.
    unfold substring0. cbn.
    replace (Z.to_nat (m - 1)) with 0%nat by lia. auto.
Qed.

End ProcessorFacts.

(** X5 on a padded text. *)
Lemma only_surrounding_white_space_is_cut_witness :
  let message := Scripted.message "7" "  a b  " [] in
  let p := fst (@MessageProcessor.processMessage example_host
                  Scripted.config message) in
  ProcessedMessage.originalText p = lit "a b"
  /\ ProcessedMessage.text p = ProcessedMessage.originalText p.
Proof.
  intros message p.
  destruct (@only_surrounding_white_space_is_cut example_host Scripted.config
              message (lit "  a b  ") eq_refl) as (_ & _ & _ & Hkept).
  split; [reflexivity|]. apply Hkept. reflexivity.
Defined.

(** X6 on a text of two spaces and a tab. *)
Lemma blank_message_is_not_valid_witness :
  let message :=
    {| IMessageData.id := lit "7";
       IMessageData.text := Some [32; 32; 9]%N;
       IMessageData.handle_id := lit "1"; IMessageData.date := 0;
       IMessageData.is_from_me := true;
       IMessageData.attachments := Some [] |} in
  let p := fst (@MessageProcessor.processMessage example_host
                  Scripted.config message) in
  ProcessedMessage.text p = []
  /\ ProcessedMessage.mediaPaths p = []
  /\ ProcessedMessage.wasTruncated p = false
  /\ fst (MessageProcessor.validateMessage p) = false.
Proof.
  intros message p.
  apply (@blank_message_is_not_valid example_host Scripted.config message
           [32; 32; 9]%N); try reflexivity.
  repeat constructor.
Defined.

(** X7 on an unparsable limit and on a limit of zero. *)
Lemma degenerate_limits_witness :
  let message := Scripted.message "7" "hello" [] in
  let unparsable :=
    {| Config.imessage_contact := lit "+15550100";
       Config.polling_interval := Num 3000;
       Config.tweet_maxLength := NaN |} in
  let zero :=
    {| Config.imessage_contact := lit "+15550100";
       Config.polling_interval := Num 3000;
       Config.tweet_maxLength := Num 0 |} in
  ProcessedMessage.text
    (fst (@MessageProcessor.processMessage example_host unparsable message))
  = lit "hello"
  /\ ProcessedMessage.text
       (fst (@MessageProcessor.processMessage example_host zero message))
     = MessageProcessor.truncationMarker.
Proof.
  intros message unparsable zero. split.
  - apply (@degenerate_limits example_host unparsable message). by left.
  - apply (proj2 (@degenerate_limits example_host zero message) 0);
      [reflexivity|lia|vm_compute; reflexivity].
Defined.

(** ** twitter-client.ts: MIME types and payloads *)

Section LowerCaseFacts.

Lemma toLowerCase_no_upper s :
  Forall (fun c => isUpperCase c = false) (toLowerCase s).
Proof.
  unfold toLowerCase. apply Forall_fmap, Forall_true. intros c. cbn.
  unfold isUpperCase.
  destruct ((65 <=? c)%N && (c <=? 90)%N) eqn:E; [|exact E].
  apply andb_true_iff in E as [E1 E2].
  apply N.leb_le in E1. apply N.leb_le in E2.
  apply andb_false_iff. right. apply N.leb_gt. lia.
Qed.

Lemma toLowerCase_fixed s :
  Forall (fun c => isUpperCase c = false) s -> toLowerCase s = s.
Proof.
  unfold toLowerCase, isUpperCase. induction 1 as [|c s Hc _ IH]; [reflexivity|].
  cbn. rewrite Hc. f_equal. exact IH.
Qed.

Lemma toLowerCase_idempotent s : toLowerCase (toLowerCase s) = toLowerCase s.
Proof. apply toLowerCase_fixed, toLowerCase_no_upper. Qed.

End LowerCaseFacts.

Section TwitterMediaFacts.
Import TwitterMedia.

Lemma split_on_Forall (P : N -> Prop) sep s :
  Forall P s -> Forall (Forall P) (split_on sep s).
Proof.
  induction 1 as [|c s Hc Hs IH]; cbn; [by repeat constructor|].
  destruct (c =? sep)%N; [by constructor|].
  destruct (split_on sep s) as [|segment rest]; [by repeat constructor|].
  inversion IH; subst. by repeat constructor.
Qed.

Lemma split_on_last sep s : is_Some (last (split_on sep s)).
Proof.
  induction s as [|c s [seg IH]]; cbn; [by eexists|].
  destruct (c =? sep)%N.
  - exists seg. destruct (split_on sep s); [discriminate|exact IH].
  - destruct (split_on sep s) as [|segment [|x rest]]; [discriminate| |];
      cbn in *; eauto.
Qed.

(** The extension [getMimeType] looks up has no capital letter. *)
Lemma extension_no_upper filePath :
  Forall (fun c => isUpperCase c = false)
    (default [] (last (split_on 46 (toLowerCase filePath)))).
Proof.
  destruct (last (split_on 46 (toLowerCase filePath))) as [seg|] eqn:E;
    [|constructor].
  pose proof (split_on_Forall _ 46 _ (toLowerCase_no_upper filePath)) as HF.
  rewrite Forall_forall in HF. apply HF. cbn.
  by eapply last_Some_elem_of.
Qed.

Lemma no_upper_forallb key :
  Forall (fun c => isUpperCase c = false) key ->
  forallb (fun c => negb (isUpperCase c)) key = true.
Proof. induction 1 as [|c s Hc _ IH]; [reflexivity|]. cbn. by rewrite Hc. Qed.

Lemma lowercase_inherited_name key :
  Forall (fun c => isUpperCase c = false) key ->
  key ∈ inherited_names ->
  key = lit "constructor" \/ key = lit "__proto__".
Proof.
  intros Hlow Hin. apply no_upper_forallb in Hlow.
  unfold inherited_names in Hin. cbn [fmap list_fmap] in Hin.
  repeat (apply elem_of_cons in Hin as [-> | Hin];
          [first [by left | by right
                 | exfalso; vm_compute in Hlow; discriminate Hlow]|]).
  by apply elem_of_nil in Hin.
Qed.

Lemma mimeTypes_get_own key s :
  snd <$> find (fun e => bool_decide (fst e = key)) mimeTypes = Some s ->
  s ∈ [lit "image/jpeg"; lit "image/png"; lit "image/gif"; lit "image/webp"]
  /\ key ∈ fst <$> mimeTypes.
Proof.
  destruct (find _ mimeTypes) as [e|] eqn:E; [|discriminate].
  intros [= <-]. apply find_some in E as [Hin Hkey].
  apply bool_decide_eq_true in Hkey. subst key.
  apply list_elem_of_In in Hin. split; [|by apply list_elem_of_fmap_2].
  unfold mimeTypes in Hin.
  repeat (apply elem_of_cons in Hin as [-> | Hin];
          [cbn [snd]; rewrite !elem_of_cons; tauto|]).
  by apply elem_of_nil in Hin.
Qed.

Lemma mimeTypes_get_not_own key :
  find (fun e => bool_decide (fst e = key)) mimeTypes = None ->
  key ∉ fst <$> mimeTypes.
Proof.
  intros E Hin. apply list_elem_of_fmap in Hin as (e & -> & He).
  apply list_elem_of_In in He.
  pose proof (find_none _ _ E e He) as Hno. cbn in Hno.
  by apply bool_decide_eq_false in Hno.
Qed.

(** X8. [getMimeType] goes by the part of the lower-cased path after its
    last dot. It gives image/jpeg, image/png, image/gif or image/webp, and
    image/jpeg when the extension is none of jpg, jpeg, png, gif, webp;
    the case of the letters does not matter. The exceptions are the
    extensions [constructor] and [__proto__]: the lookup then finds what
    the object literal inherits, and the result is not a string. *)
Theorem getMimeType_by_extension (filePath : jsstring) :
  let key := default [] (last (split_on 46 (toLowerCase filePath))) in
  (key = lit "constructor" \/ key = lit "__proto__" ->
   getMimeType filePath = InheritedValue key)
  /\ (key <> lit "constructor" -> key <> lit "__proto__" ->
      exists s,
        getMimeType filePath = MimeString s
        /\ s ∈ [lit "image/jpeg"; lit "image/png"; lit "image/gif";
                lit "image/webp"]
        /\ (key ∉ fst <$> mimeTypes -> s = lit "image/jpeg"))
  /\ getMimeType (toLowerCase filePath) = getMimeType filePath.
Proof.
  intros key. split; [|split].
  - unfold getMimeType. fold key. intros [-> | ->]; reflexivity.
  - intros Hc Hp. unfold getMimeType, mimeTypes_get. fold key.
    destruct (snd <$> find _ mimeTypes) as [s|] eqn:E.
    + destruct (mimeTypes_get_own key s E) as [Hs Hown].
      exists s. split; [reflexivity|]. split; [exact Hs|]. by intros [].
    + case_bool_decide as Hin.
      * destruct (lowercase_inherited_name key (extension_no_upper filePath) Hin);
          contradiction.
      * exists (lit "image/jpeg"). split; [reflexivity|].
        split; [apply list_elem_of_here|reflexivity].
  - unfold getMimeType. by rewrite toLowerCase_idempotent.
Qed.

End TwitterMediaFacts.

(** X8 on an upper-case extension, on a file without one, and on the two
    extensions that are names of inherited properties. *)
Lemma getMimeType_by_extension_witness :
  TwitterMedia.getMimeType (lit "/tmp/IMG_1.PNG")
  = TwitterMedia.MimeString (lit "image/png")
  /\ TwitterMedia.getMimeType (lit "/tmp/photo")
     = TwitterMedia.MimeString (lit "image/jpeg")
  /\ TwitterMedia.getMimeType (lit "/tmp/a.constructor")
     = TwitterMedia.InheritedValue (lit "constructor").
Proof.
  split; [reflexivity|]. split; [reflexivity|].
  destruct (getMimeType_by_extension (lit "/tmp/a.constructor")) as [Hi _].
  apply Hi. left. reflexivity.
Defined.

Section PostTweetFacts.
Context {World : Type} `{External World}.

(** X9. Whatever text and media ids [postTweet] is called with, the payload
    it sends has a text that is not empty (the caller's text, or one space
    when that is empty) and never an empty list of media ids; the id of
    the tweet is passed back, and a failure of the API comes back as an
    error whose message starts with [Tweet posting failed: ]. *)
Theorem postTweet_never_sends_an_empty_payload
    (text : jsstring) (mediaIds : option (list jsstring)) :
  exists payload,
    TweetPayload.text payload <> []
    /\ TweetPayload.text payload = (if truthy text then text else lit " ")
    /\ TweetPayload.media_ids payload <> Some []
    /\ (forall ids, mediaIds = Some ids -> ids <> [] ->
        TweetPayload.media_ids payload = Some ids)
    /\ forall w,
         fst (TwitterClient.postTweet text mediaIds w)
         = fst (v2_tweet payload w)
         /\ match snd (v2_tweet payload w) with
            | inr tweetId =>
                snd (TwitterClient.postTweet text mediaIds w) = inr tweetId
            | inl (Error message) =>
                snd (TwitterClient.postTweet text mediaIds w)
                = inl (Error ("Tweet posting failed: " ++ message))
            end.
Proof.
  exists {| TweetPayload.text := if truthy text then text else lit " ";
            TweetPayload.media_ids :=
              match mediaIds with
              | Some ids => if (0 <? length ids)%nat then Some ids else None
              | None => None
              end |}.
  split; [|split; [reflexivity|split; [|split]]].
  - cbn. destruct text; discriminate.
  - cbn. destruct mediaIds as [[|x ids]|]; discriminate.
  - intros ids -> Hids. cbn. destruct ids; [contradiction|reflexivity].
  - intros w. unfold TwitterClient.postTweet.
    destruct (v2_tweet _ w) as [w' [[message]|tweetId]]; cbn; auto.
Qed.

End PostTweetFacts.

(** ** image-converter.ts *)

Section ImageConverterFacts.
Context `{Host} {Files : Type} `{ImageHost Files}.
Import ImageConverter.

(** X10. When [processImage] returns a path, the expanded path existed; the
    result is either the expanded path itself, for a file that is not
    HEIC/HEIF by its extension, and then the file system is as it was, or
    the [.jpg] file in the temp directory named after the input's base
    name, and then the file system differs by the one write of the
    converted bytes to that file. The input file is never written. *)
Theorem processImage_result (imagePath : jsstring) (fs fs' : Files)
    (result : jsstring) :
  processImage imagePath fs = (fs', inr result) ->
  existsSync (expandPath imagePath) fs = true
  /\ (needsConversion imagePath = false
      /\ result = expandPath imagePath /\ fs' = fs
      \/ needsConversion imagePath = true
         /\ result = join tempDir
                       (basename imagePath (extname imagePath) ++ lit ".jpg")
         /\ exists input output,
              readFileSync (expandPath imagePath) fs = inr input
              /\ heic_convert input = inr output
              /\ writeFileSync result output fs = (fs', inr tt)).
Proof.
  unfold processImage.
  destruct (existsSync (expandPath imagePath) fs); cbn [negb]; [|discriminate].
  intros Hrun. split; [reflexivity|].
  destruct (needsConversion imagePath).
  - right. split; [reflexivity|]. revert Hrun. unfold convertToJpeg.
    destruct (readFileSync _ fs) as [e|input] eqn:Hr; [discriminate|].
    destruct (heic_convert input) as [e|output] eqn:Hc; [discriminate|].
    destruct (writeFileSync _ output fs) as [fs'' [e|[]]] eqn:Hw;
      [discriminate|].
    intros [= <- <-]. split; [reflexivity|]. eauto.
  - left. injection Hrun as <- <-. auto.
Qed.

(** X11. When [processImage] fails, either the expanded path does not
    exist, the message of the error is [Image file not found: ] followed
    by that path, and nothing was read, converted or written; or the file
    is HEIC/HEIF by its extension and the error is the conversion's, its
    message prefixed with [HEIC conversion failed: ]; the file system has
    changed only if the write of the output was what failed. *)
Theorem processImage_failure (imagePath : jsstring) (fs fs' : Files)
    (e : js_error) :
  processImage imagePath fs = (fs', inl e) ->
  existsSync (expandPath imagePath) fs = false
  /\ e = JsError (lit "Image file not found: " ++ expandPath imagePath)
  /\ fs' = fs
  \/ existsSync (expandPath imagePath) fs = true
     /\ needsConversion imagePath = true
     /\ (exists message,
           e = JsError (lit "HEIC conversion failed: " ++ message))
     /\ (fs' = fs
         \/ exists input output path er,
              readFileSync (expandPath imagePath) fs = inr input
              /\ heic_convert input = inr output
              /\ writeFileSync path output fs = (fs', inl er)).
Proof.
  unfold processImage.
  destruct (existsSync (expandPath imagePath) fs); cbn [negb].
  - intros Hrun. right. split; [reflexivity|].
    destruct (needsConversion imagePath); [|discriminate].
    split; [reflexivity|]. revert Hrun. unfold convertToJpeg.
    destruct (readFileSync _ fs) as [[m]|input] eqn:Hr.
    { intros [= <- <-]. eauto. }
    destruct (heic_convert input) as [[m]|output] eqn:Hc.
    { intros [= <- <-]. eauto. }
    destruct (writeFileSync _ output fs) as [fs'' [[m]|[]]] eqn:Hw;
      [|discriminate].
    intros [= <- <-]. split; [eauto|]. right. eauto 10.
  - intros [= <- <-]. left. auto.
Qed.

End ImageConverterFacts.

Section ExpandFacts.
Context `{Host} (config : Config.t).

Lemma expandPath_fixed (p : jsstring) :
  (forall rest, p <> 126%N :: rest) -> ImageConverter.expandPath p = p.
Proof.
  destruct p as [|x rest]; [reflexivity|]. intros Hne.
  unfold ImageConverter.expandPath. destruct x as [|q]; [reflexivity|].
  do 7 (destruct q as [q|q|]; try reflexivity).
  exfalso. by apply (Hne rest).
Qed.

Lemma expandHome_fixed (p : jsstring) :
  (forall rest, p <> 126%N :: rest) -> MessageProcessor.expandHome p = p.
Proof.
  destruct p as [|x rest]; [reflexivity|]. intros Hne.
  unfold MessageProcessor.expandHome. destruct x as [|q]; [reflexivity|].
  do 7 (destruct q as [q|q|]; try reflexivity).
  exfalso. by apply (Hne rest).
Qed.

(** X12. When the home directory is not empty and does not itself start
    with a tilde, every media path that [processMessage] hands over is
    already expanded: the converter's [expandPath] leaves it as it is, so
    the converter checks, reads and returns the very path the pipeline
    logged. *)
Theorem media_paths_are_already_expanded
    (message : IMessageData.t) (c : N) (mediaPath : jsstring) :
  head homedir = Some c ->
  c <> 126%N ->
  mediaPath ∈ ProcessedMessage.mediaPaths
                (fst (MessageProcessor.processMessage config message)) ->
  ImageConverter.expandPath mediaPath = mediaPath
  /\ mediaPath <> [].
Proof.
  intros Hhome Hc Hin.
  rewrite processMessage_mediaPaths in Hin.
  apply (subseteq_take 4) in Hin.
  apply list_elem_of_omap in Hin as (a & _ & Ha).
  unfold imagePath in Ha. destruct (isSupportedImage a); [|discriminate].
  destruct (or_else _ _) as [path|]; [|discriminate].
  destruct (truthy path) eqn:Hpath; [|discriminate].
  injection Ha as <-.
  destruct homedir as [|c' home] eqn:Ehome; [discriminate|].
  injection Hhome as ->.
  destruct path as [|x rest]; [discriminate|].
  destruct (decide (x = 126%N)) as [->|Hx].
  - change (MessageProcessor.expandHome (126%N :: rest))
      with (homedir ++ rest).
    rewrite Ehome. split; [|done].
    apply expandPath_fixed. intros rest' E. cbn in E. apply Hc.
    by injection E.
  - assert (Hne : forall rest', x :: rest <> 126%N :: rest').
    { intros rest' E. apply Hx. by inversion E. }
    rewrite (expandHome_fixed _ Hne). split; [|done].
    by apply expandPath_fixed.
Qed.

End ExpandFacts.

(** X10 on a HEIC file under the home directory. *)
Lemma processImage_result_witness :
  let fs := ScriptedFiles.one_heic in
  let run := @ImageConverter.processImage example_host _ ScriptedFiles.host
               (lit "~/Pictures/a.HEIC") fs in
  snd run = inr (lit "/app/.temp-images/a.jpg")
  /\ @ImageConverter.needsConversion _ ScriptedFiles.host
       (lit "~/Pictures/a.HEIC") = true
  /\ fst run = (lit "/app/.temp-images/a.jpg", [255; 216; 1; 2; 3]%N) :: fs.
Proof.
  intros fs run.
  destruct (@processImage_result example_host _ ScriptedFiles.host
              (lit "~/Pictures/a.HEIC") fs (fst run)
              (lit "/app/.temp-images/a.jpg") eq_refl)
    as (_ & [(Hno & _)|(Hyes & _ & _)]).
  - discriminate Hno.
  - split; [reflexivity|]. split; [exact Hyes|reflexivity].
Defined.

(** X11 on a file that is not there. *)
Lemma processImage_failure_witness :
  let fs := ScriptedFiles.one_heic in
  @ImageConverter.processImage example_host _ ScriptedFiles.host
    (lit "~/Pictures/b.png") fs
  = (fs, inl (JsError (lit "Image file not found: /Users/me/Pictures/b.png"))).
Proof.
  intros fs.
  destruct (@processImage_failure example_host _ ScriptedFiles.host
              (lit "~/Pictures/b.png") fs fs
              (JsError (lit "Image file not found: /Users/me/Pictures/b.png"))
              eq_refl) as [(_ & _ & _)|(Hexists & _)].
  - reflexivity.
  - discriminate Hexists.
Defined.

(** X12 on an attachment stored with a tilde. *)
Lemma media_paths_are_already_expanded_witness :
  let message :=
    Scripted.message "7" "look" [Scripted.attachment "image/png" "~/Pictures/x.png"] in
  @ImageConverter.expandPath example_host (lit "/Users/me/Pictures/x.png")
  = lit "/Users/me/Pictures/x.png"
  /\ lit "/Users/me/Pictures/x.png" <> [].
Proof.
  intros message.
  apply (@media_paths_are_already_expanded example_host Scripted.config
           message 47%N (lit "/Users/me/Pictures/x.png"));
    [reflexivity|discriminate|].
  vm_compute. constructor.
Defined.

(** ** The poll loop: ledger replay, posts, idle cycles *)

Section ReplayFacts.
Context `{Host} {World : Type}.

Lemma ledger_events_app l1 l2 :
  ledger_events (l1 ++ l2) = ledger_events l1 ++ ledger_events l2.
Proof. apply omap_app. Qed.

Lemma resolutions_ledger_events l : resolutions l = snd <$> ledger_events l.
Proof.
  induction l as [|ev l IH]; [reflexivity|].
  unfold resolutions, ledger_events in *.
  destruct ev; cbn [omap list_omap]; cbn [fmap list_fmap snd];
    rewrite ?IH; reflexivity.
Qed.

Lemma replays_same (st st' : state World) l :
  cache st' = cache st -> ledger_events l = [] -> replays st st' l.
Proof. intros Hc Hl. exists []. by rewrite Hl. Qed.

Lemma replays_trans (st1 st2 st3 : state World) l1 l2 :
  replays st1 st2 l1 -> replays st2 st3 l2 -> replays st1 st3 (l1 ++ l2).
Proof.
  intros (ms1 & Hc1 & Hl1) (ms2 & Hc2 & Hl2). exists (ms1 ++ ms2). split.
  - rewrite Hc2, Hc1. unfold MessageCache.after_marks. by rewrite fold_left_app.
  - by rewrite fmap_app, ledger_events_app, Hl1, Hl2.
Qed.

Lemma Replays_ret {A} (a : A) : Replays (World:=World) (ret a).
Proof. intros st. by apply replays_same. Qed.

Lemma Replays_get : Replays (World:=World) get.
Proof. intros st. by apply replays_same. Qed.

Lemma Replays_emit ev :
  ledger_events [ev] = [] -> Replays (World:=World) (emit ev).
Proof. intros Hev st. by apply replays_same. Qed.

Lemma Replays_modify (f : state World -> state World) :
  (forall st, cache (f st) = cache st) -> Replays (modify f).
Proof. intros Hf st. apply replays_same; [apply Hf|reflexivity]. Qed.

Lemma Replays_process_exit {A} code :
  Replays (World:=World) (process_exit (A:=A) code).
Proof. intros st. by apply replays_same. Qed.

Lemma Replays_call {A} (op : World -> World * (error + A)) ev :
  (forall r, ledger_events (ev r) = []) -> Replays (call op ev).
Proof.
  intros Hev st. unfold call. destruct (op (world st)) as [w r]. cbn.
  apply replays_same; [reflexivity|apply Hev].
Qed.

Lemma Replays_bind {A B} (m : M World A) (f : A -> M World B) :
  Replays m -> (forall a, Replays (f a)) -> Replays (bind m f).
Proof.
  intros Hm Hf st. unfold bind. specialize (Hm st).
  destruct (m st) as [[a|e|c] st1 l1]; cbn in *; [|exact Hm|exact Hm].
  eapply replays_trans; [exact Hm|apply Hf].
Qed.

Lemma Replays_try_catch {A} (m : M World A) h :
  Replays m -> (forall e, Replays (h e)) -> Replays (try_catch m h).
Proof.
  intros Hm Hh st. unfold try_catch. specialize (Hm st).
  destruct (m st) as [[a|e|c] st1 l1]; cbn in *; [exact Hm| |exact Hm].
  eapply replays_trans; [exact Hm|apply Hh].
Qed.

Lemma Replays_for_of {A S} (l : list A) (body : S -> A -> M World S) s :
  (forall s x, Replays (body s x)) -> Replays (for_of l body s).
Proof.
  intros Hbody. revert s. induction l as [|x l IH]; intros s; cbn.
  - apply Replays_ret.
  - apply Replays_bind; [apply Hbody|exact IH].
Qed.

End ReplayFacts.

Section DaemonReplay.
Context `{Host} {World : Type} `{External World} (config : Config.t).

Lemma Replays_markAsProcessed i :
  Replays (IMessageMonitor.markAsProcessed i).
Proof.
  intros st. unfold IMessageMonitor.markAsProcessed.
  destruct (save_environment (world st)) as [w env].
  by exists [MessageCache.MarkProcessed env i].
Qed.

Lemma Replays_markAsFailed i : Replays (IMessageMonitor.markAsFailed i).
Proof.
  intros st. unfold IMessageMonitor.markAsFailed.
  destruct (save_environment (world st)) as [w env].
  by exists [MessageCache.MarkFailed env i].
Qed.

Lemma Replays_console (lines : list console) :
  Replays (World:=World) (for_of lines (fun _ line => emit (Console line)) tt).
Proof. apply Replays_for_of. intros _ line. by apply Replays_emit. Qed.

Lemma Replays_getMessageAttachments rowid :
  Replays (IMessageMonitor.getMessageAttachments rowid).
Proof.
  unfold IMessageMonitor.getMessageAttachments.
  apply Replays_bind; [apply Replays_get|]. intros st.
  destruct (negb (db st)); [apply Replays_ret|].
  apply Replays_try_catch; [|intros; apply Replays_ret].
  apply Replays_bind; [by apply Replays_call|]. intros; apply Replays_ret.
Qed.

Lemma Replays_getNewMessages : Replays IMessageMonitor.getNewMessages.
Proof.
  unfold IMessageMonitor.getNewMessages.
  apply Replays_bind; [apply Replays_get|]. intros st.
  destruct (db st), (targetHandleId st); try apply Replays_ret.
  apply Replays_try_catch; [|intros; apply Replays_ret].
  apply Replays_bind; [by apply Replays_call|]. intros rows.
  apply Replays_for_of. intros acc msg.
  unfold IMessageMonitor.getNewMessages_step, IMessageMonitor.isProcessed.
  apply Replays_bind.
  { apply Replays_bind; [apply Replays_get|]. intros; apply Replays_ret. }
  intros b. destruct (negb b); [|apply Replays_ret].
  apply Replays_bind; [apply Replays_getMessageAttachments|].
  intros; apply Replays_ret.
Qed.

Lemma Replays_upload_step record ids path :
  Replays (Daemon.upload_step record ids path).
Proof.
  unfold Daemon.upload_step. apply Replays_try_catch.
  - apply Replays_bind; [by apply Replays_call|]. intros p.
    apply Replays_bind; [by apply Replays_call|]. intros; apply Replays_ret.
  - intros _. apply Replays_bind; [by apply Replays_emit|].
    intros; apply Replays_ret.
Qed.

Lemma Replays_process_record raw : Replays (Daemon.process_record config raw).
Proof.
  unfold Daemon.process_record. apply Replays_try_catch.
  2:{ intros _. apply Replays_bind; [by apply Replays_emit|].
      intros; apply Replays_markAsFailed. }
  destruct (MessageProcessor.processMessage config raw) as [p out1].
  destruct (MessageProcessor.validateMessage p) as [valid out2].
  apply Replays_bind; [apply Replays_console|]. intros _.
  destruct (negb valid); [apply Replays_markAsProcessed|].
  apply Replays_bind.
  { destruct (0 <? length (ProcessedMessage.mediaPaths p))%nat;
      [|apply Replays_ret].
    apply Replays_for_of. intros; apply Replays_upload_step. }
  intros ids.
  destruct ((0 <? length (ProcessedMessage.mediaPaths p))%nat
            && (length ids =? 0)%nat && negb (truthy (ProcessedMessage.text p))).
  - apply Replays_bind; [by apply Replays_emit|].
    intros; apply Replays_markAsProcessed.
  - apply Replays_bind; [by apply Replays_call|]. intros _.
    apply Replays_bind; [apply Replays_markAsProcessed|]. intros _.
    by apply Replays_modify.
Qed.

Lemma Replays_shutdown : Replays (World:=World) Daemon.shutdown.
Proof.
  unfold Daemon.shutdown. apply Replays_bind; [apply Replays_get|]. intros st.
  destruct (isShuttingDown st); [apply Replays_ret|].
  apply Replays_bind; [by apply Replays_modify|]. intros _.
  apply Replays_bind; [|intros; apply Replays_process_exit].
  unfold IMessageMonitor.close.
  apply Replays_bind; [apply Replays_get|]. intros st'.
  destruct (db st'); [by apply Replays_modify|apply Replays_ret].
Qed.

Lemma Replays_cycle : Replays (Daemon.cycle config).
Proof.
  unfold Daemon.cycle. apply Replays_try_catch.
  - apply Replays_bind; [apply Replays_getNewMessages|]. intros batch.
    apply Replays_bind; [|intros; by apply Replays_emit].
    apply Replays_for_of. intros _ raw. apply Replays_process_record.
  - intros e. unfold Daemon.on_cycle_error.
    apply Replays_bind; [by apply Replays_modify|]. intros _.
    apply Replays_bind; [apply Replays_get|]. intros st.
    apply Replays_bind; [by apply Replays_emit|]. intros _.
    apply Replays_bind; [|intros; by apply Replays_emit].
    destruct (Daemon.MAX_CONSECUTIVE_ERRORS <=? consecutiveErrors st);
      [apply Replays_shutdown|apply Replays_ret].
Qed.

Lemma Replays_main_loop cycles : Replays (Daemon.main_loop config cycles).
Proof.
  induction cycles as [|n IH]; cbn [Daemon.main_loop]; [apply Replays_ret|].
  apply Replays_bind; [apply Replays_get|]. intros st.
  destruct (isShuttingDown st); [apply Replays_ret|].
  apply Replays_bind; [apply Replays_cycle|]. intros _. exact IH.
Qed.

(** X13. Whatever the loop does, the ledger changes by the marking calls
    alone: after any number of cycles the cache is the starting cache with
    the logged [markAsProcessed] and [markAsFailed] calls applied, in the
    order of the log. *)
Theorem ledger_is_the_replay_of_the_marks cycles (st : state World) :
  let r := Daemon.main_loop config cycles st in
  exists ms,
    cache (final r) = MessageCache.after_marks (cache st) ms
    /\ (fun m => (mark_fails m, mark_id m)) <$> ms = ledger_events (log r).
Proof. apply Replays_main_loop. Qed.

End DaemonReplay.

Section AlwaysFacts.
Context {World : Type} (P : event -> Prop).

Lemma Always_ret {A} (a : A) : Always (World:=World) P (ret a).
Proof. intros st. constructor. Qed.

Lemma Always_get : Always (World:=World) P get.
Proof. intros st. constructor. Qed.

Lemma Always_modify (f : state World -> state World) : Always P (modify f).
Proof. intros st. constructor. Qed.

Lemma Always_process_exit {A} code :
  P (ProcessExit code) -> Always (World:=World) P (process_exit (A:=A) code).
Proof. intros Hev st. by repeat constructor. Qed.

Lemma Always_emit ev : P ev -> Always (World:=World) P (emit ev).
Proof. intros Hev st. by repeat constructor. Qed.

Lemma Always_call {A} (op : World -> World * (error + A)) ev :
  (forall r, Forall P (ev r)) -> Always P (call op ev).
Proof.
  intros Hev st. unfold call. destruct (op (world st)) as [w r]. apply Hev.
Qed.

Lemma Always_bind {A B} (m : M World A) (f : A -> M World B) :
  Always P m -> (forall a, Always P (f a)) -> Always P (bind m f).
Proof.
  intros Hm Hf st. unfold bind. specialize (Hm st).
  destruct (m st) as [[a|e|c] st1 l1]; cbn in *; [|exact Hm|exact Hm].
  apply Forall_app. split; [exact Hm|apply Hf].
Qed.

Lemma Always_try_catch {A} (m : M World A) h :
  Always P m -> (forall e, Always P (h e)) -> Always P (try_catch m h).
Proof.
  intros Hm Hh st. unfold try_catch. specialize (Hm st).
  destruct (m st) as [[a|e|c] st1 l1]; cbn in *; [exact Hm| |exact Hm].
  apply Forall_app. split; [exact Hm|apply Hh].
Qed.

Lemma Always_for_of {A S} (l : list A) (body : S -> A -> M World S) s :
  (forall s x, Always P (body s x)) -> Always P (for_of l body s).
Proof.
  intros Hbody. revert s. induction l as [|x l IH]; intros s; cbn.
  - apply Always_ret.
  - apply Always_bind; [apply Hbody|exact IH].
Qed.

End AlwaysFacts.

Section DaemonAlways.
Context `{Host} {World : Type} `{External World} (config : Config.t).

(** Whatever holds of every event of every record's run, of the sleeps and
    of the guard's reports, holds of every event of the loop. *)
Lemma Always_main_loop (P : event -> Prop) cycles :
  (forall raw, Always P (Daemon.process_record config raw)) ->
  (forall ms, P (Sleep ms)) ->
  (forall n, P (ErrorInMainLoop n)) ->
  (forall code, P (ProcessExit code)) ->
  Always P (Daemon.main_loop config cycles).
Proof.
  intros Hrecord Hsleep Hguard Hexit.
  assert (Always P (Daemon.cycle config)) as Hcycle.
  { unfold Daemon.cycle. apply Always_try_catch.
    - apply Always_bind.
      { intros st. destruct (getNewMessages_run st) as (_ & -> & _).
        constructor. }
      intros batch. apply Always_bind; [|intros; by apply Always_emit].
      apply Always_for_of. intros _ raw. apply Hrecord.
    - intros e. unfold Daemon.on_cycle_error.
      apply Always_bind; [apply Always_modify|]. intros _.
      apply Always_bind; [apply Always_get|]. intros st.
      apply Always_bind; [by apply Always_emit|]. intros _.
      apply Always_bind; [|intros; by apply Always_emit].
      destruct (Daemon.MAX_CONSECUTIVE_ERRORS <=? consecutiveErrors st);
        [|apply Always_ret].
      unfold Daemon.shutdown. apply Always_bind; [apply Always_get|].
      intros st'. destruct (isShuttingDown st'); [apply Always_ret|].
      apply Always_bind; [apply Always_modify|]. intros _.
      apply Always_bind; [|intros; by apply Always_process_exit].
      unfold IMessageMonitor.close. apply Always_bind; [apply Always_get|].
      intros st''. destruct (db st''); [apply Always_modify|apply Always_ret]. }
  induction cycles as [|n IH]; cbn [Daemon.main_loop]; [apply Always_ret|].
  apply Always_bind; [apply Always_get|]. intros st.
  destruct (isShuttingDown st); [apply Always_ret|].
  apply Always_bind; [apply Hcycle|]. intros _. exact IH.
Qed.

Lemma no_post_has_content (l : list event) :
  post_calls l = [] -> Forall (fun ev => post_has_content ev = true) l.
Proof.
  induction l as [|ev l IH]; [constructor|].
  destruct ev; cbn; intros Hl; try discriminate; constructor; auto.
Qed.

Lemma process_record_has_content raw :
  Always (fun ev => post_has_content ev = true)
         (Daemon.process_record config raw).
Proof.
  intros st.
  destruct (process_record_run config raw st) as (_ & _ & _ & Hlog).
  destruct (upload_loop_run (IMessageData.id raw)
              (ProcessedMessage.mediaPaths
                 (fst (MessageProcessor.processMessage config raw))) [] st)
    as (_ & _ & _ & _ & Hposts & _).
  apply no_post_has_content in Hposts.
  cbv zeta in Hlog.
  assert (forall lines : list console,
            Forall (fun ev => post_has_content ev = true) (Console <$> lines))
    as Hlines.
  { intros lines. apply Forall_fmap, Forall_true. reflexivity. }
  assert (forall (text : jsstring) (ids : list jsstring),
            truthy text = true \/ ids <> [] ->
            truthy text
            || match (if (0 <? length ids)%nat then Some ids else None) with
               | Some (_ :: _) => true
               | _ => false
               end = true) as Hcontent.
  { intros text ids [-> | Hids]; [reflexivity|].
    destruct ids; [done|]. cbn. by rewrite orb_true_r. }
  destruct Hlog as [(_ & _ & ->) | [(Hc & tweetId & ->) | (Hc & e & ->)]];
    rewrite !Forall_app; (split; [apply Hlines|]); (split; [exact Hposts|]).
  - destruct (0 <? _)%nat; repeat constructor.
  - repeat constructor. cbn [post_has_content]. by apply Hcontent.
  - repeat constructor. cbn [post_has_content]. by apply Hcontent.
Qed.

(** X14. The daemon never posts an empty tweet: in any number of cycles,
    from any state and whatever the database, the converter and the
    platform answer, every call of [postTweet] carries a non-empty text or
    at least one uploaded media id. *)
Theorem every_post_has_content cycles (st : state World) :
  Forall (fun ev => post_has_content ev = true)
         (log (Daemon.main_loop config cycles st)).
Proof.
  apply Always_main_loop; [apply process_record_has_content|done..].
Qed.

End DaemonAlways.

Section RecordOutcome.
Context `{Host} {World : Type} `{External World} (config : Config.t).

Lemma ledger_events_nil (l : list event) :
  resolutions l = [] -> ledger_events l = [].
Proof.
  rewrite resolutions_ledger_events. apply fmap_nil_inv.
Qed.

Lemma isFailed_single_mark c m :
  MessageCache.isFailed (MessageCache.apply_mark c m) (mark_id m)
  = mark_fails m.
Proof.
  destruct m as [env i|env i]; cbn;
    unfold MessageCache.isFailed; cbn.
  - apply bool_decide_eq_false. intros Hin.
    apply elem_of_difference in Hin as [_ Hnot].
    apply Hnot. by apply elem_of_singleton.
  - apply bool_decide_eq_true. apply elem_of_union_r. by apply elem_of_singleton.
Qed.

(** X15. However a record's run goes, and whatever the ledger held of it
    before, the record ends in the failed set exactly when its post call
    threw: a skipped record and a posted one are not failed, and failed
    attachments alone never make a record failed. *)
Theorem record_is_failed_exactly_when_its_post_throws raw (st : state World) :
  let record := IMessageData.id raw in
  let r := Daemon.process_record config raw st in
  MessageCache.isFailed (cache (final r)) record = true
  <-> exists text mediaIds e,
        PostTweet record text mediaIds (inl e) ∈ log r.
Proof.
  intros record r.
  destruct (Replays_process_record config raw st) as (ms & Hcache & Hms).
  fold r in Hcache, Hms.
  destruct (process_record_run config raw st) as (_ & _ & _ & Hlog).
  destruct (upload_loop_run record
              (ProcessedMessage.mediaPaths
                 (fst (MessageProcessor.processMessage config raw))) [] st)
    as (_ & _ & _ & _ & Hposts & Hres & _).
  cbv zeta in Hlog. fold record r in Hlog.
  set (lines := snd (MessageProcessor.processMessage config raw) ++ _) in Hlog.
  set (u := for_of _ _ _ _) in *.
  assert (ledger_events (Console <$> lines) = []) as Hlines.
  { apply ledger_events_nil, views_of_console. }
  apply ledger_events_nil in Hres.
  assert (forall text mediaIds e,
            PostTweet record text mediaIds (inl e) ∉ (Console <$> lines) ++ log u)
    as Hnone.
  { intros text mediaIds e Hin. apply elem_of_app in Hin as [Hin|Hin].
    - apply list_elem_of_fmap in Hin as (line & Hline & _). discriminate.
    - apply elem_of_post_calls in Hin. rewrite Hposts in Hin.
      by apply elem_of_nil in Hin. }
  assert (forall b tail,
            log r = (Console <$> lines) ++ log u ++ tail ->
            ledger_events tail = [(b, record)] ->
            MessageCache.isFailed (cache (final r)) record = b) as Hlast.
  { intros b tail Hl Htail. rewrite Hl, !ledger_events_app in Hms.
    rewrite Hlines, Hres, Htail in Hms. cbn [app] in Hms.
    destruct ms as [|m [|m' ms]]; try discriminate.
    injection Hms as Hb Hi. rewrite Hcache. cbn.
    rewrite <- Hi, <- Hb. apply isFailed_single_mark. }
  destruct Hlog as [(_ & _ & Hl) | [(_ & tweetId & Hl) | (_ & e & Hl)]].
  - rewrite (Hlast false _ Hl) by (by destruct (0 <? _)%nat).
    split; [discriminate|]. intros (text & mediaIds & e & Hin).
    rewrite Hl, app_assoc in Hin. apply elem_of_app in Hin as [Hin|Hin].
    + by apply Hnone in Hin.
    + destruct (0 <? _)%nat; cbn in Hin;
        repeat (apply elem_of_cons in Hin as [Hin|Hin]; [discriminate|]);
        by apply elem_of_nil in Hin.
  - rewrite (Hlast false _ Hl) by reflexivity.
    split; [discriminate|]. intros (text & mediaIds & e & Hin).
    rewrite Hl, app_assoc in Hin. apply elem_of_app in Hin as [Hin|Hin].
    + by apply Hnone in Hin.
    + repeat (apply elem_of_cons in Hin as [Hin|Hin]; [discriminate|]).
      by apply elem_of_nil in Hin.
  - rewrite (Hlast true _ Hl) by reflexivity.
    split; [|reflexivity]. intros _. eexists _, _, e.
    rewrite Hl, app_assoc. apply elem_of_app. right. by left.
Qed.

End RecordOutcome.

Section LoopShape.
Context `{Host} {World : Type} `{External World} (config : Config.t).

Lemma lit_inj s1 s2 : lit s1 = lit s2 -> s1 = s2.
Proof.
  unfold lit. intros E.
  rewrite <- (string_of_list_ascii_of_string s1),
          <- (string_of_list_ascii_of_string s2).
  f_equal. revert E. generalize (list_ascii_of_string s1) as l1.
  generalize (list_ascii_of_string s2) as l2.
  induction l2 as [|a2 l2 IH]; intros [|a1 l1] E; try discriminate;
    [reflexivity|].
  cbn in E. injection E as Ea El. f_equal; [|by apply IH].
  by rewrite <- (ascii_N_embedding a1), <- (ascii_N_embedding a2), Ea.
Qed.

Lemma Number_toString_inj z1 z2 :
  Number_toString z1 = Number_toString z2 -> z1 = z2.
Proof. intros E. apply lit_inj in E. by apply (inj pretty) in E. Qed.

Lemma main_loop_down cycles (st : state World) :
  isShuttingDown st = true ->
  Daemon.main_loop config cycles st = Run (Ok tt) st [].
Proof.
  intros Hdown. destruct cycles as [|n]; [reflexivity|].
  cbn [Daemon.main_loop]. rewrite (bind_prepend _ _ st st) by reflexivity.
  cbn [get out final log]. by rewrite prepend_nil, Hdown.
Qed.

Lemma main_loop_unfold n (st : state World) :
  isShuttingDown st = false ->
  Daemon.main_loop config (S n) st
  = prepend (log (Daemon.cycle config st))
            (Daemon.main_loop config n (final (Daemon.cycle config st))).
Proof.
  intros Hdown. cbn [Daemon.main_loop].
  rewrite (bind_prepend _ _ st st) by reflexivity.
  cbn [get out final log]. rewrite prepend_nil, Hdown.
  destruct (cycle_run config st) as (Ho & _).
  by rewrite (bind_prepend _ _ _ _ Ho).
Qed.

Lemma getNewMessages_uninitialised (st : state World) :
  db st = false \/ targetHandleId st = None ->
  IMessageMonitor.getNewMessages st = Run (Ok []) st [].
Proof.
  intros Hno. unfold IMessageMonitor.getNewMessages.
  rewrite (bind_prepend _ _ st st) by reflexivity.
  cbn [get out final log]. rewrite prepend_nil.
  destruct Hno as [-> | ->]; [reflexivity|]. by destruct (db st).
Qed.

Lemma resolutions_record i (l : list event) :
  i ∈ resolutions l -> exists ev, ev ∈ l /\ record_of ev = Some i.
Proof.
  unfold resolutions. intros Hin.
  apply list_elem_of_omap in Hin as (ev & Hev & Hi).
  exists ev. split; [exact Hev|]. destruct ev; try discriminate;
    by injection Hi as ->.
Qed.

Lemma replays_resolved (st st' : state World) l i :
  replays st st' l -> i ∈ resolutions l ->
  MessageCache.isProcessed (cache st') i = true.
Proof.
  intros (ms & -> & Hms) Hin.
  rewrite resolutions_ledger_events, <- Hms, <- list_fmap_compose in Hin.
  apply list_elem_of_fmap in Hin as (m & -> & Hm).
  apply list_elem_of_split in Hm as (ms1 & ms2 & ->).
  unfold MessageCache.after_marks. rewrite fold_left_app. cbn [fold_left].
  apply isProcessed_after_marks.
  destruct m; [apply isProcessed_markProcessed|apply isProcessed_markFailed].
Qed.

Lemma cycle_resolves_the_batch (st : state World) :
  let r := Daemon.cycle config st in
  exists newMessages,
    out (IMessageMonitor.getNewMessages st) = Ok newMessages
    /\ resolutions (log r) = IMessageData.id <$> newMessages
    /\ sublist (posted_records (log r)) (resolutions (log r))
    /\ forall i, i ∈ IMessageData.id <$> newMessages ->
                 MessageCache.isProcessed (cache (final r)) i = true.
Proof.
  intros r. destruct (cycle_run config st)
    as (_ & _ & _ & _ & _ & batch & Hbatch & Hres & Hposted).
  exists batch. fold r in Hres, Hposted. rewrite Hres.
  split; [exact Hbatch|]. split; [reflexivity|]. split; [exact Hposted|].
  intros i Hi. apply (replays_resolved st _ (log r)).
  - apply Replays_cycle.
  - by rewrite Hres.
Qed.

Section DistinctRows.
Hypothesis distinct_rows :
  forall handle w w' rows,
    db_messages handle w = (w', inr rows) ->
    NoDup (MessageRow.ROWID <$> rows).

Lemma cycle_resolutions_NoDup (st : state World) :
  NoDup (resolutions (log (Daemon.cycle config st))).
Proof.
  destruct (cycle_resolves_the_batch st) as (batch & Hbatch & -> & _).
  destruct (db st) eqn:Hdb; cycle 1.
  { rewrite getNewMessages_uninitialised in Hbatch by auto.
    injection Hbatch as <-. constructor. }
  destruct (targetHandleId st) as [handle|] eqn:Hhandle; cycle 1.
  { rewrite getNewMessages_uninitialised in Hbatch by auto.
    injection Hbatch as <-. constructor. }
  destruct (getNewMessages_run st)
    as (_ & _ & batch' & Hbatch' & _ & Hfail & Hrows).
  rewrite Hbatch in Hbatch'. injection Hbatch' as <-.
  destruct (db_messages handle (world st)) as [w [e|rows]] eqn:Hquery.
  - rewrite (Hfail handle w e) by done. constructor.
  - rewrite (Hrows handle w rows) by done.
    apply NoDup_filter.
    rewrite (list_fmap_compose MessageRow.ROWID Number_toString).
    apply NoDup_fmap_2; [|by eapply distinct_rows].
    intros z1 z2. apply Number_toString_inj.
Qed.

Lemma main_loop_resolutions cycles (st : state World) :
  let l := log (Daemon.main_loop config cycles st) in
  NoDup (resolutions l) /\ sublist (posted_records l) (resolutions l).
Proof.
  revert st. induction cycles as [|n IH]; intros st.
  { cbn. split; [constructor|reflexivity]. }
  destruct (isShuttingDown st) eqn:Hdown.
  { rewrite main_loop_down by done. cbn. split; [constructor|reflexivity]. }
  rewrite main_loop_unfold by done. unfold prepend. cbn [log].
  rewrite resolutions_app, posted_records_app.
  destruct (IH (final (Daemon.cycle config st))) as [Hnodup Hsub].
  destruct (cycle_resolves_the_batch st) as (batch & _ & Hres & Hposted & Hdone).
  split; [|by apply sublist_app].
  apply NoDup_app. split; [apply cycle_resolutions_NoDup|].
  split; [|exact Hnodup].
  intros i Hi Hi'. rewrite Hres in Hi. apply Hdone in Hi.
  apply resolutions_record in Hi' as (ev & Hev & Hrec).
  destruct (main_loop_run config n (final (Daemon.cycle config st)))
    as (_ & _ & _ & _ & Hfresh).
  rewrite Forall_forall in Hfresh. rewrite (Hfresh ev Hev i Hrec) in Hi.
  discriminate.
Qed.

End DistinctRows.

(** X16. When no message query returns the same ROWID twice, the loop
    resolves no record twice and posts no record twice, however many
    cycles it runs and whatever fails on the way. *)
Theorem no_record_is_handled_twice cycles (st : state World) :
  (forall handle w w' rows,
     db_messages handle w = (w', inr rows) ->
     NoDup (MessageRow.ROWID <$> rows)) ->
  let l := log (Daemon.main_loop config cycles st) in
  NoDup (resolutions l) /\ NoDup (posted_records l).
Proof.
  intros Hrows l. destruct (main_loop_resolutions Hrows cycles st) as [Hn Hs].
  split; [exact Hn|]. eapply sublist_NoDup; [exact Hn|exact Hs].
Qed.

(** X17. A cycle leaves nothing pending: when the message query succeeds,
    every row it returned is resolved in the ledger at the end of the same
    cycle, whether the row was new, skipped, posted or failed. *)
Theorem cycle_resolves_every_fetched_row (st : state World) handle w rows msg :
  db st = true ->
  targetHandleId st = Some handle ->
  db_messages handle (world st) = (w, inr rows) ->
  msg ∈ rows ->
  MessageCache.isProcessed (cache (final (Daemon.cycle config st)))
    (Number_toString (MessageRow.ROWID msg)) = true.
Proof.
  intros Hdb Hhandle Hquery Hmsg.
  set (i := Number_toString (MessageRow.ROWID msg)).
  destruct (MessageCache.isProcessed (cache st) i) eqn:Hi.
  { destruct (cycle_run config st) as (_ & (Hkeep & _) & _). by apply Hkeep. }
  destruct (cycle_resolves_the_batch st) as (batch & Hbatch & _ & _ & Hdone).
  apply Hdone.
  destruct (getNewMessages_run st)
    as (_ & _ & batch' & Hbatch' & _ & _ & Hrows).
  rewrite Hbatch in Hbatch'. injection Hbatch' as <-.
  rewrite (Hrows handle w rows) by done.
  apply list_elem_of_filter. split; [exact Hi|].
  apply list_elem_of_fmap. by exists msg.
Qed.

Lemma resolved_rows_are_passed_over rows newMessages (st : state World) :
  Forall (fun msg => MessageCache.isProcessed (cache st)
                       (Number_toString (MessageRow.ROWID msg)) = true) rows ->
  for_of rows IMessageMonitor.getNewMessages_step newMessages st
  = Run (Ok newMessages) st [].
Proof.
  induction 1 as [|msg rows Hmsg _ IH]; [reflexivity|].
  cbn [for_of].
  assert (IMessageMonitor.getNewMessages_step newMessages msg st
          = Run (Ok newMessages) st []) as Hstep.
  { unfold IMessageMonitor.getNewMessages_step, IMessageMonitor.isProcessed.
    unfold bind at 1. cbn [get ret bind out final log]. by rewrite Hmsg. }
  rewrite (bind_prepend _ _ st newMessages) by (by rewrite Hstep).
  rewrite Hstep. cbn [final log]. by rewrite prepend_nil.
Qed.

(** X18. An idle cycle: when every row the query returns is already
    resolved, the cycle queries no attachments, calls neither the
    converter nor the platform, leaves the ledger and its file alone, and
    only sleeps the polling interval. *)
Theorem idle_cycle_only_sleeps (st : state World) handle w rows :
  db st = true ->
  targetHandleId st = Some handle ->
  db_messages handle (world st) = (w, inr rows) ->
  Forall (fun msg => MessageCache.isProcessed (cache st)
                       (Number_toString (MessageRow.ROWID msg)) = true) rows ->
  Daemon.cycle config st
  = Run (Ok tt) (set_world w st) [Sleep (Config.polling_interval config)].
Proof.
  intros Hdb Hhandle Hquery Hrows. unfold Daemon.cycle.
  assert (IMessageMonitor.getNewMessages st = Run (Ok []) (set_world w st) [])
    as Hfetch.
  { unfold IMessageMonitor.getNewMessages.
    rewrite (bind_prepend _ _ st st) by reflexivity.
    cbn [get out final log]. rewrite prepend_nil, Hdb, Hhandle.
    rewrite (try_catch_bind_Ok _ _ _ _ rows)
      by (by rewrite (call_inr _ _ _ _ _ Hquery)).
    rewrite (call_inr _ _ _ _ _ Hquery). cbn [final log].
    rewrite prepend_nil.
    rewrite (try_catch_Ok _ _ _ []);
      by rewrite resolved_rows_are_passed_over. }
  rewrite (try_catch_bind_Ok _ _ _ _ []) by (by rewrite Hfetch).
  rewrite Hfetch. reflexivity.
Qed.

End LoopShape.

Lemma no_record_is_handled_twice_witness :
  let l := log (@Daemon.main_loop example_host _ Steady.external
                  Scripted.config 3 Steady.start) in
  NoDup (resolutions l) /\ NoDup (posted_records l).
Proof.
  apply (@no_record_is_handled_twice example_host unit Steady.external
           Scripted.config 3 Steady.start).
  intros handle w w' rows Hquery. injection Hquery as _ <-.
  apply (bool_decide_unpack _). vm_compute. exact I.
Defined.

Lemma cycle_resolves_every_fetched_row_witness :
  @MessageCache.isProcessed example_host
    (cache (final (@Daemon.cycle example_host _ Scripted.external
                     Scripted.config (Scripted.start Scripted.two_rows))))
    (Number_toString 1) = true.
Proof.
  apply (@cycle_resolves_every_fetched_row example_host _ _ Scripted.config
           (Scripted.start Scripted.two_rows) 1 Scripted.two_rows
           (Scripted.table Scripted.two_rows) (Scripted.row 1 100 "older")).
  - reflexivity.
  - reflexivity.
  - reflexivity.
  - do 2 constructor.
Defined.

Lemma idle_cycle_only_sleeps_witness :
  let st := final (@Daemon.cycle example_host _ Scripted.external
                     Scripted.config (Scripted.start Scripted.two_rows)) in
  @Daemon.cycle example_host _ Scripted.external Scripted.config st
  = Run (Ok tt) (set_world Scripted.two_rows st) [Sleep (Num 3000)].
Proof.
  apply (@idle_cycle_only_sleeps example_host _ _ Scripted.config
           (final (@Daemon.cycle example_host _ Scripted.external
                     Scripted.config (Scripted.start Scripted.two_rows)))
           1 Scripted.two_rows (Scripted.table Scripted.two_rows)).
  - reflexivity.
  - reflexivity.
  - reflexivity.
  - repeat constructor.
Defined.

(** ** Configuration and start-up *)

Section ConfigFacts.
Context `{Host} (env : ConfigLoader.environment).
Import ConfigLoader.

Lemma getRequiredEnv_set key :
  is_set env key = true ->
  exists c value, getRequiredEnv env key = inr (c :: value).
Proof.
  unfold is_set, getRequiredEnv.
  destruct (env !! key) as [[|c value]|]; try discriminate. eauto.
Qed.

Lemma getRequiredEnv_unset key :
  is_set env key = false ->
  getRequiredEnv env key
  = inl (Error ("Missing required environment variable: " ++ key)).
Proof.
  unfold is_set, getRequiredEnv.
  by destruct (env !! key) as [[|c value]|].
Qed.

Ltac read_variable key :=
  let E := fresh "E" in
  destruct (is_set env key) eqn:E;
  [ let c := fresh "c" in
    let value := fresh "value" in
    let Hv := fresh "Hv" in
    destruct (getRequiredEnv_set key E) as (c & value & Hv); rewrite Hv
  | rewrite (getRequiredEnv_unset key E) ].

(** X19. [loadConfig] returns a configuration exactly when the four
    credentials and the contact are all set to non-empty strings; the
    two numeric variables never make it fail. *)
Theorem loadConfig_needs_exactly_the_required_variables :
  (exists config warned, loadConfig env = Loaded config warned)
  <-> forallb (is_set env) required = true.
Proof.
  unfold loadConfig, required. cbn [forallb].
  read_variable "TWITTER_API_KEY"%string;
    [|split; [by intros (? & ? & ?)|discriminate]].
  read_variable "TWITTER_API_SECRET"%string;
    [|split; [by intros (? & ? & ?)|discriminate]].
  read_variable "TWITTER_ACCESS_TOKEN"%string;
    [|split; [by intros (? & ? & ?)|discriminate]].
  read_variable "TWITTER_ACCESS_SECRET"%string;
    [|split; [by intros (? & ? & ?)|discriminate]].
  read_variable "IMESSAGE_CONTACT"%string;
    [|split; [by intros (? & ? & ?)|discriminate]].
  split; [reflexivity|]. intros _.
  destruct (length_gt 1000 _); eauto.
Qed.

(** X20. When a required variable is missing, [loadConfig] ends in the
    configuration error that names the first missing one, in the order
    API key, API secret, access token, access secret, contact. *)
Theorem loadConfig_reports_the_first_missing_variable before key after :
  required = before ++ key :: after ->
  forallb (is_set env) before = true ->
  is_set env key = false ->
  loadConfig env
  = ConfigurationError
      (Error ("Missing required environment variable: " ++ key)).
Proof.
  unfold required. intros Hsplit Hbefore Hkey.
  do 5 (destruct before as [|? before];
        [ injection Hsplit as <- <-
        | injection Hsplit as <- Hsplit ]; cbn [forallb] in Hbefore;
        [ repeat (apply andb_prop in Hbefore as [?E Hbefore]);
          unfold loadConfig;
          repeat match goal with
            | E : is_set env ?k = true |- _ =>
                destruct (getRequiredEnv_set k E) as (? & ? & ->); clear E
            end;
          by rewrite (getRequiredEnv_unset _ Hkey)
        | ]).
  by destruct before.
Qed.

End ConfigFacts.

Section StartupFacts.
Context `{Host} {World : Type} `{External World} `{Startup World}.

Lemma verifyCredentials_run (st : state World) :
  exists b w,
    verifyCredentials st = Run (Ok b) (set_world w st) []
    /\ (b = true <-> exists username, v2_me (world st) = (w, inr username)).
Proof.
  unfold verifyCredentials.
  destruct (v2_me (world st)) as [w [e|username]] eqn:Hme.
  - exists false, w. split.
    + rewrite (try_catch_bind_Throw _ _ _ _ e)
        by (by rewrite (call_inl _ _ _ _ _ Hme)).
      by rewrite (call_inl _ _ _ _ _ Hme).
    + split; [discriminate|]. by intros (? & ?).
  - exists true, w. split; [|split; [by eauto|done]].
    rewrite (try_catch_bind_Ok _ _ _ _ username)
      by (by rewrite (call_inr _ _ _ _ _ Hme)).
    by rewrite (call_inr _ _ _ _ _ Hme).
Qed.

Ltac run_initialize :=
  unfold initialize, try_catch, bind, call, get, modify, ret;
  cbn [out final log world set_world set_db set_targetHandleId cache db
       targetHandleId isShuttingDown consecutiveErrors app negb].

(** The ways [initialize] can go. *)
Lemma initialize_run config (st : state World) :
  let r := initialize config st in
  log r = [] /\ cache (final r) = cache st
  /\ isShuttingDown (final r) = isShuttingDown st
  /\ consecutiveErrors (final r) = consecutiveErrors st
  /\ ((out r = Ok true /\ db (final r) = true
       /\ exists w1 w2 handle,
            existsSync_dbPath (world st) = true
            /\ open_database (world st) = (w1, inr tt)
            /\ db_handle (Config.imessage_contact config) w1
               = (w2, inr (Some handle))
            /\ targetHandleId (final r) = Some (HandleRow.ROWID handle))
      \/ (out r = Ok false
          /\ targetHandleId (final r) = targetHandleId st)).
Proof.
  run_initialize.
  destruct (existsSync_dbPath (world st)) eqn:Hexists; cbn; [|by auto 10].
  destruct (open_database (world st)) as [w1 [e|[]]] eqn:Hopen; cbn;
    [by auto 10|].
  destruct (db_handle (Config.imessage_contact config) w1)
    as [w2 [e|[handle|]]] eqn:Hhandle; cbn; [by auto 10| |].
  - do 4 (split; [reflexivity|]). left. do 2 (split; [reflexivity|]).
    by exists w1, w2, handle.
  - destruct (db_handles w2) as [w3 [e|handles]]; cbn; by auto 10.
Qed.

(** X21. [initialize] never throws and never touches the ledger. It
    returns [true] only when the database file exists and opens and the
    lookup returns a row for the configured contact; the connection is
    then open and the handle id is that row's ROWID. When it returns
    [false] the handle id is left as it was. *)
Theorem initialize_sets_the_handle_only_on_success config (st : state World) :
  let r := initialize config st in
  cache (final r) = cache st
  /\ ((out r = Ok true /\ db (final r) = true
       /\ exists w1 w2 handle,
            existsSync_dbPath (world st) = true
            /\ open_database (world st) = (w1, inr tt)
            /\ db_handle (Config.imessage_contact config) w1
               = (w2, inr (Some handle))
            /\ targetHandleId (final r) = Some (HandleRow.ROWID handle))
      \/ (out r = Ok false
          /\ targetHandleId (final r) = targetHandleId st)).
Proof.
  intros r. destruct (initialize_run config st) as (_ & Hc & _ & _ & Hr).
  split; [exact Hc|exact Hr].
Qed.

(** X22. When the database opens but does not know the contact,
    [initialize] returns [false] and leaves the connection open: nothing
    on this path closes it, whether or not listing the other handles
    succeeds. *)
Theorem unknown_contact_leaves_the_database_open config (st : state World)
    w1 w2 :
  existsSync_dbPath (world st) = true ->
  open_database (world st) = (w1, inr tt) ->
  db_handle (Config.imessage_contact config) w1 = (w2, inr None) ->
  let r := initialize config st in
  out r = Ok false /\ db (final r) = true
  /\ targetHandleId (final r) = targetHandleId st.
Proof.
  intros Hexists Hopen Hhandle. run_initialize.
  rewrite Hexists. cbn. rewrite Hopen. cbn. rewrite Hhandle. cbn.
  destruct (db_handles w2) as [w3 [e|handles]]; cbn; auto.
Qed.

(** The two ways [main] can go. *)
Lemma main_run env cycles (st : state World) :
  let r := main env cycles st in
  (out r = Exit 1 /\ log r = [ProcessExit 1])
  \/ exists loaded warned st0,
       ConfigLoader.loadConfig env = ConfigLoader.Loaded loaded warned
       /\ db st0 = true
       /\ is_Some (targetHandleId st0)
       /\ cache st0 = MessageCache.new (cache_file (world st))
       /\ isShuttingDown st0 = false
       /\ consecutiveErrors st0 = 0
       /\ r = Daemon.main_loop (ConfigLoader.settings loaded) cycles st0.
Proof.
  unfold main.
  destruct (ConfigLoader.loadConfig env) as [loaded warned|e] eqn:Hload;
    [|by left].
  rewrite (try_catch_bind_Ok _ _ _ _ tt) by reflexivity.
  cbn [modify out final log]. rewrite prepend_nil.
  destruct (ensure_tempDir (world (construct st))) as [w0 [e|[]]] eqn:Hdir.
  { rewrite (try_catch_bind_Throw _ _ _ _ e)
      by (by rewrite (call_inl _ _ _ _ _ Hdir)).
    rewrite (call_inl _ _ _ _ _ Hdir). by left. }
  rewrite (try_catch_bind_Ok _ _ _ _ tt)
    by (by rewrite (call_inr _ _ _ _ _ Hdir)).
  rewrite (call_inr _ _ _ _ _ Hdir). cbn [final log]. rewrite prepend_nil.
  destruct (verifyCredentials_run (set_world w0 (construct st)))
    as (b & w & Hverify & _).
  rewrite (try_catch_bind_Ok _ _ _ _ b) by (by rewrite Hverify).
  rewrite Hverify. cbn [final log]. rewrite prepend_nil.
  destruct b; cbn [negb]; [|by left].
  set (st1 := set_world w (set_world w0 (construct st))).
  destruct (initialize_run (ConfigLoader.settings loaded) st1)
    as (Hlog & Hcache & Hdown & Herrors & Hr).
  destruct Hr as [(Hout & Hdb & w1 & w2 & handle & _ & _ & _ & Hhandle)
                 |(Hout & _)];
    rewrite (try_catch_bind_Ok _ _ _ _ _ Hout), Hlog, prepend_nil;
    cbn [negb]; [|by left].
  right. exists loaded, warned, (final (initialize (ConfigLoader.settings loaded) st1)).
  split; [reflexivity|]. split; [exact Hdb|].
  split; [by rewrite Hhandle|]. split; [by rewrite Hcache|].
  split; [by rewrite Hdown|]. split; [by rewrite Herrors|].
  apply (try_catch_Ok _ _ _ tt).
  by destruct (main_loop_run (ConfigLoader.settings loaded) cycles
                 (final (initialize (ConfigLoader.settings loaded) st1))).
Qed.

(** X23. [main] either exits with code 1 having done nothing for any
    record (no fetch result is processed, nothing is posted or marked, no
    sleep), or it enters the polling loop with the configuration loaded,
    the database open, the contact's handle set, the ledger as loaded from
    its file, and the error counter at zero. *)
Theorem main_exits_or_enters_the_loop env cycles (st : state World) :
  let r := main env cycles st in
  (out r = Exit 1 /\ log r = [ProcessExit 1])
  \/ exists loaded warned st0,
       ConfigLoader.loadConfig env = ConfigLoader.Loaded loaded warned
       /\ db st0 = true
       /\ is_Some (targetHandleId st0)
       /\ cache st0 = MessageCache.new (cache_file (world st))
       /\ isShuttingDown st0 = false
       /\ consecutiveErrors st0 = 0
       /\ r = Daemon.main_loop (ConfigLoader.settings loaded) cycles st0.
Proof. apply main_run. Qed.

Lemma loaded_interval env loaded warned :
  ConfigLoader.loadConfig env = ConfigLoader.Loaded loaded warned ->
  let raw :=
    parseInt (ConfigLoader.getOptionalEnv env "POLL_INTERVAL" (lit "3000")) in
  Config.polling_interval (ConfigLoader.settings loaded)
  = (if length_gt 1000 raw then Num 1000 else raw).
Proof.
  unfold ConfigLoader.loadConfig.
  repeat match goal with
    | |- context [ConfigLoader.getRequiredEnv env ?k] =>
        destruct (ConfigLoader.getRequiredEnv env k); [discriminate|]
    end.
  destruct (length_gt 1000 _) eqn:Hlow; by intros [= <- _].
Qed.

(** X24. From the environment to the timer. Every value that [main]
    hands to [sleep] is [POLL_INTERVAL] as [parseInt] reads it (3000 when
    unset), raised to 1000 when it is below; it is never a number below
    1000. The timer then waits at least 1000 ms when the parsed value is a
    number up to 2^31 - 1 (or is below every number), but only 1 ms when
    the parsed value is NaN, is infinite, or is a number above 2^31 - 1:
    the test in [loadConfig] lets these through. *)
Theorem poll_delay_from_the_environment env cycles (st : state World) ms :
  ms ∈ sleeps (log (main env cycles st)) ->
  let raw :=
    parseInt (ConfigLoader.getOptionalEnv env "POLL_INTERVAL" (lit "3000")) in
  ms = (if length_gt 1000 raw then Num 1000 else raw)
  /\ length_gt 1000 ms = false
  /\ (raw = NegInfinity \/ (exists z, raw = Num z /\ z <= 2147483647) ->
      1000 <= setTimeout_delay ms <= 2147483647)
  /\ (raw = NaN \/ raw = PosInfinity
      \/ (exists z, raw = Num z /\ 2147483647 < z) ->
      setTimeout_delay ms = 1).
Proof.
  intros Hms raw.
  destruct (main_run env cycles st)
    as [(_ & Hlog)|(loaded & warned & st0 & Hload & _ & _ & _ & _ & _ & Hrun)].
  { rewrite Hlog in Hms. by apply elem_of_nil in Hms. }
  rewrite Hrun in Hms.
  destruct (main_loop_run (ConfigLoader.settings loaded) cycles st0)
    as (_ & _ & Hsleeps & _).
  rewrite Hsleeps in Hms.
  assert (ms = Config.polling_interval (ConfigLoader.settings loaded)) as ->.
  { destruct (isShuttingDown st0); [by apply elem_of_nil in Hms|].
    by apply elem_of_replicate in Hms as [-> _]. }
  rewrite (loaded_interval env loaded warned Hload). fold raw.
  split; [reflexivity|].
  destruct raw as [z| | |]; cbn [length_gt].
  - destruct (z <? 1000) eqn:Hz; cbn [length_gt setTimeout_delay].
    + split; [reflexivity|]. split.
      * intros _. cbn. lia.
      * intros [?|[?|(z' & [= <-] & ?)]]; try discriminate. lia.
    + split; [exact Hz|]. apply Z.ltb_ge in Hz. split.
      * intros [?|(z' & [= <-] & ?)]; [discriminate|].
        replace ((1 <=? z) && (z <=? 2147483647)) with true by lia. lia.
      * intros [?|[?|(z' & [= <-] & ?)]]; try discriminate.
        by replace ((1 <=? z) && (z <=? 2147483647)) with false by lia.
  - split; [reflexivity|]. split; [|reflexivity].
    by intros [?|(z' & ? & ?)].
  - split; [reflexivity|]. split; [|reflexivity].
    by intros [?|(z' & ? & ?)].
  - split; [reflexivity|]. split; [intros _; cbn; lia|].
    by intros [?|[?|(z' & ? & ?)]].
Qed.

(** X25. Across a restart: a record that the previous run had resolved
    under a finite numeric id, and whose ledger file was written, is left
    alone by the whole next run: no event of [main] belongs to it. *)
Theorem restart_leaves_saved_records_alone env cycles (st : state World)
    (previous : MessageCache.t) (saved : MessageCache.save_env) i z :
  MessageCache.outcome saved = MessageCache.Written ->
  cache_file (world st)
  = MessageCache.cacheFile (MessageCache.save saved previous) ->
  MessageCache.isProcessed previous i = true ->
  parseInt i = Num z ->
  Forall (fun ev => record_of ev <> Some i) (log (main env cycles st)).
Proof.
  intros Hwritten Hfile Hi Hz.
  destruct (main_run env cycles st)
    as [(_ & ->)|(loaded & warned & st0 & _ & _ & _ & Hcache & _ & _ & ->)].
  { by repeat constructor. }
  apply (resolved_is_left_alone (ConfigLoader.settings loaded) i st0 cycles).
  rewrite Hcache, Hfile. apply isProcessed_true in Hi.
  apply isProcessed_true. rewrite Hz in *.
  unfold MessageCache.new, MessageCache.load, MessageCache.save.
  cbn. rewrite Hwritten. cbn.
  by rewrite !elem_of_reloaded.
Qed.

End StartupFacts.

Lemma loadConfig_reports_the_first_missing_variable_witness :
  @ConfigLoader.loadConfig example_host ScriptedStartup.incomplete
  = ConfigLoader.ConfigurationError
      (Error "Missing required environment variable: TWITTER_ACCESS_TOKEN").
Proof.
  apply (@loadConfig_reports_the_first_missing_variable example_host
           ScriptedStartup.incomplete
           ["TWITTER_API_KEY"; "TWITTER_API_SECRET"]%string
           "TWITTER_ACCESS_TOKEN"%string
           ["TWITTER_ACCESS_SECRET"; "IMESSAGE_CONTACT"]%string).
  - reflexivity.
  - vm_compute. reflexivity.
  - vm_compute. reflexivity.
Defined.

Lemma unknown_contact_leaves_the_database_open_witness :
  let r := initialize ScriptedStartup.stranger (Scripted.start Scripted.quiet) in
  out r = Ok false /\ db (final r) = true
  /\ targetHandleId (final r) = Some 1.
Proof.
  apply (unknown_contact_leaves_the_database_open ScriptedStartup.stranger
           (Scripted.start Scripted.quiet) Scripted.quiet Scripted.quiet).
  - reflexivity.
  - reflexivity.
  - vm_compute. reflexivity.
Defined.

Lemma restart_leaves_saved_records_alone_witness :
  Forall (fun ev => record_of ev <> Some (lit "1"))
    (log (@main example_host _ Scripted.external ScriptedStartup.startup
            ScriptedStartup.env 2 (Scripted.start Scripted.two_rows))).
Proof.
  apply (@restart_leaves_saved_records_alone example_host _
           Scripted.external ScriptedStartup.startup ScriptedStartup.env 2
           (Scripted.start Scripted.two_rows) ScriptedStartup.previous
           Scripted.written (lit "1") 1).
  - reflexivity.
  - reflexivity.
  - vm_compute. reflexivity.
  - vm_compute. reflexivity.
Defined.

(** X24 on a polling interval that is not a number: the daemon polls
    every millisecond. *)
Lemma poll_delay_from_the_environment_witness :
  NaN ∈ sleeps (log (@main example_host _ Scripted.external
                       ScriptedStartup.startup ScriptedStartup.unparsable 2
                       (Scripted.start Scripted.two_rows)))
  /\ length_gt 1000 NaN = false
  /\ setTimeout_delay NaN = 1.
Proof.
  assert (NaN ∈ sleeps (log (@main example_host _ Scripted.external
                              ScriptedStartup.startup
                              ScriptedStartup.unparsable 2
                              (Scripted.start Scripted.two_rows)))) as Hms.
  { vm_compute. left. }
  split; [exact Hms|].
  destruct (@poll_delay_from_the_environment example_host _
              Scripted.external ScriptedStartup.startup
              ScriptedStartup.unparsable 2
              (Scripted.start Scripted.two_rows) NaN Hms)
    as (_ & Hargument & _ & Hdelay).
  split; [exact Hargument|]. apply Hdelay. left. reflexivity.
Defined.

(** ** The log summary *)

Section SummaryFacts.
Import MessageSummary.

Lemma join_nil_inv sep parts :
  Forall (fun p => p <> []) parts -> join sep parts = [] -> parts = [].
Proof.
  destruct 1 as [|part parts Hpart _]; [reflexivity|]. cbn.
  intros Hjoin. apply app_eq_nil in Hjoin as [Hnil _]. by destruct Hpart.
Qed.

(** X26. The summary that is logged for a message is empty exactly when
    the message has no text, no media path and was not truncated; so every
    message that [validateMessage] accepts has a non-empty summary. *)
Theorem summary_is_empty_only_for_an_empty_message
    (message : ProcessedMessage.t) :
  (formatMessageSummary message = []
   <-> ProcessedMessage.text message = []
       /\ ProcessedMessage.mediaPaths message = []
       /\ ProcessedMessage.wasTruncated message = false)
  /\ (fst (MessageProcessor.validateMessage message) = true ->
      formatMessageSummary message <> []).
Proof.
  assert (formatMessageSummary message = []
          <-> ProcessedMessage.text message = []
              /\ ProcessedMessage.mediaPaths message = []
              /\ ProcessedMessage.wasTruncated message = false) as Hempty.
  { unfold formatMessageSummary. split.
    - intros Hjoin. apply join_nil_inv in Hjoin.
      + destruct (ProcessedMessage.text message) as [|c text];
          destruct (ProcessedMessage.mediaPaths message) as [|path paths];
          destruct (ProcessedMessage.wasTruncated message);
          try done; cbn in Hjoin;
          by repeat (apply app_eq_nil in Hjoin as [Hjoin ?]).
      + destruct (truthy _), (0 <? _)%nat, (ProcessedMessage.wasTruncated _);
          cbn [app];
          repeat first [apply List.Forall_nil | apply List.Forall_cons];
          intros E; repeat (apply app_eq_nil in E as [_ E]); discriminate.
    - intros (-> & -> & ->). reflexivity. }
  split; [exact Hempty|].
  rewrite validateMessage_fst. intros Hvalid Hnil.
  apply Hempty in Hnil as (Ht & Hm & _). by rewrite Ht, Hm in Hvalid.
Qed.

End SummaryFacts.
